(** * MangaPark provider: a shallow embedding and its contract

    The provider is a TypeScript class with three public operations
    ([search], [findChapters], [findChapterPages]) that funnel through one
    network helper ([graphqlRequest]) and two pure helpers ([buildUrl],
    [parseChapterNumber]).  The response of the server is an untyped JSON
    value, so the embedding works on dynamically typed JavaScript values
    and keeps the language's own rules for truthiness, property access,
    optional chaining, iteration, regular expressions and the conversion
    between numbers and strings.  Exceptions are explicit: every operation
    that can throw returns a [result], and [try ... catch] turns a thrown
    error into the value of the handler.

    The operations are [async]; each awaits one request and nothing else,
    so they are written in direct style, with the transport a function from
    the request to its outcome.  The diagnostic that a handler writes to
    the console is not part of the returned value and is left out.  The
    file gives the definitions first, then the properties. *)

From stdpp Require Import base numbers list strings gmap.
From Stdlib Require Import ZArith Lia Reals Lra Sorted.

#[local] Set Warnings "-register-all".
#[local] Open Scope Z_scope.

(** ** Strings

    A JavaScript string is a sequence of UTF-16 code units. *)

Definition jsstring := list N.

Fixpoint js (s : string) : jsstring :=
  match s with
  | EmptyString => []
  | String a s' => Ascii.N_of_ascii a :: js s'
  end.

Fixpoint starts_with (p s : jsstring) : bool :=
  match p, s with
  | [], _ => true
  | a :: p', b :: s' => (a =? b)%N && starts_with p' s'
  | _ :: _, [] => false
  end.

Definition is_empty (s : jsstring) : bool :=
  match s with [] => true | _ => false end.

(** White space and line terminators, the set matched by [\s] and trimmed
    by [parseFloat]. *)
Definition is_space (c : N) : bool :=
  ((9 <=? c) && (c <=? 13) || (c =? 32) || (c =? 160) || (c =? 5760)
   || (8192 <=? c) && (c <=? 8202) || (c =? 8232) || (c =? 8233)
   || (c =? 8239) || (c =? 8287) || (c =? 12288) || (c =? 65279))%N.

Definition is_nonspace (c : N) : bool := negb (is_space c).

Definition is_digit (c : N) : bool := ((48 <=? c) && (c <=? 57))%N.

(** Case folding of the [i] flag.  Only the ASCII letters are folded: the
    patterns of the provider contain ASCII characters only, and no code
    unit outside ASCII is canonicalised to an ASCII letter. *)
Definition canon (c : N) : N :=
  (if (97 <=? c) && (c <=? 122) then c - 32 else c)%N.

(** ** Numbers

    A Number is an IEEE 754 binary64 value.  [Finite neg m e] stands for
    (-1)^neg * m * 2^e; the values built by [to_double] are canonical:
    2^52 <= m < 2^53 and -1074 <= e <= 971 for a normal number,
    0 < m < 2^52 and e = -1074 for a subnormal one, m = 0 and e = 0 for
    zero. *)

Inductive number :=
| NaN
| Infinity (neg : bool)
| Finite (neg : bool) (m : Z) (e : Z).

Definition number_is_falsy (x : number) : bool :=
  match x with
  | NaN => true
  | Infinity _ => false
  | Finite _ m _ => m =? 0
  end.

(** Nearest integer to a/b, ties to even (0 <= a, 0 < b). *)
Definition round_half_even (a b : Z) : Z :=
  let q := a / b in
  let r := a mod b in
  if 2 * r <? b then q
  else if b <? 2 * r then q + 1
  else if Z.even q then q else q + 1.

(** The fraction a / (b * 2^e). *)
Definition scale2 (a b e : Z) : Z * Z :=
  if 0 <=? e then (a, b * 2 ^ e) else (a * 2 ^ (- e), b).

(** The fraction a / (b * 10^d). *)
Definition scale10 (a b d : Z) : Z * Z :=
  if 0 <=? d then (a, b * 10 ^ d) else (a * 10 ^ (- d), b).

(** Exponent of the binade of a/b: the e with 2^52 <= (a/b)/2^e < 2^53,
    but no less than the exponent of the subnormal numbers. *)
Definition binade (a b : Z) : Z :=
  let l := Z.log2 a - Z.log2 b in
  let '(a', b') := scale2 a b (l - 52) in
  let e := if 2 ^ 52 * b' <=? a' then l - 52 else l - 53 in
  Z.max e (-1074).

(** The Number value of the non-negative rational a/b: round to nearest,
    ties to even, overflow to infinity. *)
Definition to_double (a b : Z) : number :=
  if a =? 0 then Finite false 0 0
  else
    let e := binade a b in
    let '(a', b') := scale2 a b e in
    let m := round_half_even a' b' in
    let '(m, e) := if m =? 2 ^ 53 then (2 ^ 52, e + 1) else (m, e) in
    if m =? 0 then Finite false 0 0
    else if 971 <? e then Infinity false
    else Finite false m e.

Definition number_of_Z (z : Z) : number :=
  match to_double (Z.abs z) 1 with
  | Finite _ m e => Finite (z <? 0) m e
  | Infinity _ => Infinity (z <? 0)
  | NaN => NaN
  end.

Definition negate (x : number) : number :=
  match x with
  | NaN => NaN
  | Infinity neg => Infinity (negb neg)
  | Finite neg m e => Finite (negb neg) m e
  end.

(** *** [parseFloat]

    The longest prefix of the trimmed input that is a [StrDecimalLiteral]
    (optional sign, [Infinity] or digits with an optional fraction and an
    optional exponent) is read as an exact rational and rounded. *)

Fixpoint span (p : N → bool) (s : jsstring) : jsstring * jsstring :=
  match s with
  | [] => ([], [])
  | c :: s' =>
    if p c then let '(a, b) := span p s' in (c :: a, b) else ([], s)
  end.

Fixpoint trim_start (s : jsstring) : jsstring :=
  match s with
  | c :: s' => if is_space c then trim_start s' else s
  | [] => []
  end.

Definition digit_value (c : N) : Z := Z.of_N c - 48.

Fixpoint digits_value (acc : Z) (ds : jsstring) : Z :=
  match ds with
  | [] => acc
  | d :: ds' => digits_value (10 * acc + digit_value d) ds'
  end.

(** The exponent part [e], [e+] or [e-] followed by digits; 0 when the
    input does not continue with one. *)
Definition parse_exponent (s : jsstring) : Z :=
  match s with
  | c :: s' =>
    if ((c =? 101) || (c =? 69))%N then
      match s' with
      | 43%N :: s'' => digits_value 0 (span is_digit s'').1
      | 45%N :: s'' => - digits_value 0 (span is_digit s'').1
      | _ => digits_value 0 (span is_digit s').1
      end
    else 0
  | [] => 0
  end.

Definition parse_unsigned (s : jsstring) : number :=
  if starts_with (js "Infinity") s then Infinity false
  else
    let '(ip, r1) := span is_digit s in
    let '(fd, r2) :=
      match r1 with
      | 46%N :: r => span is_digit r
      | _ => ([], r1)
      end in
    if is_empty ip && is_empty fd then NaN
    else
      let '(a, b) :=
        scale10 (digits_value 0 (ip ++ fd)) 1
                (Z.of_nat (length fd) - parse_exponent r2) in
      to_double a b.

Definition parseFloat (s : jsstring) : number :=
  match trim_start s with
  | 43%N :: s' => parse_unsigned s'
  | 45%N :: s' => negate (parse_unsigned s')
  | s' => parse_unsigned s'
  end.

(** *** [Number.prototype.toString]

    The digits are the shortest decimal s * 10^(n-k), with k digits in s,
    whose Number value is the number itself. *)

(** The exact value m * 2^e as a fraction. *)
Definition frac_of (m e : Z) : Z * Z :=
  if 0 <=? e then (m * 2 ^ e, 1) else (m, 2 ^ (- e)).

Fixpoint mag_up (fuel : nat) (a b n : Z) : Z :=
  match fuel with
  | O => n
  | S f => if a <? b * 10 ^ n then n else mag_up f a b (n + 1)
  end.

Fixpoint mag_down (fuel : nat) (a b n : Z) : Z :=
  match fuel with
  | O => n
  | S f => if a * 10 ^ (1 - n) <? b then mag_down f a b (n - 1) else n
  end.

(** The decimal exponent of a/b > 0: the n with 10^(n-1) <= a/b < 10^n. *)
Definition mag10 (a b : Z) : Z :=
  if b <=? a then mag_up (Z.to_nat (Z.log2 a) + 1) a b 1
  else mag_down (Z.to_nat (Z.log2 b) + 1) a b 0.

(** The k-digit decimal with exponent n nearest to m * 2^e, when it reads
    back as m * 2^e. *)
Definition candidate (m e k n : Z) : option Z :=
  let '(a, b) := frac_of m e in
  let '(a', b') := scale10 a b (n - k) in
  let s := round_half_even a' b' in
  if (10 ^ (k - 1) <=? s) && (s <? 10 ^ k) then
    let '(c, d) := scale10 s 1 (k - n) in
    match to_double c d with
    | Finite false m' e' => if (m' =? m) && (e' =? e) then Some s else None
    | _ => None
    end
  else None.

Fixpoint shortest_from (fuel : nat) (m e n0 k : Z) : Z * Z * Z :=
  match fuel with
  | O => (m, n0, k)
  | S f =>
    match candidate m e k n0 with
    | Some s => (s, n0, k)
    | None =>
      match candidate m e k (n0 + 1) with
      | Some s => (s, n0 + 1, k)
      | None => shortest_from f m e n0 (k + 1)
      end
    end
  end.

(** The triple (s, n, k) of [Number::toString]; seventeen digits always
    suffice for a binary64 value. *)
Definition shortest (m e : Z) : Z * Z * Z :=
  let '(a, b) := frac_of m e in
  shortest_from 17 m e (mag10 a b) 1.

(** The last k decimal digits of s, most significant first. *)
Fixpoint dec_digits (k : nat) (s : Z) : jsstring :=
  match k with
  | O => []
  | S k' => dec_digits k' (s / 10) ++ [Z.to_N (48 + s mod 10)]
  end.

Fixpoint count_digits (fuel : nat) (z : Z) : nat :=
  match fuel with
  | O => 1%nat
  | S f => if z <? 10 then 1%nat else S (count_digits f (z / 10))
  end.

(** Decimal rendering of a non-negative integer. *)
Definition dec_of_Z (z : Z) : jsstring :=
  dec_digits (count_digits (Z.to_nat (Z.log2 z)) z) z.

Definition zeros (n : Z) : jsstring := replicate (Z.to_nat n) 48%N.

Definition format_number (s n k : Z) : jsstring :=
  let ds := dec_digits (Z.to_nat k) s in
  if (k <=? n) && (n <=? 21) then ds ++ zeros (n - k)
  else if (0 <? n) && (n <=? 21) then
    take (Z.to_nat n) ds ++ js "." ++ drop (Z.to_nat n) ds
  else if (-6 <? n) && (n <=? 0) then js "0." ++ zeros (- n) ++ ds
  else
    let exponent :=
      js "e" ++ (if 0 <? n - 1 then js "+" else js "-")
             ++ dec_of_Z (Z.abs (n - 1)) in
    if k =? 1 then ds ++ exponent
    else take 1 ds ++ js "." ++ drop 1 ds ++ exponent.

Definition toString (x : number) : jsstring :=
  match x with
  | NaN => js "NaN"
  | Infinity neg => (if neg then js "-" else []) ++ js "Infinity"
  | Finite neg m e =>
    if m =? 0 then js "0"
    else
      let '(s, n, k) := shortest m e in
      (if neg then js "-" else []) ++ format_number s n k
  end.

(** ** Values

    The body of a response is whatever [JSON.parse] yields; [VUndef] is
    what reading a missing property gives.  An object is a finite map
    from property names to values. *)

Inductive value :=
| VUndef
| VNull
| VBool (b : bool)
| VNum (x : number)
| VStr (s : jsstring)
| VArr (l : list value)
| VObj (o : gmap jsstring value).

(** ToBoolean. *)
Definition truthy (v : value) : bool :=
  match v with
  | VUndef | VNull => false
  | VBool b => b
  | VNum x => negb (number_is_falsy x)
  | VStr s => negb (is_empty s)
  | VArr _ | VObj _ => true
  end.

(** [a || b] *)
Definition or_else (a b : value) : value := if truthy a then a else b.

Definition nullish (v : value) : bool :=
  match v with VUndef | VNull => true | _ => false end.

(** ** Exceptions *)

Inductive js_error :=
| NetworkError
| HttpError (status : Z)
| SyntaxError
| TypeError
| RangeError.

Inductive result (A : Type) :=
| Ok (a : A)
| Throw (err : js_error).

Arguments Ok {A} a.
Arguments Throw {A} err.

#[global] Instance result_ret : MRet result := @Ok.

#[global] Instance result_bind : MBind result :=
  λ A B f r, match r with Ok a => f a | Throw err => Throw err end.

(** [try { body } catch (error) { return handler }] *)
Definition try_catch {A} (body : result A) (handler : A) : A :=
  match body with Ok a => a | Throw _ => handler end.

(** ** Property access

    The provider reads own data properties of parsed JSON only, under
    names that no prototype defines ([data], [items], [id], [urlList],
    ...): on an object the read is a lookup, on any other non-nullish
    value it gives [undefined]. *)

Definition prop (v : value) (name : string) : value :=
  match v with
  | VObj o => default VUndef (o !! js name)
  | _ => VUndef
  end.

(** [v.name] throws a [TypeError] when [v] is [undefined] or [null]. *)
Definition get (v : value) (name : string) : result value :=
  if nullish v then Throw TypeError else Ok (prop v name).

(** [v?.name] *)
Definition opt (v : value) (name : string) : value :=
  if nullish v then VUndef else prop v name.

(** The values a [for ... of] loop visits: the elements of an array, the
    code points of a string; anything else is not iterable. *)
Fixpoint code_points (s : jsstring) : list value :=
  match s with
  | [] => []
  | hi :: s' =>
    match s' with
    | lo :: s'' =>
      if ((55296 <=? hi) && (hi <=? 56319) && (56320 <=? lo) && (lo <=? 57343))%N
      then VStr [hi; lo] :: code_points s''
      else VStr [hi] :: code_points s'
    | [] => [VStr [hi]]
    end
  end.

Definition iterate (v : value) : result (list value) :=
  match v with
  | VArr l => Ok l
  | VStr s => Ok (code_points s)
  | _ => Throw TypeError
  end.

(** ** Regular expressions

    The fragment the provider uses: the empty pattern, the start anchor, literal code units,
    the classes [\s], [\S] and [\d], concatenation, alternation, greedy
    repetition of a class, a greedy optional sub-pattern, and one
    capturing group.  Matching is the backtracking search of the
    language: [run] runs a pattern at index [i] on the remaining input [s]
    and hands the rest to the continuation [k]; a failed continuation
    makes the pattern try its next choice. *)

Inductive regex :=
| Eps
| Bol
| Lit (c : N)
| Cls (p : N → bool)
| Seq (r1 r2 : regex)
| Alt (r1 r2 : regex)
| Star (p : N → bool)
| Plus (p : N → bool)
| Opt (r : regex)
| Grp (r : regex).

Definition cont (R : Type) := nat → jsstring → option jsstring → option R.

Fixpoint star {R} (p : N → bool) (i : nat) (s : jsstring)
    (c : option jsstring) (k : cont R) : option R :=
  match s with
  | x :: s' =>
    if p x then
      match star p (S i) s' c k with
      | Some r => Some r
      | None => k i s c
      end
    else k i s c
  | [] => k i s c
  end.

Fixpoint run {R} (r : regex) (i : nat) (s : jsstring)
    (c : option jsstring) (k : cont R) : option R :=
  match r with
  | Eps => k i s c
  | Bol => if (i =? 0)%nat then k i s c else None
  | Lit a =>
    match s with
    | x :: s' => if (canon x =? canon a)%N then k (S i) s' c else None
    | [] => None
    end
  | Cls p =>
    match s with
    | x :: s' => if p x then k (S i) s' c else None
    | [] => None
    end
  | Seq r1 r2 => run r1 i s c (λ i' s' c', run r2 i' s' c' k)
  | Alt r1 r2 =>
    match run r1 i s c k with
    | Some x => Some x
    | None => run r2 i s c k
    end
  | Star p => star p i s c k
  | Plus p =>
    match s with
    | x :: s' => if p x then star p (S i) s' c k else None
    | [] => None
    end
  | Opt r1 =>
    match run r1 i s c k with
    | Some x => Some x
    | None => k i s c
    end
  | Grp r1 => run r1 i s c (λ i' s' _, k i' s' (Some (take (i' - i) s)))
  end.

(** A match: where it starts, where it ends, what group 1 captured. *)
Record rmatch := { m_start : nat; m_end : nat; m_group : option jsstring }.

(** [RegExp.prototype.exec] without the global flag: the first index at
    which the pattern matches. *)
Fixpoint exec_from (r : regex) (i : nat) (s : jsstring) : option rmatch :=
  match run r i s None (λ i' _ c, Some {| m_start := i; m_end := i'; m_group := c |}) with
  | Some x => Some x
  | None =>
    match s with
    | [] => None
    | _ :: s' => exec_from r (S i) s'
    end
  end.

Definition exec (r : regex) (s : jsstring) : option rmatch := exec_from r 0 s.

(** [s.replace(r, by)] for a pattern without the global flag and a
    replacement without [$] patterns. *)
Definition replace (r : regex) (s by_ : jsstring) : jsstring :=
  match exec r s with
  | Some x => take (m_start x) s ++ by_ ++ drop (m_end x) s
  | None => s
  end.

(** The literal text of a pattern. *)
Fixpoint lits (s : string) : regex :=
  match s with
  | EmptyString => Eps
  | String a s' => Seq (Lit (Ascii.N_of_ascii a)) (lits s')
  end.

(** [/^Vol\.\s*\S+\s+/i] *)
Definition re_volume : regex :=
  Seq Bol (Seq (lits "Vol.") (Seq (Star is_space) (Seq (Plus is_nonspace) (Plus is_space)))).

(** [/^Chapter\s+Bonus/i] *)
Definition re_bonus : regex :=
  Seq Bol (Seq (lits "Chapter") (Seq (Plus is_space) (lits "Bonus"))).

(** [/(?:Ch\.|Chapter)\s*(\d+(?:\.\d+)?)/i] *)
Definition re_chapter : regex :=
  Seq (Alt (lits "Ch.") (lits "Chapter"))
      (Seq (Star is_space)
           (Grp (Seq (Plus is_digit) (Opt (Seq (Lit 46) (Plus is_digit)))))).

(** ** The provider *)

Definition baseUrl : jsstring := js "https://mangapark.io".

Definition apiUrl : jsstring := baseUrl ++ js "/apo/".

Definition DEFAULT_HEADERS : list (jsstring * jsstring) :=
  [(js "Content-Type", js "application/json"); (js "Referer", baseUrl)].

(** [buildUrl(path)].  The parameter is declared a string, but the
    argument comes from the response: a truthy value that is not a string
    has no [startsWith] method and the call throws. *)
Definition buildUrl (path : value) : result jsstring :=
  if negb (truthy path) then Ok []
  else
    match path with
    | VStr p =>
      if starts_with (js "http") p then Ok p
      else if starts_with (js "/") p then Ok (baseUrl ++ p)
      else Ok p
    | _ => Throw TypeError
    end.

(** [parseChapterNumber(dname)]; a truthy value that is not a string has
    no [replace] method. *)
Definition parseChapterNumber (dname : value) : result jsstring :=
  if negb (truthy dname) then Ok []
  else
    match dname with
    | VStr d =>
      let cleaned := replace re_volume d [] in
      if exec re_bonus cleaned is Some _ then Ok (js "Chapter Bonus")
      else
        match exec re_chapter cleaned with
        | Some {| m_group := Some g |} =>
          if negb (is_empty g) then
            let parsed := parseFloat g in
            Ok (toString parsed)
          else Ok d
        | _ => Ok d
        end
    | _ => Throw TypeError
    end.

(** The three fixed queries; their text plays no part in what follows. *)
Inductive gql_query := PAGES_QUERY | CHAPTERS_QUERY | SEARCH_QUERY.

(** The one request an operation sends: [fetch(apiUrl, { method, headers,
    body: JSON.stringify({ query, variables }) })]. *)
Record request := {
  req_url : jsstring;
  req_method : jsstring;
  req_headers : list (jsstring * jsstring);
  req_query : gql_query;
  req_variables : value;
}.

(** What the transport does with a request: the promise is rejected, or a
    response arrives with a status and a body that parses as JSON or does
    not. *)
Inductive fetch_outcome :=
| Rejected
| Responded (status : Z) (body : option value).

Module SearchResult.
Record t := {
  id : value;
  title : value;
  synonyms : value;
  image : value;
  year : value;
}.
End SearchResult.

Module ChapterDetails.
Record t := {
  id : value;
  url : jsstring;
  title : value;
  chapter : jsstring;
  index : nat;
  language : value;
  scanlator : value;
  updatedAt : value;
}.
End ChapterDetails.

Module ChapterPage.
Record t := {
  url : value;
  index : nat;
  headers : list (jsstring * jsstring);
}.
End ChapterPage.

Section Provider.

(** The transport, and [new Date(timestamp * 1000).toISOString()], which
    throws a [RangeError] when the time value is not a valid date. *)
Variable fetch : request → fetch_outcome.
Variable toISOString : value → result jsstring.

Definition graphqlRequest (query : gql_query) (variables : value) : result value :=
  match fetch {| req_url := apiUrl; req_method := js "POST";
                 req_headers := DEFAULT_HEADERS;
                 req_query := query; req_variables := variables |} with
  | Rejected => Throw NetworkError
  | Responded status body =>
    if negb ((200 <=? status) && (status <=? 299)) then Throw (HttpError status)
    else
      match body with
      | Some json => Ok json
      | None => Throw SyntaxError
      end
  end.

(** [result?.data?.get_searchComic?.items || []] *)
Definition search_items (result : value) : value :=
  or_else (opt (opt (opt result "data") "get_searchComic") "items") (VArr []).

(** The entry [search] pushes for an item whose [data] is truthy. *)
Definition search_entry (data : value) : result SearchResult.t :=
  built ← buildUrl (or_else (prop data "urlCoverOri") (VStr []));
  Ok {| SearchResult.id := prop data "id";
        SearchResult.title := or_else (prop data "name") (VStr (js "Unknown"));
        SearchResult.synonyms := or_else (prop data "altNames") VUndef;
        SearchResult.image := or_else (VStr built) VUndef;
        SearchResult.year := VUndef |}.

(** The loop of [search], with [results] the array built so far. *)
Fixpoint search_loop (items : list value) (results : list SearchResult.t)
    : result (list SearchResult.t) :=
  match items with
  | [] => Ok results
  | item :: rest =>
    data ← get item "data";
    if negb (truthy data) then search_loop rest results
    else
      entry ← search_entry data;
      search_loop rest (results ++ [entry])
  end.

Definition search (opts : value) : list SearchResult.t :=
  try_catch
    (query ← get opts "query";
     result ← graphqlRequest SEARCH_QUERY
       (VObj {[ js "select" :=
                VObj (list_to_map [(js "page", VNum (number_of_Z 1));
                                   (js "size", VNum (number_of_Z 24));
                                   (js "word", or_else query VNull)]) ]});
     items ← iterate (search_items result);
     search_loop items [])
    [].

(** [result?.data?.get_comicChapterList || []] *)
Definition chapter_list (result : value) : value :=
  or_else (opt (opt result "data") "get_comicChapterList") (VArr []).

(** [data.dateModify || data.dateCreate] *)
Definition timestamp_of (data : value) : value :=
  or_else (prop data "dateModify") (prop data "dateCreate").

(** The entry [findChapters] pushes for a record whose [data] is truthy,
    [index] being the length of the array built so far. *)
Definition chapter_entry (data : value) (index : nat) : result ChapterDetails.t :=
  let timestamp := timestamp_of data in
  updatedAt ← (if truthy timestamp
               then iso ← toISOString timestamp; Ok (VStr iso)
               else Ok VUndef);
  let scanlator :=
    or_else (or_else (opt (opt (prop data "userNode") "data") "name")
                     (prop data "srcTitle")) VUndef in
  url ← buildUrl (or_else (prop data "urlPath") (VStr []));
  chapter ← parseChapterNumber (prop data "dname");
  Ok {| ChapterDetails.id := prop data "id";
        ChapterDetails.url := url;
        ChapterDetails.title := prop data "title";
        ChapterDetails.chapter := chapter;
        ChapterDetails.index := index;
        ChapterDetails.language := VUndef;
        ChapterDetails.scanlator := scanlator;
        ChapterDetails.updatedAt := updatedAt |}.

(** The loop of [findChapters]. *)
Fixpoint chapters_loop (chapterList : list value) (chapters : list ChapterDetails.t)
    : result (list ChapterDetails.t) :=
  match chapterList with
  | [] => Ok chapters
  | chapterData :: rest =>
    data ← get chapterData "data";
    if negb (truthy data) then chapters_loop rest chapters
    else
      entry ← chapter_entry data (length chapters);
      chapters_loop rest (chapters ++ [entry])
  end.

Definition findChapters (mangaId : value) : list ChapterDetails.t :=
  try_catch
    (result ← graphqlRequest CHAPTERS_QUERY (VObj {[ js "id" := mangaId ]});
     chapterList ← iterate (chapter_list result);
     chapters_loop chapterList [])
    [].

(** [result?.data?.get_chapterNode?.data?.imageFile?.urlList || []] *)
Definition url_list (result : value) : value :=
  or_else (opt (opt (opt (opt (opt result "data") "get_chapterNode") "data")
                    "imageFile") "urlList") (VArr []).

(** [urlList.map((url, index) => ...)]: only an array has a [map]
    method. *)
Definition map_pages (urlList : value) : result (list ChapterPage.t) :=
  match urlList with
  | VArr l =>
    Ok (imap (λ index url, {| ChapterPage.url := url;
                              ChapterPage.index := index;
                              ChapterPage.headers := DEFAULT_HEADERS |}) l)
  | _ => Throw TypeError
  end.

Definition findChapterPages (chapterId : value) : list ChapterPage.t :=
  try_catch
    (result ← graphqlRequest PAGES_QUERY (VObj {[ js "id" := chapterId ]});
     map_pages (url_list result))
    [].

End Provider.

(** ** More of the language

    What the other revisions of the provider use besides: subtraction of
    Numbers, the conversion of a value to a string, and the sort of an
    array. *)

(** The integer (-1)^neg * m * 2^(e - e0), for e0 <= e. *)
Definition aligned (neg : bool) (m e e0 : Z) : Z :=
  (if neg then - m else m) * 2 ^ (e - e0).

(** [x - y]: the exact difference, rounded to nearest.  A difference that
    is exactly zero is +0, but for (-0) - (+0). *)
Definition number_sub (x y : number) : number :=
  match x, y with
  | NaN, _ | _, NaN => NaN
  | Infinity a, Infinity b => if Bool.eqb a b then NaN else Infinity a
  | Infinity a, Finite _ _ _ => Infinity a
  | Finite _ _ _, Infinity b => Infinity (negb b)
  | Finite n1 m1 e1, Finite n2 m2 e2 =>
    let e0 := Z.min e1 e2 in
    let d := aligned n1 m1 e1 e0 - aligned n2 m2 e2 e0 in
    if d =? 0 then Finite (n1 && negb n2) 0 0
    else
      let '(a, b) := scale2 (Z.abs d) 1 (- e0) in
      match to_double a b with
      | Finite _ m e => Finite (d <? 0) m e
      | Infinity _ => Infinity (d <? 0)
      | NaN => NaN
      end
  end.

(** [v > 0] for the result [v] of a comparison function; [NaN] counts as
    0. *)
Definition is_positive (v : number) : bool :=
  match v with
  | Finite false m _ => 0 <? m
  | Infinity false => true
  | _ => false
  end.

Fixpoint insert_by {A} (gt : A → A → bool) (x : A) (l : list A) : list A :=
  match l with
  | [] => [x]
  | y :: l' => if gt x y then y :: insert_by gt x l' else x :: l
  end.

(** [array.sort(comparefn)].  The sort of the language is stable and
    moves an element behind another only when the comparison of the two is
    positive; which comparisons are made is left to the implementation.
    Insertion from the right is one such procedure, and for a consistent
    comparison function every one of them gives the same array. *)
Definition array_sort {A} (comparefn : A → A → number) (l : list A) : list A :=
  foldr (insert_by (λ a b, is_positive (comparefn a b))) [] l.

(** ToString of a parsed JSON value, as a template literal applies it.
    An array is joined with commas, [null] elements giving nothing
    ([Array.prototype.join]); an object gives [[object Object]], unless it
    has an own property [toString]: that one is not callable, [valueOf]
    gives no primitive either, and the conversion throws. *)
Fixpoint to_string (v : value) : result jsstring :=
  match v with
  | VUndef => Ok (js "undefined")
  | VNull => Ok (js "null")
  | VBool b => Ok (if b then js "true" else js "false")
  | VNum x => Ok (toString x)
  | VStr s => Ok s
  | VArr l =>
    (fix join (l : list value) : result jsstring :=
       match l with
       | [] => Ok []
       | x :: l' =>
         next ← (if nullish x then Ok [] else to_string x);
         match l' with
         | [] => Ok next
         | _ :: _ => rest ← join l'; Ok (next ++ js "," ++ rest)
         end
       end) l
  | VObj o =>
    if o !! js "toString" is Some _ then Throw TypeError
    else Ok (js "[object Object]")
  end.

(** [v?.match(re)] for a pattern without the global flag: nothing for
    [undefined] and [null], the first match of a string; any other value
    has no [match] method. *)
Definition opt_match (re : regex) (v : value) : result (option rmatch) :=
  if nullish v then Ok None
  else
    match v with
    | VStr s => Ok (exec re s)
    | _ => Throw TypeError
    end.

(** [/(\d+(?:\.\d+)?)/] *)
Definition re_number : regex :=
  Grp (Seq (Plus is_digit) (Opt (Seq (Lit 46) (Plus is_digit)))).

(** [/^[a-z]/i] *)
Definition is_letter (c : N) : bool := ((65 <=? canon c) && (canon c <=? 90))%N.

Definition re_letter : regex := Seq Bol (Cls is_letter).

(** ** The settings

    [getSettings()] is the same in every revision. *)

Record Settings := {
  supportsMultiLanguage : bool;
  supportsMultiScanlator : bool;
}.

Definition getSettings : Settings :=
  {| supportsMultiLanguage := true; supportsMultiScanlator := true |}.

(** ** The revision without [parseChapterNumber]

    It differs from the provider above in [findChapters], which passes the
    display name on as the chapter, and has a helper that nothing
    calls. *)

(** [extractChapterNumber(displayName)] *)
Definition extractChapterNumber (displayName : value) : result jsstring :=
  match_ ← opt_match re_number displayName;
  Ok (match match_ with
      | Some {| m_group := Some g |} => if negb (is_empty g) then g else js "0"
      | _ => js "0"
      end).

Module Old.

Module ChapterDetails.
Record t := {
  id : value;
  url : jsstring;
  title : value;
  chapter : value;
  index : nat;
  language : value;
  scanlator : value;
  updatedAt : value;
}.
End ChapterDetails.

Section Provider.

Variable fetch : request → fetch_outcome.
Variable toISOString : value → result jsstring.

Definition chapter_entry (data : value) (index : nat) : result ChapterDetails.t :=
  let timestamp := timestamp_of data in
  updatedAt ← (if truthy timestamp
               then iso ← toISOString timestamp; Ok (VStr iso)
               else Ok VUndef);
  let scanlator :=
    or_else (or_else (opt (opt (prop data "userNode") "data") "name")
                     (prop data "srcTitle")) VUndef in
  url ← buildUrl (or_else (prop data "urlPath") (VStr []));
  Ok {| ChapterDetails.id := prop data "id";
        ChapterDetails.url := url;
        ChapterDetails.title := prop data "title";
        ChapterDetails.chapter := prop data "dname";
        ChapterDetails.index := index;
        ChapterDetails.language := VUndef;
        ChapterDetails.scanlator := scanlator;
        ChapterDetails.updatedAt := updatedAt |}.

Fixpoint chapters_loop (chapterList : list value) (chapters : list ChapterDetails.t)
    : result (list ChapterDetails.t) :=
  match chapterList with
  | [] => Ok chapters
  | chapterData :: rest =>
    data ← get chapterData "data";
    if negb (truthy data) then chapters_loop rest chapters
    else
      entry ← chapter_entry data (length chapters);
      chapters_loop rest (chapters ++ [entry])
  end.

Definition findChapters (mangaId : value) : list ChapterDetails.t :=
  try_catch
    (result ← graphqlRequest fetch CHAPTERS_QUERY (VObj {[ js "id" := mangaId ]});
     chapterList ← iterate (chapter_list result);
     chapters_loop chapterList [])
    [].

End Provider.

End Old.

(** ** The earlier revision

    The first revision of the provider built the identifiers itself: the
    identifier of a manga is the last segment of its path, the one of a
    chapter carries the path of the chapter in front of the identifier of
    the server, and the operations take such identifiers apart again.  Its
    [findChapters] sorts the chapters by number.  The arguments of
    [findChapters] and [findChapterPages] are strings, as declared: the
    operations call string methods on them. *)

Module Earlier.

(** [s.includes(c)], for one code unit [c]. *)
Definition includes (c : N) (s : jsstring) : bool := existsb (N.eqb c) s.

(** [s.split(c)], for a separator [c] of one code unit: the pieces
    between the occurrences of [c]; the empty string has one piece. *)
Fixpoint split (c : N) (s : jsstring) : list jsstring :=
  match s with
  | [] => [[]]
  | x :: s' =>
    if (x =? c)%N then [] :: split c s'
    else
      match split c s' with
      | piece :: pieces => (x :: piece) :: pieces
      | [] => [[x]]
      end
  end.

(** [s.split('/').filter(s => s.length > 0)] *)
Definition segments (s : jsstring) : list jsstring :=
  List.filter (λ piece, (0 <? length piece)%nat) (split 47 s).

(** [a[i]], which is [undefined] outside the array. *)
Definition element (a : list jsstring) (i : Z) : value :=
  if i <? 0 then VUndef else from_option VStr VUndef (a !! Z.to_nat i).

Definition USER_AGENT : jsstring :=
  js "Mozilla/5.0 (Windows NT 10.0; Win64; x64) AppleWebKit/537.36".

Definition REQUEST_HEADERS : list (jsstring * jsstring) :=
  [(js "Content-Type", js "application/json"); (js "Referer", baseUrl);
   (js "User-Agent", USER_AGENT)].

Definition PAGE_HEADERS : list (jsstring * jsstring) :=
  [(js "Referer", baseUrl); (js "User-Agent", USER_AGENT)].

Inductive gql_query := PAGES_QUERY | CHAPTERS_QUERY | DETAILS_QUERY | SEARCH_QUERY.

Record request := {
  req_url : jsstring;
  req_method : jsstring;
  req_headers : list (jsstring * jsstring);
  req_query : gql_query;
  req_variables : value;
}.

Module SearchResult.
Record t := {
  id : value;
  title : value;
  image : value;
  year : value;
}.
End SearchResult.

(** [chapter.index = idx] *)
Definition set_index (idx : nat) (chapter : ChapterDetails.t) : ChapterDetails.t :=
  {| ChapterDetails.id := ChapterDetails.id chapter;
     ChapterDetails.url := ChapterDetails.url chapter;
     ChapterDetails.title := ChapterDetails.title chapter;
     ChapterDetails.chapter := ChapterDetails.chapter chapter;
     ChapterDetails.index := idx;
     ChapterDetails.language := ChapterDetails.language chapter;
     ChapterDetails.scanlator := ChapterDetails.scanlator chapter;
     ChapterDetails.updatedAt := ChapterDetails.updatedAt chapter |}.

(** The comparison function of the sort:
    [parseFloat(a.chapter) - parseFloat(b.chapter)]. *)
Definition by_chapter (a b : ChapterDetails.t) : number :=
  number_sub (parseFloat (ChapterDetails.chapter a))
             (parseFloat (ChapterDetails.chapter b)).

Section Provider.

(** The transport, [new Date(timestamp * 1000).toISOString()], and
    [new URL(s).pathname], which throws a [TypeError] when [s] is not a
    valid URL. *)
Variable fetch : request → fetch_outcome.
Variable toISOString : value → result jsstring.
Variable pathname : jsstring → result jsstring.

Definition graphqlRequest (query : gql_query) (variables : value) : result value :=
  match fetch {| req_url := js "https://mangapark.io/apo/"; req_method := js "POST";
                 req_headers := REQUEST_HEADERS;
                 req_query := query; req_variables := variables |} with
  | Rejected => Throw NetworkError
  | Responded status body =>
    if negb ((200 <=? status) && (status <=? 299)) then Throw (HttpError status)
    else
      match body with
      | Some json => Ok json
      | None => Throw SyntaxError
      end
  end.

(** The identifier [search] gives an entry: the last segment of
    [data.urlPath] when there is one, [data.id] otherwise.  A truthy path
    that is not a string has no [split] method. *)
Definition search_id (data : value) : result value :=
  let mangaId := prop data "id" in
  if truthy (prop data "urlPath") then
    match prop data "urlPath" with
    | VStr urlPath =>
      let segments := segments urlPath in
      if (0 <? length segments)%nat
      then Ok (element segments (Z.of_nat (length segments) - 1))
      else Ok mangaId
    | _ => Throw TypeError
    end
  else Ok mangaId.

(** The image of an entry of [search]. *)
Definition cover_image (data : value) : result value :=
  match or_else (prop data "urlCoverOri") (VStr []) with
  | VStr imageUrl =>
    if starts_with (js "http") imageUrl then Ok (VStr imageUrl)
    else if starts_with (js "/") imageUrl then Ok (VStr (baseUrl ++ imageUrl))
    else Ok VUndef
  | _ => Throw TypeError
  end.

Definition search_entry (data : value) : result SearchResult.t :=
  mangaId ← search_id data;
  image ← cover_image data;
  Ok {| SearchResult.id := mangaId;
        SearchResult.title := or_else (prop data "name") (VStr (js "Unknown"));
        SearchResult.image := image;
        SearchResult.year := VUndef |}.

Fixpoint search_loop (items : list value) (results : list SearchResult.t)
    : result (list SearchResult.t) :=
  match items with
  | [] => Ok results
  | item :: rest =>
    data ← get item "data";
    if negb (truthy data) then search_loop rest results
    else
      entry ← search_entry data;
      search_loop rest (results ++ [entry])
  end.

Definition search (opts : value) : list SearchResult.t :=
  try_catch
    (query ← get opts "query";
     result ← graphqlRequest SEARCH_QUERY
       (VObj {[ js "select" :=
                VObj (list_to_map [(js "page", VNum (number_of_Z 1));
                                   (js "size", VNum (number_of_Z 24));
                                   (js "word", or_else query VNull)]) ]});
     items ← iterate (search_items result);
     search_loop items [])
    [].

(** The identifier [findChapters] asks the server for: the last segment
    of [mangaId] when it has a [/], and of that what comes before the
    first [#]. *)
Definition manga_id (mangaId : jsstring) : result value :=
  let id :=
    if includes 47 mangaId then
      let segments := segments mangaId in
      element segments (Z.of_nat (length segments) - 1)
    else VStr mangaId in
  match id with
  | VStr s => if includes 35 s then Ok (element (split 35 s) 0) else Ok id
  | _ => Throw TypeError
  end.

(** The chapter number of a display name: the first number in it, "0"
    when it has none. *)
Definition chapter_number (dname : value) : result jsstring :=
  match_ ← opt_match re_number dname;
  match match_ with
  | Some {| m_group := Some g |} => if negb (is_empty g) then Ok g else Ok (js "0")
  | _ => Ok (js "0")
  end.

Definition chapter_entry (data : value) (index : nat) : result ChapterDetails.t :=
  chapterNum ← chapter_number (prop data "dname");
  let timestamp := timestamp_of data in
  updatedAt ← (if truthy timestamp
               then iso ← toISOString timestamp; Ok (VStr iso)
               else Ok VUndef);
  match or_else (prop data "urlPath") (VStr []) with
  | VStr urlPath =>
    let fullUrl :=
      if starts_with (js "http") urlPath then urlPath else baseUrl ++ urlPath in
    id ← to_string (prop data "id");
    let chapterId := urlPath ++ js "#i" ++ id in
    let scanlator :=
      or_else (or_else (opt (opt (prop data "userNode") "data") "name")
                       (prop data "srcTitle")) VUndef in
    Ok {| ChapterDetails.id := VStr chapterId;
          ChapterDetails.url := fullUrl;
          ChapterDetails.title :=
            or_else (or_else (prop data "title") (prop data "dname"))
                    (VStr (js "Chapter " ++ chapterNum));
          ChapterDetails.chapter := chapterNum;
          ChapterDetails.index := index;
          ChapterDetails.language := VUndef;
          ChapterDetails.scanlator := scanlator;
          ChapterDetails.updatedAt := updatedAt |}
  | _ => Throw TypeError
  end.

Fixpoint chapters_loop (chapterList : list value) (chapters : list ChapterDetails.t)
    : result (list ChapterDetails.t) :=
  match chapterList with
  | [] => Ok chapters
  | chapterData :: rest =>
    data ← get chapterData "data";
    if negb (truthy data) then chapters_loop rest chapters
    else
      entry ← chapter_entry data (length chapters);
      chapters_loop rest (chapters ++ [entry])
  end.

Definition findChapters (mangaId : jsstring) : list ChapterDetails.t :=
  try_catch
    (id ← manga_id mangaId;
     result ← graphqlRequest CHAPTERS_QUERY (VObj {[ js "id" := id ]});
     chapterList ← iterate (chapter_list result);
     chapters ← chapters_loop chapterList [];
     let sorted := array_sort by_chapter chapters in
     Ok (imap set_index sorted))
    [].

(** The identifier [findChapterPages] asks the server for: what follows
    the first [#], without a leading letter; the last segment of the path
    when there is no [#]. *)
Definition page_id (chapterId : jsstring) : result value :=
  id ← (if starts_with (js "http") chapterId then pathname chapterId
        else Ok chapterId);
  if includes 35 id then
    match element (split 35 id) 1 with
    | VStr hashPart => Ok (VStr (replace re_letter hashPart []))
    | _ => Throw TypeError
    end
  else
    let segments := segments id in
    Ok (element segments (Z.of_nat (length segments) - 1)).

Definition map_pages (urlList : value) : result (list ChapterPage.t) :=
  match urlList with
  | VArr l =>
    Ok (imap (λ index url, {| ChapterPage.url := url;
                              ChapterPage.index := index;
                              ChapterPage.headers := PAGE_HEADERS |}) l)
  | _ => Throw TypeError
  end.

Definition findChapterPages (chapterId : jsstring) : list ChapterPage.t :=
  try_catch
    (id ← page_id chapterId;
     result ← graphqlRequest PAGES_QUERY (VObj {[ js "id" := id ]});
     map_pages (url_list result))
    [].

End Provider.

End Earlier.

(** ** Vocabulary of the contract *)

(** A transport that answers every request with the same status and
    parsed body. *)
Definition respond (status : Z) (body : value) : request → fetch_outcome :=
  λ _, Responded status (Some body).

(** An object literal. *)
Definition obj (fields : list (string * value)) : value :=
  VObj (list_to_map (prod_map js (λ v, v) <$> fields)).

(** A transport outcome that makes [graphqlRequest] fail: no response, a
    status outside 200..299, or a body that is not JSON. *)
Definition failed (o : fetch_outcome) : bool :=
  match o with
  | Rejected => true
  | Responded status body =>
    negb ((200 <=? status) && (status <=? 299))
    || (if body is Some _ then false else true)
  end.

(** The [data] of a response item, when it has one. *)
Definition payload (item : value) : option value :=
  let data := prop item "data" in
  if truthy data then Some data else None.

(** The [data] objects of the items that have one, in the order of the
    response. *)
Definition payloads (items : list value) : list value := omap payload items.

(** A field that is a string, or is missing or otherwise falsy. *)
Definition stringy (v : value) : bool :=
  match v with
  | VStr _ => true
  | _ => negb (truthy v)
  end.

(** A search item the loop of [search] handles without raising: the item
    is not [null], and its cover field, when the item has data, is
    [stringy]. *)
Definition search_item_ok (item : value) : bool :=
  negb (nullish item)
  && (let data := prop item "data" in
      negb (truthy data) || stringy (prop data "urlCoverOri")).

(** A chapter record the loop of [findChapters] handles without raising:
    the record is not [null], and when it has data, its time stamp is a
    valid date and its path and display name are [stringy]. *)
Definition chapter_record_ok (toISOString : value → result jsstring)
    (chapterData : value) : bool :=
  negb (nullish chapterData)
  && (let data := prop chapterData "data" in
      negb (truthy data)
      || ((if truthy (timestamp_of data)
           then (if toISOString (timestamp_of data) is Ok _ then true else false)
           else true)
          && stringy (prop data "urlPath")
          && stringy (prop data "dname"))).

(** A time stamp that is 0, or is not there. *)
Definition zero_or_absent (v : value) : Prop :=
  v = VUndef ∨ v = VNull ∨ ∃ neg e, v = VNum (Finite neg 0 e).

(** ** Sample responses *)

Definition sample_date : value → result jsstring :=
  λ _, Ok (js "2024-01-01T00:00:00.000Z").

(** A search response whose second item has no [data] and whose third
    item has a cover that is neither absolute nor rooted. *)
Definition sample_search_items : list value :=
  [obj [("data", obj [("id", VStr (js "123")); ("name", VStr (js "Foo"));
                      ("urlCoverOri", VStr (js "/c.jpg"))])];
   obj [];
   obj [("data", obj [("id", VStr (js "7")); ("urlCoverOri", VStr (js "c.jpg"))])]].

(** The entries [search] builds for the first and the third item. *)
Definition entry_foo : SearchResult.t :=
  {| SearchResult.id := VStr (js "123");
     SearchResult.title := VStr (js "Foo");
     SearchResult.synonyms := VUndef;
     SearchResult.image := VStr (js "https://mangapark.io/c.jpg");
     SearchResult.year := VUndef |}.

Definition entry_plain_cover : SearchResult.t :=
  {| SearchResult.id := VStr (js "7");
     SearchResult.title := VStr (js "Unknown");
     SearchResult.synonyms := VUndef;
     SearchResult.image := VStr (js "c.jpg");
     SearchResult.year := VUndef |}.

Definition search_body (items : list value) : value :=
  obj [("data", obj [("get_searchComic", obj [("items", VArr items)])])].

(** Chapter records: one with a display name and no title, one without
    [data], one with a title and a modification time of 0. *)
Definition record_untitled : value :=
  obj [("data", obj [("id", VStr (js "c1")); ("dname", VStr (js "Chapter 1"));
                     ("urlPath", VStr (js "/title/1/c1"))])].

Definition record_titled : value :=
  obj [("data", obj [("id", VStr (js "c2")); ("dname", VStr (js "Vol.02 Chapter 003"));
                     ("title", VStr (js "Second"));
                     ("dateModify", VNum (number_of_Z 0));
                     ("dateCreate", VNum (number_of_Z 1700000000))])].

Definition sample_records : list value :=
  [record_untitled; obj []; record_titled].

(** The entry [findChapters] builds for [record_titled] in
    [sample_records]. *)
Definition entry_titled : ChapterDetails.t :=
  {| ChapterDetails.id := VStr (js "c2");
     ChapterDetails.url := [];
     ChapterDetails.title := VStr (js "Second");
     ChapterDetails.chapter := js "3";
     ChapterDetails.index := 1;
     ChapterDetails.language := VUndef;
     ChapterDetails.scanlator := VUndef;
     ChapterDetails.updatedAt := VStr (js "2024-01-01T00:00:00.000Z") |}.

Definition chapters_body (records : list value) : value :=
  obj [("data", obj [("get_comicChapterList", VArr records)])].

Definition pages_body (urls : list value) : value :=
  obj [("data", obj [("get_chapterNode",
         obj [("data", obj [("imageFile", obj [("urlList", VArr urls)])])])])].

(** ** Display names *)

(** Equality of two texts up to the case of ASCII letters. *)
Definition ci_eq (a b : jsstring) : Prop := canon <$> a = canon <$> b.

(** [s] does not continue with a code unit of the class [p]. *)
Definition stops (p : N → bool) (s : jsstring) : bool :=
  match s with
  | x :: _ => negb (p x)
  | [] => true
  end.

(** A volume prefix: "Vol.", optional white space, a token without white
    space, and white space. *)
Definition volume_prefix (vol : jsstring) : Prop :=
  ∃ v ws0 tok ws1,
    vol = v ++ ws0 ++ tok ++ ws1
    ∧ ci_eq v (js "Vol.")
    ∧ forallb is_space ws0 = true
    ∧ tok ≠ [] ∧ forallb is_nonspace tok = true
    ∧ ws1 ≠ [] ∧ forallb is_space ws1 = true.

(** A text that begins with "Chapter", white space and "Bonus". *)
Definition bonus_form (s : jsstring) : Prop :=
  ∃ kw ws b rest,
    s = kw ++ ws ++ b ++ rest
    ∧ ci_eq kw (js "Chapter")
    ∧ ws ≠ [] ∧ forallb is_space ws = true
    ∧ ci_eq b (js "Bonus").

(** A text in which "Ch." or "Chapter", optional white space and a digit
    occur somewhere. *)
Definition has_chapter_number (s : jsstring) : Prop :=
  ∃ pre kw ws d rest,
    s = pre ++ kw ++ ws ++ d :: rest
    ∧ (ci_eq kw (js "Ch.") ∨ ci_eq kw (js "Chapter"))
    ∧ forallb is_space ws = true
    ∧ is_digit d = true.

(** The optional decimal part of a number: nothing, or a point and the
    digits [fd]. *)
Definition fraction (fd : jsstring) : jsstring :=
  if is_empty fd then [] else js "." ++ fd.

(** ** Decimal renderings *)

Fixpoint strip_leading_zeros (ds : jsstring) : jsstring :=
  match ds with
  | d :: ds' => if (d =? 48)%N then strip_leading_zeros ds' else ds
  | [] => []
  end.

Fixpoint strip_trailing_zeros (ds : jsstring) : jsstring :=
  match ds with
  | d :: ds' =>
    let rest := strip_trailing_zeros ds' in
    if is_empty rest && (d =? 48)%N then [] else d :: rest
  | [] => []
  end.

(** The canonical decimal rendering of the number written with the
    integer digits [ip] and the fractional digits [fd]: no leading zeros
    (a lone 0 for an integer part that is zero), no trailing fractional
    zeros, and no point without a fractional digit after it. *)
Definition canonical (ip fd : jsstring) : jsstring :=
  let i := strip_leading_zeros ip in
  let f := strip_trailing_zeros fd in
  (if is_empty i then js "0" else i) ++ (if is_empty f then [] else js "." ++ f).

(** The digits of the number from its first non-zero digit on, without
    the trailing zeros of the fraction. *)
Definition significant (ip fd : jsstring) : jsstring :=
  strip_leading_zeros (ip ++ strip_trailing_zeros fd).

(** How many zeros a digit string begins with. *)
Definition leading_zeros (ds : jsstring) : nat :=
  length ds - length (strip_leading_zeros ds).

(** ** Vocabulary of the further properties *)

(** *** Numerals *)

(** No code unit of [s] is a C or a V, in either case. *)
Definition keyword_free (s : jsstring) : Prop :=
  Forall (λ x, canon x ≠ 67%N ∧ canon x ≠ 86%N) s.

(** A decimal numeral: digits, and possibly a point and more digits. *)
Definition decimal (s : jsstring) : Prop :=
  ∃ ip fd, s = ip ++ fraction fd
    ∧ ip ≠ [] ∧ forallb is_digit ip = true ∧ forallb is_digit fd = true.

Definition no_digit (s : jsstring) : bool := forallb (λ x, negb (is_digit x)) s.

(** The numeral with the fractional digits [fd] ends before [rest]: no
    digit follows, and when the numeral has no fraction, no point with a
    digit after it either. *)
Definition numeral_ends (fd rest : jsstring) : bool :=
  stops is_digit rest
  && (negb (is_empty fd)
      || match rest with
         | 46%N :: d :: _ => negb (is_digit d)
         | _ => true
         end).

(** *** The order of Numbers *)

(** [x <= y] on Numbers, by their exact values; [NaN] is not below or
    above anything. *)
Definition number_leb (x y : number) : bool :=
  match x, y with
  | NaN, _ | _, NaN => false
  | Infinity true, _ => true
  | _, Infinity false => true
  | Infinity false, _ => false
  | _, Infinity true => false
  | Finite n1 m1 e1, Finite n2 m2 e2 =>
    let e0 := Z.min e1 e2 in
    aligned n1 m1 e1 e0 <=? aligned n2 m2 e2 e0
  end.

(** A Number that is not negative and not [NaN], with the exponent of a
    binary64 value. *)
Definition sortable (x : number) : Prop :=
  match x with
  | Finite false m e => 0 ≤ m ∧ -1074 ≤ e
  | Infinity false => True
  | _ => False
  end.

(** The place of a sortable Number in the order: its value in units of
    2^-1074, nothing for infinity. *)
Definition key (x : number) : option Z :=
  match x with
  | Finite _ m e => Some (m * 2 ^ (e + 1074))
  | _ => None
  end.

Definition key_le (a b : option Z) : Prop :=
  match a, b with
  | _, None => True
  | None, Some _ => False
  | Some u, Some v => u ≤ v
  end.

(** *** Records of the earlier revision *)

(** The path of a chapter record as the earlier [findChapters] reads it,
    and the text of its identifier; both empty where the record is
    malformed. *)
Definition chapter_path (data : value) : jsstring :=
  if or_else (prop data "urlPath") (VStr []) is VStr urlPath then urlPath else [].

Definition chapter_id_text (data : value) : jsstring :=
  if to_string (prop data "id") is Ok id then id else [].




(** The order of two entries by the Number of their chapter, the test
    the sort makes of them, and the entries whose chapter is a decimal
    numeral. *)
Definition chapter_le (a b : ChapterDetails.t) : Prop :=
  key_le (key (parseFloat (ChapterDetails.chapter a)))
         (key (parseFloat (ChapterDetails.chapter b))).

Definition chapter_gt (a b : ChapterDetails.t) : bool :=
  is_positive (Earlier.by_chapter a b).

Definition numbered (e : ChapterDetails.t) : Prop := decimal (ChapterDetails.chapter e).

(** The pages of the earlier revision for the URLs [urls]. *)
Definition earlier_pages (urls : list value) : list ChapterPage.t :=
  imap (λ index url, {| ChapterPage.url := url;
                        ChapterPage.index := index;
                        ChapterPage.headers := Earlier.PAGE_HEADERS |}) urls.

(** *** Entries of the revision without [parseChapterNumber] *)

(** An entry of the provider is the entry of the revision without
    [parseChapterNumber] with its chapter normalised. *)
Definition normalises (old : Old.ChapterDetails.t) (new : ChapterDetails.t) : Prop :=
  parseChapterNumber (Old.ChapterDetails.chapter old) = Ok (ChapterDetails.chapter new)
  ∧ Old.ChapterDetails.id old = ChapterDetails.id new
  ∧ Old.ChapterDetails.url old = ChapterDetails.url new
  ∧ Old.ChapterDetails.title old = ChapterDetails.title new
  ∧ Old.ChapterDetails.index old = ChapterDetails.index new
  ∧ Old.ChapterDetails.language old = ChapterDetails.language new
  ∧ Old.ChapterDetails.scanlator old = ChapterDetails.scanlator new
  ∧ Old.ChapterDetails.updatedAt old = ChapterDetails.updatedAt new.

(** *** Servers that look at the request *)

Definition gql_query_eqb (a b : gql_query) : bool :=
  match a, b with
  | PAGES_QUERY, PAGES_QUERY | CHAPTERS_QUERY, CHAPTERS_QUERY
  | SEARCH_QUERY, SEARCH_QUERY => true
  | _, _ => false
  end.

Definition number_eqb (x y : number) : bool :=
  match x, y with
  | NaN, NaN => true
  | Infinity a, Infinity b => Bool.eqb a b
  | Finite n1 m1 e1, Finite n2 m2 e2 => Bool.eqb n1 n2 && (m1 =? m2) && (e1 =? e2)
  | _, _ => false
  end.

(** The property is there and is the Number [z]. *)
Definition is_number (z : Z) (v : option value) : bool :=
  if v is Some (VNum x) then number_eqb x (number_of_Z z) else false.

(** The property is there and is the string [s], or [null] for no
    string. *)
Definition is_word (s : option jsstring) (v : option value) : bool :=
  match s, v with
  | Some s, Some (VStr s') => bool_decide (s' = s)
  | None, Some VNull => true
  | _, _ => false
  end.

(** The variables of a [search] request: page 1 of size 24 for the word
    [word]. *)
Definition selects (word : option jsstring) (variables : value) : bool :=
  match variables with
  | VObj o =>
    match o !! js "select" with
    | Some (VObj select) =>
      is_number 1 (select !! js "page") && is_number 24 (select !! js "size")
      && is_word word (select !! js "word")
    | _ => false
    end
  | _ => false
  end.

(** The variables of a request for the identifier [id]. *)
Definition identifies (id : jsstring) (variables : value) : bool :=
  match variables with
  | VObj o => is_word (Some id) (o !! js "id")
  | _ => false
  end.

(** A server at the endpoint of the provider that answers a POST with the
    fixed headers, the query [query] and variables that [accepts] takes,
    and rejects every other request. *)
Definition strict_server (query : gql_query) (accepts : value → bool) (body : value)
    : request → fetch_outcome :=
  λ req,
    if bool_decide (req_url req = js "https://mangapark.io/apo/")
       && bool_decide (req_method req = js "POST")
       && bool_decide (req_headers req
                       = [(js "Content-Type", js "application/json");
                          (js "Referer", js "https://mangapark.io")])
       && gql_query_eqb (req_query req) query
       && accepts (req_variables req)
    then Responded 200 (Some body)
    else Rejected.

(** The word [search] asks for: the query, when it is a string that is
    not empty. *)
Definition query_word (opts : value) : option jsstring :=
  match prop opts "query" with
  | VStr (c :: s) => Some (c :: s)
  | _ => None
  end.

(** A transport of the earlier revision that answers every request with
    the same status and body, and one that answers the request for the
    pages of the chapter [id] and no other. *)
Definition earlier_respond (status : Z) (body : value)
    : Earlier.request → fetch_outcome :=
  λ _, Responded status (Some body).

Definition pages_server (id : jsstring) (body : value) : Earlier.request → fetch_outcome :=
  λ req,
    match Earlier.req_query req, Earlier.req_variables req with
    | Earlier.PAGES_QUERY, VObj o =>
      match o !! js "id" with
      | Some (VStr s) => if bool_decide (s = id) then Responded 200 (Some body) else Rejected
      | _ => Rejected
      end
    | _, _ => Rejected
    end.

(** A [URL] constructor that takes no text for a URL. *)
Definition no_pathname : jsstring → result jsstring := λ _, Throw TypeError.

(** *** More sample responses *)

(** Records of the earlier revision, out of order. *)
Definition earlier_records : list value :=
  [obj [("data", obj [("id", VStr (js "a")); ("dname", VStr (js "Chapter 10"));
                      ("urlPath", VStr (js "/title/1/a"))])];
   obj [];
   obj [("data", obj [("id", VStr (js "b")); ("dname", VStr (js "Ch.2.5"));
                      ("urlPath", VStr (js "/title/1/b"))])]].

(** The entry the earlier [findChapters] builds for such a record. *)
Definition earlier_entry (id dname chapter : string) (index : nat) : ChapterDetails.t :=
  {| ChapterDetails.id := VStr (js "/title/1/" ++ js id ++ js "#i" ++ js id);
     ChapterDetails.url := js "https://mangapark.io/title/1/" ++ js id;
     ChapterDetails.title := VStr (js dname);
     ChapterDetails.chapter := js chapter;
     ChapterDetails.index := index;
     ChapterDetails.language := VUndef;
     ChapterDetails.scanlator := VUndef;
     ChapterDetails.updatedAt := VUndef |}.


(** A search response for the earlier revision: an item with a path and
    a cover that is neither absolute nor rooted; and its entry. *)
Definition earlier_items : list value :=
  [obj [("data", obj [("id", VStr (js "77")); ("name", VStr (js "Foo"));
                      ("urlPath", VStr (js "/title/123/"));
                      ("urlCoverOri", VStr (js "c.jpg"))])]].

Definition earlier_result : Earlier.SearchResult.t :=
  {| Earlier.SearchResult.id := VStr (js "123");
     Earlier.SearchResult.title := VStr (js "Foo");
     Earlier.SearchResult.image := VUndef;
     Earlier.SearchResult.year := VUndef |}.

(** A record with a display name that is a Number, and its entry in the
    revision without [parseChapterNumber]. *)
Definition record_numbered : value :=
  obj [("data", obj [("id", VStr (js "c9")); ("dname", VNum (number_of_Z 5))])].

Definition old_entry_numbered : Old.ChapterDetails.t :=
  {| Old.ChapterDetails.id := VStr (js "c9");
     Old.ChapterDetails.url := [];
     Old.ChapterDetails.title := VUndef;
     Old.ChapterDetails.chapter := VNum (number_of_Z 5);
     Old.ChapterDetails.index := 0;
     Old.ChapterDetails.language := VUndef;
     Old.ChapterDetails.scanlator := VUndef;
     Old.ChapterDetails.updatedAt := VUndef |}.

(** A record whose uploader has no data, and its entry. *)
Definition record_scanlated : value :=
  obj [("data", obj [("id", VStr (js "c3")); ("srcTitle", VStr (js "Group"));
                     ("userNode", obj [("data", VNull)])])].

Definition entry_scanlated : ChapterDetails.t :=
  {| ChapterDetails.id := VStr (js "c3");
     ChapterDetails.url := [];
     ChapterDetails.title := VUndef;
     ChapterDetails.chapter := [];
     ChapterDetails.index := 0;
     ChapterDetails.language := VUndef;
     ChapterDetails.scanlator := VStr (js "Group");
     ChapterDetails.updatedAt := VUndef |}.


(** ** Real values

    The values of the fractions, binary64 numbers and decimals that the
    conversions compute with, as real numbers. *)

(** b^e as a real number, for an exponent of either sign. *)
Definition bpow (b e : Z) : R := powerRZ (IZR b) e.

(** The fraction a/b as a real number. *)
Definition qval (a b : Z) : R := (IZR a / IZR b)%R.

(** [y] lies in the binade of exponent [e]: 2^52 <= y / 2^e < 2^53. *)
Definition in_binade (y : R) (e : Z) : Prop :=
  (bpow 2 (52 + e) <= y < bpow 2 (53 + e))%R.

(** The real number m * 2^e. *)
Definition F2R (m e : Z) : R := (IZR m * bpow 2 e)%R.

(** The mantissa and exponent [to_double] settles on before it looks for
    underflow to zero and overflow. *)
Definition rounded (a b : Z) : Z * Z :=
  let e := binade a b in
  let '(a', b') := scale2 a b e in
  let m := round_half_even a' b' in
  if m =? 2 ^ 53 then (2 ^ 52, e + 1) else (m, e).

(** The real number s * 10^d. *)
Definition D2R (s d : Z) : R := (IZR s * bpow 10 d)%R.

(** ** Tactics *)

(** Settle every comparison with a constant in the goal from the bounds at
    hand. *)
Ltac settle_comparisons :=
  repeat match goal with
  | |- context [(?a <=? ?b)%N] =>
    first [ replace (a <=? b)%N with true by (symmetry; apply N.leb_le; lia)
          | replace (a <=? b)%N with false by (symmetry; apply N.leb_gt; lia) ]
  | |- context [(?a =? ?b)%N] =>
    first [ replace (a =? b)%N with true by (symmetry; apply N.eqb_eq; lia)
          | replace (a =? b)%N with false by (symmetry; apply N.eqb_neq; lia) ]
  end.

(** * Properties *)

(** ** The monad of exceptions *)

Lemma bind_Ok {A B} (f : A → result B) (r : result A) (b : B) :
  r ≫= f = Ok b → ∃ a, r = Ok a ∧ f a = Ok b.
Proof. destruct r as [a|err]; simpl; [eauto | discriminate]. Qed.

Lemma starts_with_prefix (p s : jsstring) :
  starts_with p s = true ↔ p `prefix_of` s.
Proof.
  revert s. induction p as [|a p IH]; intros s; simpl.
  - split; [intros _; apply prefix_nil | done].
  - destruct s as [|b s].
    + split; [done | intros [k Hk]; discriminate].
    + rewrite andb_true_iff, IH, N.eqb_eq. split.
      * intros [-> Hp]. by apply prefix_cons.
      * intros [k Hk]. injection Hk as -> ->. split; [done | by exists k].
Qed.

Lemma starts_with_app (p s : jsstring) : starts_with p (p ++ s) = true.
Proof. apply starts_with_prefix. by exists s. Qed.

Lemma buildUrl_string (p : jsstring) :
  buildUrl (VStr p)
  = Ok (if is_empty p then []
        else if starts_with (js "http") p then p
        else if starts_with (js "/") p then baseUrl ++ p
        else p).
Proof.
  unfold buildUrl. destruct p as [|c p]; [done|].
  change (truthy (VStr (c :: p))) with true. cbv [negb is_empty].
  by repeat case_match.
Qed.

Lemma buildUrl_http (p : jsstring) :
  js "http" `prefix_of` p → buildUrl (VStr p) = Ok p.
Proof.
  intros Hp. rewrite buildUrl_string. apply starts_with_prefix in Hp as Hs.
  rewrite Hs. by destruct Hp as [k ->].
Qed.

Lemma buildUrl_rooted (p : jsstring) :
  js "/" `prefix_of` p → buildUrl (VStr p) = Ok (js "https://mangapark.io" ++ p).
Proof.
  intros Hp. rewrite buildUrl_string. apply starts_with_prefix in Hp as Hs.
  rewrite Hs. destruct Hp as [k ->].
  destruct (starts_with (js "http") _) eqn:Hh; [|done].
  apply starts_with_prefix in Hh as [k' Hk']. discriminate.
Qed.

Lemma buildUrl_other (p : jsstring) :
  p ≠ [] → ¬ js "http" `prefix_of` p → ¬ js "/" `prefix_of` p →
  buildUrl (VStr p) = Ok p.
Proof.
  intros Hne Hh Hs. rewrite buildUrl_string. destruct p as [|c p]; [done|].
  destruct (starts_with (js "http") _) eqn:Eh; [done|].
  destruct (starts_with (js "/") _) eqn:Es; [|done].
  by apply starts_with_prefix in Es.
Qed.

(** ** The network boundary *)

Section Boundary.

Variable fetch : request → fetch_outcome.
Variable toISOString : value → result jsstring.

Lemma graphqlRequest_failed query variables :
  (∀ req, failed (fetch req) = true) →
  ∃ err, graphqlRequest fetch query variables = Throw err.
Proof.
  intros Hf. unfold graphqlRequest.
  match goal with |- context [fetch ?r] => specialize (Hf r); destruct (fetch r) as [|st body] end.
  - eauto.
  - simpl in Hf. destruct (negb _); [eauto|].
    destruct body; [discriminate | eauto].
Qed.

Lemma graphqlRequest_ok status body query variables :
  (∀ req, fetch req = Responded status (Some body)) →
  200 ≤ status ≤ 299 →
  graphqlRequest fetch query variables = Ok body.
Proof.
  intros Hf [Hlo Hhi]. unfold graphqlRequest. rewrite Hf.
  apply Z.leb_le in Hlo, Hhi. by rewrite Hlo, Hhi.
Qed.

(** ** The loops *)

Lemma search_loop_app items results out :
  search_loop items results = Ok out →
  ∃ entries, out = results ++ entries
    ∧ Forall2 (λ data entry, search_entry data = Ok entry) (payloads items) entries.
Proof.
  revert results out. induction items as [|item rest IH]; intros results out; simpl.
  - intros [= <-]. exists []. by rewrite app_nil_r.
  - unfold get, payloads, payload. simpl. destruct (nullish item); [done|]. simpl.
    destruct (truthy (prop item "data")) eqn:Ht; simpl.
    + intros H. apply bind_Ok in H as (entry & Hentry & H).
      apply IH in H as (entries & -> & Hall).
      exists (entry :: entries). split; [by rewrite <- app_assoc | by constructor].
    + apply IH.
Qed.

Lemma search_loop_total items results :
  forallb search_item_ok items = true →
  ∃ out, search_loop items results = Ok out.
Proof.
  revert results. induction items as [|item rest IH]; intros results; simpl; [eauto|].
  rewrite andb_true_iff. intros [Hitem Hrest]. unfold search_item_ok in Hitem.
  apply andb_true_iff in Hitem as [Hnull Hdata]. unfold get.
  destruct (nullish item); [done|]. simpl in *.
  destruct (truthy (prop item "data")); simpl in *; [|by apply IH].
  unfold search_entry, buildUrl, or_else.
  destruct (prop (prop item "data") "urlCoverOri") as [| |[]|x|s|l|o] eqn:Hc;
    simpl in *; try done; try by apply IH.
  - destruct (number_is_falsy x); simpl in *; [by apply IH | done].
  - destruct s as [|c s]; simpl; [by apply IH|].
    repeat case_match; by apply IH.
Qed.

Lemma chapters_loop_app chapterList chapters out :
  chapters_loop toISOString chapterList chapters = Ok out →
  ∃ entries, out = chapters ++ entries
    ∧ length entries = length (payloads chapterList)
    ∧ ∀ i data, payloads chapterList !! i = Some data →
        ∃ entry, entries !! i = Some entry
          ∧ chapter_entry toISOString data (length chapters + i) = Ok entry.
Proof.
  revert chapters out. induction chapterList as [|record rest IH]; intros chapters out; simpl.
  - intros [= <-]. exists []. rewrite app_nil_r. split_and!; [done..|]. by intros i d [=].
  - unfold get, payloads, payload. simpl. destruct (nullish record); [done|]. simpl.
    destruct (truthy (prop record "data")) eqn:Ht; simpl.
    + intros H. apply bind_Ok in H as (entry & Hentry & H).
      apply IH in H as (entries & -> & Hlen & Hall).
      exists (entry :: entries). split_and!.
      * by rewrite <- app_assoc.
      * simpl. by rewrite Hlen.
      * intros [|i] d; simpl.
        -- intros [= <-]. exists entry. by rewrite Nat.add_0_r.
        -- intros Hd. apply Hall in Hd as (e & He & Hd). exists e. split; [done|].
           rewrite length_app in Hd. simpl in Hd.
           by replace (length chapters + S i)%nat with (length chapters + 1 + i)%nat by lia.
    + apply IH.
Qed.

Lemma chapter_entry_index data i entry :
  chapter_entry toISOString data i = Ok entry → ChapterDetails.index entry = i.
Proof.
  unfold chapter_entry. intros H.
  apply bind_Ok in H as (u & _ & H). apply bind_Ok in H as (url & _ & H).
  apply bind_Ok in H as (ch & _ & H). by injection H as <-.
Qed.

Lemma chapter_entry_fields data i entry :
  chapter_entry toISOString data i = Ok entry →
  ChapterDetails.id entry = prop data "id"
  ∧ ChapterDetails.title entry = prop data "title"
  ∧ (if truthy (timestamp_of data)
     then ∃ iso, toISOString (timestamp_of data) = Ok iso
                 ∧ ChapterDetails.updatedAt entry = VStr iso
     else ChapterDetails.updatedAt entry = VUndef).
Proof.
  unfold chapter_entry. intros H.
  apply bind_Ok in H as (u & Hu & H). apply bind_Ok in H as (url & _ & H).
  apply bind_Ok in H as (ch & _ & H). injection H as <-. simpl. split_and!; [done..|].
  destruct (truthy (timestamp_of data)).
  - apply bind_Ok in Hu as (iso & Hiso & [= <-]). eauto.
  - by injection Hu as <-.
Qed.

Lemma chapters_loop_index chapterList chapters out :
  (∀ i e, chapters !! i = Some e → ChapterDetails.index e = i) →
  chapters_loop toISOString chapterList chapters = Ok out →
  ∀ i e, out !! i = Some e → ChapterDetails.index e = i.
Proof.
  intros Hacc Hloop i e Hi.
  apply chapters_loop_app in Hloop as (entries & -> & Hlen & Hall).
  destruct (decide (i < length chapters)%nat) as [Hlt|Hge].
  - rewrite lookup_app_l in Hi by done. by apply Hacc.
  - rewrite lookup_app_r in Hi by lia.
    assert (is_Some (payloads chapterList !! (i - length chapters)%nat)) as [d Hd].
    { apply lookup_lt_is_Some. rewrite <- Hlen. by eapply lookup_lt_Some. }
    apply Hall in Hd as (e' & He' & Hd). rewrite Hi in He'. injection He' as <-.
    apply chapter_entry_index in Hd. lia.
Qed.

Lemma chapters_loop_total chapterList chapters :
  forallb (chapter_record_ok toISOString) chapterList = true →
  ∃ out, chapters_loop toISOString chapterList chapters = Ok out.
Proof.
  revert chapters. induction chapterList as [|record rest IH]; intros chapters; simpl; [eauto|].
  rewrite andb_true_iff. intros [Hrec Hrest]. unfold chapter_record_ok in Hrec.
  apply andb_true_iff in Hrec as [Hnull Hdata]. unfold get.
  destruct (nullish record); [done|]. simpl in *.
  destruct (truthy (prop record "data")); simpl in *; [|by apply IH].
  apply andb_true_iff in Hdata as [Hdata Hdname].
  apply andb_true_iff in Hdata as [Hdate Hpath].
  assert (∀ v, stringy v = true → ∃ s, buildUrl (or_else v (VStr [])) = Ok s) as Hbuild.
  { intros v Hv. unfold buildUrl, or_else.
    destruct v as [| |[]|x|s|l|o]; simpl in *; try done; eauto.
    - destruct (number_is_falsy x); simpl in *; [eauto | done].
    - destruct s; simpl; eauto. repeat case_match; eauto. }
  assert (∀ v, stringy v = true → ∃ s, parseChapterNumber v = Ok s) as Hparse.
  { intros v Hv. unfold parseChapterNumber.
    destruct v as [| |[]|x|s|l|o]; simpl in *; try done; eauto.
    - destruct (number_is_falsy x); simpl in *; [eauto | done].
    - destruct s; simpl; eauto. repeat case_match; eauto. }
  apply Hbuild in Hpath as [url Hurl]. apply Hparse in Hdname as [ch Hch].
  unfold chapter_entry. rewrite Hurl, Hch.
  destruct (truthy (timestamp_of (prop record "data"))); simpl.
  - destruct (toISOString _); [|done]. simpl. apply IH, Hrest.
  - apply IH, Hrest.
Qed.

(** The loops raise exactly on the records that are not well formed. *)
Lemma buildUrl_Ok_stringy v s :
  buildUrl (or_else v (VStr [])) = Ok s → stringy v = true.
Proof.
  unfold buildUrl, or_else, stringy.
  destruct v as [| |[]|x|t|l|o]; cbn [truthy]; try done.
  destruct (number_is_falsy x) eqn:Hx; cbn [negb truthy]; rewrite ?Hx; done.
Qed.

Lemma parseChapterNumber_Ok_stringy v s :
  parseChapterNumber v = Ok s → stringy v = true.
Proof.
  unfold parseChapterNumber, stringy.
  destruct v as [| |[]|x|t|l|o]; cbn [truthy]; try done.
  destruct (number_is_falsy x) eqn:Hx; cbn [negb truthy]; rewrite ?Hx; done.
Qed.

Lemma search_loop_Ok items results out :
  search_loop items results = Ok out → forallb search_item_ok items = true.
Proof.
  revert results. induction items as [|item rest IH]; intros results; [done|].
  cbn [search_loop forallb]. unfold get. intros Hloop.
  destruct (nullish item) eqn:Hitem; [done|]. cbn [mbind result_bind] in Hloop.
  apply andb_true_iff. unfold search_item_ok at 1. rewrite Hitem. cbn [negb andb].
  destruct (truthy (prop item "data")); cbn [negb orb] in *; [|by eauto].
  apply bind_Ok in Hloop as (entry & Hentry & Hrest). split; [|by eauto].
  unfold search_entry in Hentry. apply bind_Ok in Hentry as (built & Hbuilt & _).
  by eapply buildUrl_Ok_stringy.
Qed.

Lemma chapters_loop_Ok chapterList chapters out :
  chapters_loop toISOString chapterList chapters = Ok out →
  forallb (chapter_record_ok toISOString) chapterList = true.
Proof.
  revert chapters. induction chapterList as [|record rest IH]; intros chapters; [done|].
  cbn [chapters_loop forallb]. unfold get. intros Hloop.
  destruct (nullish record) eqn:Hrecord; [done|]. cbn [mbind result_bind] in Hloop.
  apply andb_true_iff. unfold chapter_record_ok at 1. rewrite Hrecord. cbn [negb andb].
  destruct (truthy (prop record "data")); cbn [negb orb] in *; [|by eauto].
  apply bind_Ok in Hloop as (entry & Hentry & Hrest). split; [|by eauto].
  unfold chapter_entry in Hentry.
  apply bind_Ok in Hentry as (updated & Hupdated & Hentry).
  apply bind_Ok in Hentry as (url & Hurl & Hentry).
  apply bind_Ok in Hentry as (chapter & Hchapter & _).
  rewrite (buildUrl_Ok_stringy _ _ Hurl), (parseChapterNumber_Ok_stringy _ _ Hchapter).
  rewrite !andb_true_r.
  destruct (truthy (timestamp_of (prop record "data"))); [|done].
  by destruct (toISOString _).
Qed.

End Boundary.

(** ** Regular expressions *)

Lemma digit_not_space x : is_digit x = true → is_space x = false.
Proof.
  unfold is_digit. intros [H1 H2]%andb_true_iff. apply N.leb_le in H1, H2.
  unfold is_space. by settle_comparisons.
Qed.

Lemma letter_not_space x : (65 ≤ canon x ≤ 90)%N → is_space x = false.
Proof.
  intros Hx. assert (65 ≤ x ≤ 122)%N as Hrange.
  { revert Hx. unfold canon.
    destruct (N.leb_spec 97 x), (N.leb_spec x 122); simpl; lia. }
  unfold is_space. by settle_comparisons.
Qed.

Section Matcher.

Context {R : Type}.
Implicit Types (k : cont R) (p : N → bool) (s a : jsstring).

(** A greedy repetition that runs to the end of [a] and whose
    continuation succeeds there. *)
Lemma star_greedy p a s i c k r :
  forallb p a = true → stops p s = true →
  k (i + length a)%nat s c = Some r →
  star p i (a ++ s) c k = Some r.
Proof.
  revert i. induction a as [|x a IH]; intros i Ha Hs Hk; simpl in *.
  - rewrite Nat.add_0_r in Hk. destruct s as [|y s]; [done|]. simpl in *.
    by destruct (p y).
  - apply andb_true_iff in Ha as [Hx Ha]. rewrite Hx.
    rewrite (IH (S i)); [done..|]. by rewrite Nat.add_succ_comm.
Qed.

Lemma plus_greedy p a s i c k r :
  a ≠ [] → forallb p a = true → stops p s = true →
  k (i + length a)%nat s c = Some r →
  run (Plus p) i (a ++ s) c k = Some r.
Proof.
  intros Hne Ha Hs Hk. destruct a as [|x a]; [done|]. simpl in *.
  apply andb_true_iff in Ha as [Hx Ha]. rewrite Hx.
  apply star_greedy; [done..|]. by rewrite Nat.add_succ_comm.
Qed.

(** Whatever a repetition hands to its continuation comes after a run of
    the class. *)
Lemma star_inv p s i c k r :
  star p i s c k = Some r →
  ∃ a s', s = a ++ s' ∧ forallb p a = true ∧ k (i + length a)%nat s' c = Some r.
Proof.
  revert i. induction s as [|x s IH]; intros i; simpl.
  - intros Hk. exists [], []. by rewrite Nat.add_0_r.
  - destruct (p x) eqn:Hx.
    + destruct (star p (S i) s c k) as [r'|] eqn:Hstar.
      * intros [= ->]. apply IH in Hstar as (a & s' & -> & Ha & Hk).
        exists (x :: a), s'. simpl. rewrite Hx, Ha.
        by rewrite <- Nat.add_succ_comm.
      * intros Hk. exists [], (x :: s). by rewrite Nat.add_0_r.
    + intros Hk. exists [], (x :: s). by rewrite Nat.add_0_r.
Qed.

Lemma plus_inv p s i c k r :
  run (Plus p) i s c k = Some r →
  ∃ a s', s = a ++ s' ∧ a ≠ [] ∧ forallb p a = true
          ∧ k (i + length a)%nat s' c = Some r.
Proof.
  simpl. destruct s as [|x s]; [done|]. destruct (p x) eqn:Hx; [|done].
  intros H. apply star_inv in H as (a & s' & -> & Ha & Hk).
  exists (x :: a), s'. simpl. rewrite Hx, Ha.
  by rewrite <- Nat.add_succ_comm.
Qed.

(** A literal matches exactly the texts equal to it up to case. *)
Lemma lits_match w kw s i c k :
  ci_eq kw (js w) →
  run (lits w) i (kw ++ s) c k = k (i + length kw)%nat s c.
Proof.
  unfold ci_eq. revert kw i. induction w as [|ch w IH]; intros kw i; simpl.
  - destruct kw; [|done]. intros _. by rewrite Nat.add_0_r.
  - destruct kw as [|x kw]; [done|]. simpl. intros [= Hx Hkw].
    rewrite Hx, N.eqb_refl, IH by done. by rewrite Nat.add_succ_comm.
Qed.

Lemma lits_inv w s i c k r :
  run (lits w) i s c k = Some r →
  ∃ kw s', s = kw ++ s' ∧ ci_eq kw (js w) ∧ k (i + length kw)%nat s' c = Some r.
Proof.
  unfold ci_eq. revert s i. induction w as [|ch w IH]; intros s i; simpl.
  - intros Hk. exists [], s. by rewrite Nat.add_0_r.
  - destruct s as [|x s]; [done|].
    destruct (N.eqb_spec (canon x) (canon (Ascii.N_of_ascii ch))) as [Hx|]; [|done].
    intros H. apply IH in H as (kw & s' & -> & Hkw & Hk).
    exists (x :: kw), s'. split_and!; [done | | by cbn [length]; rewrite Nat.add_succ_r].
    cbn [js]. by rewrite !fmap_cons, Hx, Hkw.
Qed.

(** A literal fails on a text whose first code unit differs from its
    first character, up to case. *)
Lemma lits_mismatch ch w x s i c k :
  canon x ≠ canon (Ascii.N_of_ascii ch) →
  run (lits (String ch w)) i (x :: s) c k = None.
Proof. simpl. by intros ->%N.eqb_neq. Qed.

End Matcher.

(** An anchored pattern matches at the start or not at all. *)
Lemma exec_from_anchored r i s :
  exec_from (Seq Bol r) (S i) s = None.
Proof. revert i. induction s as [|x s IH]; intros i; simpl; [done | apply IH]. Qed.

Lemma exec_anchored r s :
  exec (Seq Bol r) s
  = run r 0 s None (λ i' _ c, Some {| m_start := 0; m_end := i'; m_group := c |}).
Proof.
  unfold exec. destruct s as [|x s]; simpl.
  - by destruct (run r 0 [] None _).
  - destruct (run r 0 (x :: s) None _); [done|]. apply exec_from_anchored.
Qed.

(** A match starts somewhere in the text. *)
Lemma exec_from_inv r i s x :
  exec_from r i s = Some x →
  ∃ pre s', s = pre ++ s'
    ∧ run r (i + length pre) s' None
          (λ i' _ c, Some {| m_start := i + length pre; m_end := i'; m_group := c |})
      = Some x.
Proof.
  revert i. induction s as [|y s IH]; intros i; simpl.
  - destruct (run r i [] None _) eqn:Hrun; [|done]. intros [= ->].
    exists [], []. by rewrite Nat.add_0_r.
  - destruct (run r i (y :: s) None _) eqn:Hrun.
    + intros [= ->]. exists [], (y :: s). by rewrite Nat.add_0_r.
    + intros H. apply IH in H as (pre & s' & -> & H).
      exists (y :: pre), s'. simpl. by rewrite <- Nat.add_succ_comm.
Qed.

Lemma stops_cons_app p x a s : p x = false → stops p ((x :: a) ++ s) = true.
Proof. simpl. by intros ->. Qed.

Lemma stops_nonempty_app (p q : N → bool) a s :
  a ≠ [] → forallb q a = true → (∀ x, q x = true → p x = false) →
  stops p (a ++ s) = true.
Proof.
  intros Hne Ha Hpq. destruct a as [|x a]; [done|]. simpl in *.
  apply andb_true_iff in Ha as [Hx _]. by rewrite (Hpq x Hx).
Qed.

Lemma space_not_nonspace x : is_space x = true → is_nonspace x = false.
Proof. unfold is_nonspace. by intros ->. Qed.

Lemma nonspace_not_space x : is_nonspace x = true → is_space x = false.
Proof. unfold is_nonspace. by intros ->%negb_true_iff. Qed.

(** *** The volume prefix *)

Lemma exec_volume vol c :
  volume_prefix vol → stops is_space c = true →
  exec re_volume (vol ++ c)
  = Some {| m_start := 0; m_end := length vol; m_group := None |}.
Proof.
  intros (v & ws0 & tok & ws1 & -> & Hv & Hws0 & Htok & Hnsp & Hws1 & Hsp) Hc.
  unfold re_volume. rewrite exec_anchored.
  rewrite <- !app_assoc. cbn [run]. rewrite lits_match by done.
  apply star_greedy; [done | by eapply stops_nonempty_app, nonspace_not_space |].
  apply plus_greedy; [done.. | by eapply stops_nonempty_app, space_not_nonspace |].
  apply plus_greedy; [done..|].
  do 2 f_equal. rewrite !length_app. lia.
Qed.

Lemma replace_volume vol c :
  volume_prefix vol → stops is_space c = true →
  replace re_volume (vol ++ c) [] = c.
Proof.
  intros Hvol Hc. unfold replace. rewrite exec_volume by done. simpl.
  by rewrite drop_app_length.
Qed.

Lemma exec_volume_inv d x :
  exec re_volume d = Some x →
  ∃ vol rest, volume_prefix vol ∧ d = vol ++ rest.
Proof.
  unfold re_volume. rewrite exec_anchored. cbn [run]. intros H.
  apply lits_inv in H as (v & s1 & -> & Hv & H).
  apply star_inv in H as (ws0 & s2 & -> & Hws0 & H).
  apply plus_inv in H as (tok & s3 & -> & Htok & Hnsp & H).
  apply plus_inv in H as (ws1 & rest & -> & Hws1 & Hsp & H).
  exists (v ++ ws0 ++ tok ++ ws1), rest. split.
  - by exists v, ws0, tok, ws1.
  - by rewrite <- !app_assoc.
Qed.

Lemma replace_no_volume d :
  (∀ vol rest, volume_prefix vol → d ≠ vol ++ rest) →
  replace re_volume d [] = d.
Proof.
  intros Hno. unfold replace. destruct (exec re_volume d) as [x|] eqn:Hexec; [|done].
  apply exec_volume_inv in Hexec as (vol & rest & Hvol & ->).
  by destruct (Hno vol rest).
Qed.

(** *** The bonus chapter *)

Lemma exec_bonus c : bonus_form c → is_Some (exec re_bonus c).
Proof.
  intros (kw & ws & b & rest & -> & Hkw & Hws & Hsp & Hb).
  unfold re_bonus. rewrite exec_anchored. cbn [run]. rewrite lits_match by done.
  eexists. apply plus_greedy; [done.. | |].
  - destruct b as [|y b]; [done|]. injection Hb as Hy _. simpl.
    rewrite letter_not_space; [done|]. rewrite Hy. by vm_compute.
  - rewrite lits_match by done. reflexivity.
Qed.

Lemma exec_bonus_inv c x : exec re_bonus c = Some x → bonus_form c.
Proof.
  unfold re_bonus. rewrite exec_anchored. cbn [run]. intros H.
  apply lits_inv in H as (kw & s1 & -> & Hkw & H).
  apply (plus_inv is_space) in H as (ws & s2 & -> & Hws & Hsp & H).
  apply lits_inv in H as (b & rest & -> & Hb & H).
  by exists kw, ws, b, rest.
Qed.

(** *** The chapter number *)

Lemma exec_chapter_inv c x : exec re_chapter c = Some x → has_chapter_number c.
Proof.
  unfold exec. intros H. apply exec_from_inv in H as (pre & s & -> & H).
  unfold re_chapter in H. cbn [run] in H.
  assert (∃ kw s1, s = kw ++ s1
            ∧ (ci_eq kw (js "Ch.") ∨ ci_eq kw (js "Chapter"))
            ∧ ∃ r, star is_space (0 + length pre + length kw) s1 None
                 (λ i' s' c', run (Plus is_digit) i' s' c'
                    (λ i'' s'' c'', run (Opt (Seq (Lit 46) (Plus is_digit))) i'' s'' c''
                       (λ i3 _ _, Some {| m_start := 0 + length pre; m_end := i3;
                                          m_group := Some (take (i3 - i') s') |})))
                 = Some r)
    as (kw & s1 & -> & Hkw & r & Hstar).
  { match type of H with (match ?first with _ => _ end = _) => destruct first eqn:Hfirst end.
    - apply lits_inv in Hfirst as (kw & s1 & -> & Hkw & Hk). exists kw, s1. eauto.
    - apply lits_inv in H as (kw & s1 & -> & Hkw & Hk). exists kw, s1. eauto. }
  apply star_inv in Hstar as (ws & s2 & -> & Hws & Hplus).
  apply plus_inv in Hplus as (ds & rest & -> & Hne & Hds & _).
  destruct ds as [|d ds]; [done|]. simpl in Hds.
  apply andb_true_iff in Hds as [Hd _].
  exists pre, kw, ws, d, (ds ++ rest). by rewrite <- ?app_assoc.
Qed.

Lemma exec_from_here r i s x :
  run r i s None (λ i' _ c, Some {| m_start := i; m_end := i'; m_group := c |}) = Some x →
  exec_from r i s = Some x.
Proof. intros H. destruct s; simpl; by rewrite H. Qed.

Lemma stops_digit_fraction fd : stops is_digit (fraction fd) = true.
Proof. unfold fraction. by destruct fd. Qed.

(** The number after the keyword: digits and an optional decimal part that
    run to the end of the text are captured whole. *)
Lemma run_fraction {R} fd i (c : option jsstring) (k : cont R) r :
  fd ≠ [] → forallb is_digit fd = true →
  k (S i + length fd)%nat [] c = Some r →
  run (Opt (Seq (Lit 46) (Plus is_digit))) i (46%N :: fd) c k = Some r.
Proof.
  intros Hne Hfd Hk.
  assert (run (Seq (Lit 46) (Plus is_digit)) i (46%N :: fd) c k = Some r) as Hrun.
  { change (run (Seq (Lit 46) (Plus is_digit)) i (46%N :: fd) c k)
      with (run (Plus is_digit) (S i) fd c k).
    rewrite <- (app_nil_r fd). by apply plus_greedy. }
  change (run (Opt (Seq (Lit 46) (Plus is_digit))) i (46%N :: fd) c k)
    with (match run (Seq (Lit 46) (Plus is_digit)) i (46%N :: fd) c k with
          | Some x => Some x
          | None => k i (46%N :: fd) c
          end).
  by rewrite Hrun.
Qed.

Lemma run_number {R} ip fd i (c : option jsstring) (k : cont R) r :
  ip ≠ [] → forallb is_digit ip = true → forallb is_digit fd = true →
  k (i + length (ip ++ fraction fd))%nat [] (Some (ip ++ fraction fd)) = Some r →
  run (Grp (Seq (Plus is_digit) (Opt (Seq (Lit 46) (Plus is_digit)))))
      i (ip ++ fraction fd) c k
  = Some r.
Proof.
  intros Hne Hip Hfd Hk.
  change (run (Grp (Seq (Plus is_digit) (Opt (Seq (Lit 46) (Plus is_digit)))))
              i (ip ++ fraction fd) c k)
    with (run (Plus is_digit) i (ip ++ fraction fd) c
            (λ i' s' c', run (Opt (Seq (Lit 46) (Plus is_digit))) i' s' c'
               (λ i'' s'' _, k i'' s'' (Some (take (i'' - i) (ip ++ fraction fd)))))).
  apply plus_greedy; [done.. | apply stops_digit_fraction |]. cbv beta.
  assert (∀ j, (i + j - i)%nat = j) as Hsub by (intros; lia).
  unfold fraction in *. destruct fd as [|y fd]; cbn [is_empty] in *.
  - rewrite app_nil_r in *.
    change (run (Opt (Seq (Lit 46) (Plus is_digit))) (i + length ip) [] c ?K)
      with (K (i + length ip)%nat [] c).
    cbv beta. by rewrite Hsub, firstn_all.
  - change (js "." ++ y :: fd) with (46%N :: y :: fd) in *.
    apply run_fraction; [done..|].
    replace (S (i + length ip) + length (y :: fd))%nat
      with (i + length (ip ++ 46%N :: y :: fd))%nat
      by (rewrite length_app; simpl; lia).
    by rewrite Hsub, firstn_all.
Qed.

Lemma exec_chapter kw ws ip fd :
  ci_eq kw (js "Ch.") ∨ ci_eq kw (js "Chapter") →
  forallb is_space ws = true →
  ip ≠ [] → forallb is_digit ip = true → forallb is_digit fd = true →
  ∃ e, exec re_chapter (kw ++ ws ++ ip ++ fraction fd)
       = Some {| m_start := 0; m_end := e; m_group := Some (ip ++ fraction fd) |}.
Proof.
  intros Hkw Hws Hne Hip Hfd.
  set (number := Grp (Seq (Plus is_digit) (Opt (Seq (Lit 46) (Plus is_digit))))).
  set (k := λ (i' : nat) (_ : jsstring) (c : option jsstring),
              Some {| m_start := 0; m_end := i'; m_group := c |}).
  set (k1 := λ (i' : nat) (s' : jsstring) (c' : option jsstring),
               run (Seq (Star is_space) number) i' s' c' k).
  assert (∀ i, k1 i (ws ++ ip ++ fraction fd) None
               = Some {| m_start := 0;
                         m_end := i + length ws + length (ip ++ fraction fd);
                         m_group := Some (ip ++ fraction fd) |}) as Hk1.
  { intros i. unfold k1.
    change (run (Seq (Star is_space) number) i (ws ++ ip ++ fraction fd) None k)
      with (star is_space i (ws ++ ip ++ fraction fd) None
              (λ i' s' c', run number i' s' c' k)).
    apply star_greedy; [done | by eapply stops_nonempty_app, digit_not_space |].
    by apply (run_number ip fd). }
  exists (length kw + length ws + length (ip ++ fraction fd))%nat.
  apply exec_from_here. fold k.
  change (run re_chapter 0 (kw ++ ws ++ ip ++ fraction fd) None k)
    with (match run (lits "Ch.") 0 (kw ++ ws ++ ip ++ fraction fd) None k1 with
          | Some x => Some x
          | None => run (lits "Chapter") 0 (kw ++ ws ++ ip ++ fraction fd) None k1
          end).
  destruct Hkw as [Hkw|Hkw].
  - rewrite lits_match by done. by rewrite Hk1.
  - rewrite (lits_match "Chapter") by done. rewrite Hk1.
    assert (run (lits "Ch.") 0 (kw ++ ws ++ ip ++ fraction fd) None k1 = None) as ->;
      [|done].
    unfold ci_eq in Hkw.
    do 7 (destruct kw as [|? kw]; [done|]). destruct kw; [|done].
    injection Hkw as H1 H2 H3 H4 H5 H6 H7.
    cbn [lits run app]. by rewrite H1, H2, H3.
Qed.

(** *** What the heads of the forms look like *)

Lemma ci_eq_head a w b : ci_eq a (js (String w b)) →
  ∃ x t, a = x :: t ∧ canon x = canon (Ascii.N_of_ascii w).
Proof. unfold ci_eq. destruct a as [|x t]; [done|]. intros [= Hx _]. eauto. Qed.

Lemma volume_prefix_head vol :
  volume_prefix vol → ∃ x t, vol = x :: t ∧ canon x = 86%N.
Proof.
  intros (v & ws0 & tok & ws1 & -> & Hv & _).
  apply ci_eq_head in Hv as (x & t & -> & Hx). by exists x, (t ++ ws0 ++ tok ++ ws1).
Qed.

Lemma bonus_form_head s :
  bonus_form s → ∃ x t, s = x :: t ∧ canon x = 67%N.
Proof.
  intros (kw & ws & b & rest & -> & Hkw & _).
  apply ci_eq_head in Hkw as (x & t & -> & Hx). by exists x, (t ++ ws ++ b ++ rest).
Qed.

Lemma has_chapter_number_C s :
  has_chapter_number s → existsb (λ x, canon x =? 67)%N s = true.
Proof.
  intros (pre & kw & ws & d & rest & -> & Hkw & _).
  rewrite existsb_app. apply orb_true_iff. right.
  assert (∃ x t, kw = x :: t ∧ canon x = 67%N) as (x & t & -> & Hx).
  { destruct Hkw as [Hkw|Hkw]; by apply ci_eq_head in Hkw. }
  simpl. by rewrite Hx.
Qed.

(** *** [parseChapterNumber] on a string *)

Lemma parseChapterNumber_string d :
  parseChapterNumber (VStr d)
  = Ok (if is_empty d then []
        else
          let cleaned := replace re_volume d [] in
          if exec re_bonus cleaned is Some _ then js "Chapter Bonus"
          else
            match exec re_chapter cleaned with
            | Some {| m_group := Some g |} =>
              if negb (is_empty g) then toString (parseFloat g) else d
            | _ => d
            end).
Proof.
  unfold parseChapterNumber. destruct d as [|x d]; [done|].
  change (truthy (VStr (x :: d))) with true. cbv [negb is_empty]. cbv zeta.
  by repeat case_match.
Qed.

(** The text left once the volume prefix, if any, is removed. *)
Lemma replace_volume_opt vol c :
  vol = [] ∨ volume_prefix vol →
  (∃ x t, c = x :: t ∧ (65 ≤ canon x ≤ 90)%N ∧ canon x ≠ 86%N) →
  replace re_volume (vol ++ c) [] = c.
Proof.
  intros [->|Hvol] (x & t & -> & Hx & HV).
  - apply replace_no_volume. intros vol rest Hvol Heq.
    apply volume_prefix_head in Hvol as (y & t' & -> & Hy).
    injection Heq as <- _. done.
  - apply replace_volume; [done|]. simpl. by rewrite letter_not_space.
Qed.

(** ** Numbers: powers as reals *)

Lemma bpow_pos b e : 0 < b → (0 < bpow b e)%R.
Proof. intros Hb. apply powerRZ_lt. by apply IZR_lt. Qed.

Lemma bpow_add b e1 e2 : 0 < b → bpow b (e1 + e2) = (bpow b e1 * bpow b e2)%R.
Proof.
  intros Hb. apply powerRZ_add. apply Rgt_not_eq. by apply (IZR_lt 0).
Qed.

Lemma bpow_0 b : bpow b 0 = 1%R.
Proof. reflexivity. Qed.

Lemma bpow_IZR b e : 0 ≤ e → bpow b e = IZR (b ^ e).
Proof.
  intros He. unfold bpow. destruct e as [|p|p]; [done| |lia].
  by rewrite <- Zpower_pos_powerRZ.
Qed.

Lemma bpow_opp b e : 0 < b → bpow b (- e) = (/ bpow b e)%R.
Proof.
  intros Hb. apply Rmult_eq_reg_l with (bpow b e); [|apply Rgt_not_eq, bpow_pos; lia].
  rewrite <- bpow_add by done. rewrite Z.add_opp_diag_r, bpow_0.
  rewrite Rinv_r; [done|]. apply Rgt_not_eq, bpow_pos. lia.
Qed.

Lemma bpow_ge_1 b e : 0 < b → 0 ≤ e → (1 <= bpow b e)%R.
Proof.
  intros Hb He. rewrite bpow_IZR by done. apply IZR_le.
  assert (0 < b ^ e) by (apply Z.pow_pos_nonneg; lia). lia.
Qed.

Lemma bpow_le b e1 e2 : 0 < b → e1 ≤ e2 → (bpow b e1 <= bpow b e2)%R.
Proof.
  intros Hb He. replace e2 with (e1 + (e2 - e1)) by lia. rewrite bpow_add by done.
  pose proof (bpow_pos b e1 Hb). pose proof (bpow_ge_1 b (e2 - e1) Hb ltac:(lia)).
  nra.
Qed.

Lemma bpow_lt b e1 e2 : 1 < b → e1 < e2 → (bpow b e1 < bpow b e2)%R.
Proof.
  intros Hb He. replace e2 with (e1 + 1 + (e2 - e1 - 1)) by lia.
  rewrite !bpow_add by lia.
  pose proof (bpow_pos b e1 ltac:(lia)).
  pose proof (bpow_ge_1 b (e2 - e1 - 1) ltac:(lia) ltac:(lia)).
  assert (2 <= bpow b 1)%R as H1.
  { rewrite bpow_IZR by lia. apply IZR_le. lia. }
  generalize dependent (bpow b (e2 - e1 - 1)). generalize dependent (bpow b 1).
  generalize dependent (bpow b e1). intros x Hx y Hy z Hz.
  assert (x * 2 <= x * y)%R by nra.
  assert (x * y * 1 <= x * y * z)%R by (apply Rmult_le_compat_l; nra).
  lra.
Qed.

Lemma bpow_lt_inv b e1 e2 : 1 < b → (bpow b e1 < bpow b e2)%R → e1 < e2.
Proof.
  intros Hb Hlt. destruct (Z.lt_ge_cases e1 e2) as [|Hge]; [done|].
  pose proof (bpow_le b e2 e1 ltac:(lia) Hge). lra.
Qed.

Lemma bpow_le_inv b e1 e2 : 1 < b → (bpow b e1 <= bpow b e2)%R → e1 ≤ e2.
Proof.
  intros Hb Hle. destruct (Z.le_gt_cases e1 e2) as [|Hgt]; [done|].
  pose proof (bpow_lt b e2 e1 Hb Hgt). lra.
Qed.

Lemma IZR_pos z : 0 < z → (0 < IZR z)%R.
Proof. apply (IZR_lt 0). Qed.

Lemma qval_mult_r a b c : 0 < b → 0 < c → qval (a * c) (b * c) = qval a b.
Proof.
  intros Hb Hc. unfold qval. rewrite !mult_IZR.
  pose proof (IZR_pos b Hb). pose proof (IZR_pos c Hc). by field; split; apply Rgt_not_eq.
Qed.

Lemma qval_eq a b x : 0 < b → qval a b = x ↔ IZR a = (x * IZR b)%R.
Proof.
  intros Hb. unfold qval. pose proof (IZR_pos b Hb). split.
  - intros <-. field. lra.
  - intros ->. field. lra.
Qed.

Lemma qval_le a b x : 0 < b → (qval a b <= x)%R ↔ (IZR a <= x * IZR b)%R.
Proof.
  intros Hb. unfold qval. pose proof (IZR_pos b Hb) as HbR. split.
  - intros Hle. apply Rmult_le_reg_r with (/ IZR b)%R; [by apply Rinv_0_lt_compat|].
    rewrite Rmult_assoc, Rinv_r by lra. lra.
  - intros Hle. apply Rmult_le_reg_r with (IZR b); [done|].
    unfold Rdiv. rewrite Rmult_assoc, Rinv_l by lra. lra.
Qed.

Lemma qval_ge a b x : 0 < b → (x <= qval a b)%R ↔ (x * IZR b <= IZR a)%R.
Proof.
  intros Hb. unfold qval. pose proof (IZR_pos b Hb) as HbR. split.
  - intros Hle. apply Rmult_le_reg_r with (/ IZR b)%R; [by apply Rinv_0_lt_compat|].
    rewrite Rmult_assoc, Rinv_r by lra. lra.
  - intros Hle. apply Rmult_le_reg_r with (IZR b); [done|].
    unfold Rdiv. rewrite Rmult_assoc, Rinv_l by lra. lra.
Qed.

Lemma qval_lt a b x : 0 < b → (qval a b < x)%R ↔ (IZR a < x * IZR b)%R.
Proof.
  intros Hb. pose proof (qval_ge a b x Hb) as Hge. split; intros H1.
  - apply Rnot_le_lt. intros H2. apply Hge in H2. lra.
  - apply Rnot_le_lt. intros H2. apply Hge in H2. lra.
Qed.

Lemma Rdiv_lt_cross (x1 y1 x2 y2 : R) :
  (0 < y1 → 0 < y2 → x1 * y2 < x2 * y1 → x1 / y1 < x2 / y2)%R.
Proof.
  intros H1 H2 H. apply Rmult_lt_reg_r with (y1 * y2)%R; [nra|].
  replace (x1 / y1 * (y1 * y2))%R with (x1 * y2)%R by (field; lra).
  replace (x2 / y2 * (y1 * y2))%R with (x2 * y1)%R by (field; lra). done.
Qed.

Lemma Rdiv_le_cross (x1 y1 x2 y2 : R) :
  (0 < y1 → 0 < y2 → x1 * y2 <= x2 * y1 → x1 / y1 <= x2 / y2)%R.
Proof.
  intros H1 H2 H. apply Rmult_le_reg_r with (y1 * y2)%R; [nra|].
  replace (x1 / y1 * (y1 * y2))%R with (x1 * y2)%R by (field; lra).
  replace (x2 / y2 * (y1 * y2))%R with (x2 * y1)%R by (field; lra). done.
Qed.

Lemma scale2_val a b e a' b' :
  0 < b → scale2 a b e = (a', b') →
  0 < b' ∧ qval a' b' = (qval a b * bpow 2 (- e))%R.
Proof.
  intros Hb. unfold scale2. destruct (Z.leb_spec 0 e) as [He|He]; intros [= <- <-].
  - assert (0 < 2 ^ e) by (apply Z.pow_pos_nonneg; lia). split; [lia|].
    rewrite bpow_opp, bpow_IZR by lia. unfold qval. rewrite mult_IZR.
    pose proof (IZR_pos b Hb). pose proof (IZR_pos _ H). field. lra.
  - split; [done|]. rewrite bpow_IZR by lia. unfold qval. rewrite mult_IZR.
    pose proof (IZR_pos b Hb). field. lra.
Qed.

Lemma scale10_val a b d a' b' :
  0 < b → scale10 a b d = (a', b') →
  0 < b' ∧ qval a' b' = (qval a b * bpow 10 (- d))%R.
Proof.
  intros Hb. unfold scale10. destruct (Z.leb_spec 0 d) as [He|He]; intros [= <- <-].
  - assert (0 < 10 ^ d) by (apply Z.pow_pos_nonneg; lia). split; [lia|].
    rewrite bpow_opp, bpow_IZR by lia. unfold qval. rewrite mult_IZR.
    pose proof (IZR_pos b Hb). pose proof (IZR_pos _ H). field. lra.
  - split; [done|]. rewrite bpow_IZR by lia. unfold qval. rewrite mult_IZR.
    pose proof (IZR_pos b Hb). field. lra.
Qed.

Lemma frac_of_val m e a b :
  frac_of m e = (a, b) → 0 < b ∧ qval a b = (IZR m * bpow 2 e)%R.
Proof.
  unfold frac_of. destruct (Z.leb_spec 0 e) as [He|He]; intros [= <- <-].
  - split; [lia|]. rewrite bpow_IZR by lia. unfold qval. rewrite mult_IZR. field.
  - assert (0 < 2 ^ (- e)) by (apply Z.pow_pos_nonneg; lia). split; [done|].
    replace e with (- - e) at 2 by lia. rewrite bpow_opp, bpow_IZR by lia.
    unfold qval. pose proof (IZR_pos _ H). field. lra.
Qed.

(** *** Rounding to the nearest integer *)

Lemma Rabs_le_bounds (x a : R) : (Rabs x <= a → - a <= x <= a)%R.
Proof. unfold Rabs. destruct (Rcase_abs x); lra. Qed.

Lemma Rabs_lt_bounds (x a : R) : (Rabs x < a → - a < x < a)%R.
Proof. unfold Rabs. destruct (Rcase_abs x); lra. Qed.

Lemma IZR_close (z1 z2 : Z) : (Rabs (IZR z1 - IZR z2) < 1)%R → z1 = z2.
Proof.
  intros H. apply Rabs_def2 in H as [H1 H2].
  assert (IZR (z1 - z2) < IZR 1)%R as H3 by (rewrite minus_IZR; lra).
  assert (IZR (-1) < IZR (z1 - z2))%R as H4 by (rewrite minus_IZR; lra).
  apply lt_IZR in H3, H4. lia.
Qed.

Lemma round_half_even_spec a b :
  0 < b →
  (Rabs (qval a b - IZR (round_half_even a b)) < 1 / 2)%R
  ∨ (Rabs (qval a b - IZR (round_half_even a b)) = 1 / 2)%R
    ∧ Z.even (round_half_even a b) = true.
Proof.
  intros Hb. unfold round_half_even.
  pose proof (Z.div_mod a b ltac:(lia)) as Hdiv.
  pose proof (Z.mod_pos_bound a b Hb) as Hmod.
  set (q := a / b) in *. set (r := a mod b) in *.
  assert (qval a b = IZR q + IZR r / IZR b)%R as ->.
  { unfold qval. rewrite Hdiv, plus_IZR, mult_IZR. pose proof (IZR_pos b Hb).
    field. lra. }
  pose proof (IZR_pos b Hb) as HbR.
  assert (0 <= IZR r / IZR b < 1)%R as Hfrac.
  { split.
    - apply Rmult_le_pos; [apply IZR_le; lia | apply Rlt_le, Rinv_0_lt_compat, HbR].
    - apply Rmult_lt_reg_r with (IZR b); [done|]. unfold Rdiv.
      rewrite Rmult_assoc, Rinv_l by lra. rewrite Rmult_1_r, Rmult_1_l.
      apply IZR_lt. lia. }
  assert (∀ c : R, (2 * IZR r < c * IZR b → 2 * (IZR r / IZR b) < c)%R) as Hlt.
  { intros c H. apply Rmult_lt_reg_r with (IZR b); [done|].
    replace (2 * (IZR r / IZR b) * IZR b)%R with (2 * IZR r)%R by (field; lra). done. }
  assert (∀ c : R, (c * IZR b < 2 * IZR r → c < 2 * (IZR r / IZR b))%R) as Hgt.
  { intros c H. apply Rmult_lt_reg_r with (IZR b); [done|].
    replace (2 * (IZR r / IZR b) * IZR b)%R with (2 * IZR r)%R by (field; lra). done. }
  destruct (Z.ltb_spec (2 * r) b) as [H1|H1].
  - apply (IZR_lt (2 * r) b) in H1. rewrite mult_IZR in H1.
    specialize (Hlt 1%R ltac:(lra)). left. apply Rabs_def1; lra.
  - destruct (Z.ltb_spec b (2 * r)) as [H2|H2].
    + apply (IZR_lt b (2 * r)) in H2. rewrite mult_IZR in H2.
      specialize (Hgt 1%R ltac:(lra)). rewrite plus_IZR. left. apply Rabs_def1; lra.
    + assert (2 * r = b) as H3 by lia. apply (f_equal IZR) in H3.
      rewrite mult_IZR in H3.
      assert (IZR r / IZR b = 1 / 2)%R as ->.
      { apply Rmult_eq_reg_r with (IZR b); [|lra]. field_simplify; lra. }
      right. destruct (Z.even q) eqn:Hq.
      * split; [|done]. rewrite Rabs_right; lra.
      * split.
        -- rewrite plus_IZR, Rabs_left; lra.
        -- rewrite Z.even_add, Hq. reflexivity.
Qed.

Lemma round_half_even_near a b :
  0 < b → (Rabs (qval a b - IZR (round_half_even a b)) <= 1 / 2)%R.
Proof.
  intros Hb. destruct (round_half_even_spec a b Hb) as [H|[H _]]; lra.
Qed.

Lemma round_half_even_unique a b z :
  0 < b → (Rabs (qval a b - IZR z) < 1 / 2)%R → round_half_even a b = z.
Proof.
  intros Hb Hz. apply IZR_close.
  pose proof (round_half_even_near a b Hb) as Hn.
  apply Rabs_lt_bounds in Hz. apply Rabs_le_bounds in Hn.
  apply Rabs_def1; lra.
Qed.

(** The rounding depends on the value of the fraction only. *)
Lemma round_half_even_ext a b c d :
  0 < b → 0 < d → qval a b = qval c d →
  round_half_even a b = round_half_even c d.
Proof.
  intros Hb Hd Heq.
  destruct (round_half_even_spec a b Hb) as [H1|[H1 E1]].
  { symmetry. apply round_half_even_unique; [done|]. by rewrite <- Heq. }
  destruct (round_half_even_spec c d Hd) as [H2|[H2 E2]].
  { apply round_half_even_unique; [done|]. by rewrite Heq. }
  rewrite <- Heq in H2.
  set (z1 := round_half_even a b) in *. set (z2 := round_half_even c d) in *.
  assert (Rabs (IZR z1 - IZR z2) <= 1)%R as Hclose.
  { apply Rabs_le. assert (Rabs (qval a b - IZR z1) <= 1/2)%R as B1 by lra.
    assert (Rabs (qval a b - IZR z2) <= 1/2)%R as B2 by lra.
    apply Rabs_le_bounds in B1, B2. lra. }
  apply Rabs_le_bounds in Hclose.
  assert (IZR (-1) <= IZR (z1 - z2))%R as L1 by (rewrite minus_IZR; lra).
  assert (IZR (z1 - z2) <= IZR 1)%R as L2 by (rewrite minus_IZR; lra).
  apply le_IZR in L1, L2.
  apply Z.even_spec in E1 as [k1 K1], E2 as [k2 K2]. lia.
Qed.

(** *** The binade of a positive rational *)

Lemma in_binade_unique y e1 e2 : in_binade y e1 → in_binade y e2 → e1 = e2.
Proof.
  intros [L1 U1] [L2 U2].
  assert (52 + e1 < 53 + e2) by (apply (bpow_lt_inv 2); [lia|lra]).
  assert (52 + e2 < 53 + e1) by (apply (bpow_lt_inv 2); [lia|lra]).
  lia.
Qed.

Lemma log2_bounds a : 0 < a →
  (bpow 2 (Z.log2 a) <= IZR a < bpow 2 (Z.log2 a + 1))%R.
Proof.
  intros Ha. pose proof (Z.log2_spec a Ha) as [L U].
  pose proof (Z.log2_nonneg a).
  rewrite !bpow_IZR by lia. split; [by apply IZR_le | by apply IZR_lt].
Qed.

Lemma binade_spec a b :
  0 < a → 0 < b →
  ∃ e, in_binade (qval a b) e ∧ binade a b = Z.max e (-1074).
Proof.
  intros Ha Hb. unfold binade.
  pose proof (log2_bounds a Ha) as [La Ua]. pose proof (log2_bounds b Hb) as [Lb Ub].
  set (l := Z.log2 a - Z.log2 b).
  destruct (scale2 a b (l - 52)) as [a' b'] eqn:Hs.
  apply scale2_val in Hs as [Hb' Hval]; [|done].
  pose proof (IZR_pos a Ha) as HaR. pose proof (IZR_pos b Hb) as HbR.
  pose proof (bpow_pos 2 (Z.log2 a) ltac:(lia)) as Pa.
  pose proof (bpow_pos 2 (Z.log2 b) ltac:(lia)) as Pb.
  (* 2^(l-1) < a/b < 2^(l+1) *)
  assert (bpow 2 (l - 1) < qval a b < bpow 2 (l + 1))%R as [Ly Uy].
  { pose proof (bpow_pos 2 (Z.log2 b + 1) ltac:(lia)) as Pb1.
    pose proof (bpow_pos 2 (Z.log2 a + 1) ltac:(lia)) as Pa1.
    assert (bpow 2 (l - 1) = bpow 2 (Z.log2 a) / bpow 2 (Z.log2 b + 1))%R as ->.
    { unfold Rdiv. rewrite <- bpow_opp, <- bpow_add by lia. f_equal. lia. }
    assert (bpow 2 (l + 1) = bpow 2 (Z.log2 a + 1) / bpow 2 (Z.log2 b))%R as ->.
    { unfold Rdiv. rewrite <- bpow_opp, <- bpow_add by lia. f_equal. lia. }
    generalize dependent (bpow 2 (Z.log2 a)). generalize dependent (bpow 2 (Z.log2 b)).
    generalize dependent (bpow 2 (Z.log2 a + 1)).
    generalize dependent (bpow 2 (Z.log2 b + 1)).
    intros pb1 Ub Pb1 pa1 Ua Pa1 pb Lb Pb pa La Pa.
    unfold qval. split.
    - apply Rdiv_lt_cross; [done..|].
      assert (pa * IZR b < pa * pb1)%R by (apply Rmult_lt_compat_l; lra).
      assert (pa * pb1 <= IZR a * pb1)%R by (apply Rmult_le_compat_r; lra).
      lra.
    - apply Rdiv_lt_cross; [done..|].
      assert (IZR a * pb < pa1 * pb)%R by (apply Rmult_lt_compat_r; lra).
      assert (pa1 * pb <= pa1 * IZR b)%R by (apply Rmult_le_compat_l; lra).
      lra. }
  destruct (Z.leb_spec (2 ^ 52 * b') a') as [Ht|Ht].
  - exists (l - 52). split; [|done]. split.
    + apply (IZR_le _ a') in Ht. rewrite mult_IZR in Ht.
      assert (IZR (2 ^ 52) <= qval a' b')%R as Hq by (apply qval_ge; [done|lra]).
      rewrite Hval in Hq. rewrite <- bpow_IZR in Hq by lia.
      replace (52 + (l - 52)) with l by lia.
      pose proof (bpow_pos 2 (- (l - 52)) ltac:(lia)) as Pp.
      apply Rmult_le_reg_r with (bpow 2 (- (l - 52))); [done|].
      rewrite <- bpow_add by lia. by replace (l + - (l - 52)) with 52 by lia.
    + replace (53 + (l - 52)) with (l + 1) by lia. done.
  - exists (l - 53). split; [|done]. split.
    + replace (52 + (l - 53)) with (l - 1) by lia. lra.
    + apply (IZR_lt a') in Ht. rewrite mult_IZR in Ht.
      assert (qval a' b' < IZR (2 ^ 52))%R as Hq by (apply qval_lt; [done|lra]).
      rewrite Hval in Hq. rewrite <- bpow_IZR in Hq by lia.
      replace (53 + (l - 53)) with l by lia.
      pose proof (bpow_pos 2 (- (l - 52)) ltac:(lia)) as Pp.
      apply Rmult_lt_reg_r with (bpow 2 (- (l - 52))); [done|].
      rewrite <- bpow_add by lia. by replace (l + - (l - 52)) with 52 by lia.
Qed.

(** *** The Number value of a rational *)

Lemma to_double_rounded a b :
  0 < a →
  to_double a b
  = let '(m, e) := rounded a b in
    if m =? 0 then Finite false 0 0
    else if 971 <? e then Infinity false
    else Finite false m e.
Proof.
  intros Ha. unfold to_double, rounded.
  destruct (Z.eqb_spec a 0) as [|_]; [lia|].
  destruct (scale2 a b (binade a b)) as [a' b']. by destruct (_ =? 2 ^ 53).
Qed.

Lemma rounded_error a b m e :
  0 < b → rounded a b = (m, e) →
  (Rabs (qval a b - F2R m e) <= bpow 2 e / 2)%R.
Proof.
  intros Hb. unfold rounded.
  destruct (scale2 a b (binade a b)) as [a' b'] eqn:Hs.
  apply scale2_val in Hs as [Hb' Hval]; [|done].
  pose proof (round_half_even_near a' b' Hb') as Hn. rewrite Hval in Hn.
  set (eb := binade a b) in *. set (m0 := round_half_even a' b') in *.
  pose proof (bpow_pos 2 eb ltac:(lia)) as Pe.
  assert (Rabs (qval a b - IZR m0 * bpow 2 eb) <= bpow 2 eb / 2)%R as Hbound.
  { apply Rabs_le_bounds in Hn. apply Rabs_le.
    assert (qval a b * bpow 2 (- eb) * bpow 2 eb = qval a b)%R as Hy.
    { rewrite Rmult_assoc, <- bpow_add by lia.
      replace (- eb + eb) with 0 by lia. rewrite bpow_0. lra. }
    destruct Hn as [Hn1 Hn2].
    apply (Rmult_le_compat_r (bpow 2 eb)) in Hn1, Hn2; [|lra..].
    rewrite Rmult_minus_distr_r, Hy in Hn1, Hn2. lra. }
  destruct (Z.eqb_spec m0 (2 ^ 53)) as [Hm|Hm]; intros [= <- <-]; unfold F2R.
  - rewrite Hm in Hbound. rewrite bpow_add by lia.
    replace (bpow 2 1) with 2%R by (rewrite bpow_IZR by lia; done).
    replace (IZR (2 ^ 52) * (bpow 2 eb * 2))%R with (IZR (2 ^ 53) * bpow 2 eb)%R.
    + lra.
    + replace (2 ^ 53) with (2 ^ 52 * 2) by done. rewrite mult_IZR. lra.
  - done.
Qed.

Lemma rounded_ext a b c d :
  0 < a → 0 < b → 0 < c → 0 < d → qval a b = qval c d →
  rounded a b = rounded c d.
Proof.
  intros Ha Hb Hc Hd Heq. unfold rounded.
  assert (binade a b = binade c d) as Hbin.
  { destruct (binade_spec a b Ha Hb) as (e1 & H1 & ->).
    destruct (binade_spec c d Hc Hd) as (e2 & H2 & ->).
    rewrite Heq in H1. by rewrite (in_binade_unique _ _ _ H1 H2). }
  rewrite <- Hbin.
  destruct (scale2 a b (binade a b)) as [a' b'] eqn:Hs1.
  destruct (scale2 c d (binade a b)) as [c' d'] eqn:Hs2.
  apply scale2_val in Hs1 as [Hb' Hv1]; [|done].
  apply scale2_val in Hs2 as [Hd' Hv2]; [|done].
  rewrite (round_half_even_ext a' b' c' d'); [done..|]. by rewrite Hv1, Hv2, Heq.
Qed.

Lemma to_double_ext a b c d :
  0 < a → 0 < b → 0 < c → 0 < d → qval a b = qval c d →
  to_double a b = to_double c d.
Proof.
  intros Ha Hb Hc Hd Heq. rewrite !to_double_rounded by done.
  by rewrite (rounded_ext a b c d).
Qed.

(** In the range of the normal numbers the mantissa has 53 bits. *)
Lemma rounded_normal a b m e :
  0 < a → 0 < b →
  (bpow 2 (-1022) <= qval a b <= bpow 2 1000)%R →
  rounded a b = (m, e) →
  2 ^ 52 ≤ m < 2 ^ 53 ∧ -1074 ≤ e ≤ 971.
Proof.
  intros Ha Hb [Hlo Hhi]. unfold rounded.
  destruct (binade_spec a b Ha Hb) as (eb & [Lb Ub] & ->).
  assert (-1075 < eb).
  { assert (-1022 < 53 + eb) by (apply (bpow_lt_inv 2); [lia|lra]). lia. }
  assert (eb < 960).
  { assert (52 + eb ≤ 1000) by (apply (bpow_le_inv 2); [lia|lra]). lia. }
  rewrite Z.max_l by lia.
  destruct (scale2 a b eb) as [a' b'] eqn:Hs.
  apply scale2_val in Hs as [Hb' Hval]; [|done].
  pose proof (round_half_even_near a' b' Hb') as Hn. rewrite Hval in Hn.
  set (m0 := round_half_even a' b') in *.
  pose proof (bpow_pos 2 (- eb) ltac:(lia)) as Pe.
  assert (IZR (2 ^ 52) <= qval a b * bpow 2 (- eb) < IZR (2 ^ 53))%R as [Lq Uq].
  { rewrite <- !bpow_IZR by lia.
    assert (bpow 2 52 = bpow 2 (52 + eb) * bpow 2 (- eb))%R as ->
      by (rewrite <- bpow_add by lia; f_equal; lia).
    assert (bpow 2 53 = bpow 2 (53 + eb) * bpow 2 (- eb))%R as ->
      by (rewrite <- bpow_add by lia; f_equal; lia).
    split.
    - apply Rmult_le_compat_r; lra.
    - apply Rmult_lt_compat_r; lra. }
  apply Rabs_le_bounds in Hn.
  assert (IZR (2 ^ 52 - 1) < IZR m0)%R as L1 by (rewrite minus_IZR; lra).
  assert (IZR m0 < IZR (2 ^ 53 + 1))%R as U1 by (rewrite plus_IZR; lra).
  apply lt_IZR in L1, U1.
  destruct (Z.eqb_spec m0 (2 ^ 53)); intros [= <- <-]; lia.
Qed.

(** *** Decimals *)

Lemma D2R_shift s d j : 0 ≤ j → D2R s d = D2R (s * 10 ^ j) (d - j).
Proof.
  intros Hj. unfold D2R. rewrite mult_IZR, <- bpow_IZR, Rmult_assoc by done.
  rewrite <- bpow_add by lia. do 2 f_equal. lia.
Qed.

Lemma D2R_magnitude s k n :
  10 ^ (k - 1) ≤ s < 10 ^ k → 1 ≤ k →
  (bpow 10 (n - 1) <= D2R s (n - k) < bpow 10 n)%R.
Proof.
  intros [Hlo Hhi] Hk. unfold D2R.
  pose proof (bpow_pos 10 (n - k) ltac:(lia)) as Pg.
  apply IZR_le in Hlo. apply IZR_lt in Hhi. rewrite <- !bpow_IZR in * by lia.
  assert (bpow 10 (n - 1) = bpow 10 (k - 1) * bpow 10 (n - k))%R as ->
    by (rewrite <- bpow_add by lia; f_equal; lia).
  assert (bpow 10 n = bpow 10 k * bpow 10 (n - k))%R as ->
    by (rewrite <- bpow_add by lia; f_equal; lia).
  split.
  - apply Rmult_le_compat_r; lra.
  - apply Rmult_lt_compat_r; lra.
Qed.

(** Two decimals of at most fifteen digits within half a unit in the last
    place of the same normal binary64 number are equal. *)
Lemma decimal_unique s1 d1 s2 d2 m e :
  0 < s1 < 10 ^ 15 → 0 < s2 < 10 ^ 15 → 2 ^ 52 ≤ m →
  (Rabs (D2R s1 d1 - F2R m e) <= bpow 2 e / 2)%R →
  (Rabs (D2R s2 d2 - F2R m e) <= bpow 2 e / 2)%R →
  D2R s1 d1 = D2R s2 d2.
Proof.
  assert (∀ s1 d1 s2 d2,
    d1 ≤ d2 → 0 < s1 < 10 ^ 15 → 0 < s2 → 2 ^ 52 ≤ m →
    (Rabs (D2R s1 d1 - F2R m e) <= bpow 2 e / 2)%R →
    (Rabs (D2R s2 d2 - F2R m e) <= bpow 2 e / 2)%R →
    D2R s1 d1 = D2R s2 d2) as Hwlog.
  { clear. intros s1 d1 s2 d2 Hd [Hs1 Hs1'] Hs2 Hm H1 H2.
    rewrite (D2R_shift s2 d2 (d2 - d1)) in * by lia.
    replace (d2 - (d2 - d1)) with d1 in * by lia.
    set (S2 := s2 * 10 ^ (d2 - d1)) in *.
    destruct (decide (s1 = S2)) as [->|Hne]; [done|]. exfalso.
    unfold D2R, F2R in *.
    pose proof (bpow_pos 10 d1 ltac:(lia)) as Pg.
    pose proof (bpow_pos 2 e ltac:(lia)) as Pu.
    set (g := bpow 10 d1) in *. set (u := bpow 2 e) in *.
    apply Rabs_le_bounds in H1, H2.
    apply IZR_le in Hm. apply IZR_lt in Hs1'.
    assert (IZR (2 ^ 52) * u <= IZR m * u)%R by (apply Rmult_le_compat_r; lra).
    assert (IZR s1 * g < IZR (10 ^ 15) * g)%R by (apply Rmult_lt_compat_r; lra).
    assert (g <= u)%R as Hgu.
    { assert (s1 - S2 ≤ -1 ∨ 1 ≤ s1 - S2) as [Hd1|Hd1] by lia.
      - apply IZR_le in Hd1. rewrite minus_IZR in Hd1.
        assert ((IZR S2 - IZR s1) * g >= 1 * g)%R
          by (apply Rle_ge, Rmult_le_compat_r; lra). lra.
      - apply IZR_le in Hd1. rewrite minus_IZR in Hd1.
        assert ((IZR s1 - IZR S2) * g >= 1 * g)%R
          by (apply Rle_ge, Rmult_le_compat_r; lra). lra. }
    assert (IZR (10 ^ 15) * g <= IZR (10 ^ 15) * u)%R
      by (apply Rmult_le_compat_l; [apply IZR_le; lia | lra]).
    assert (IZR (2 ^ 52) - 1 / 2 - IZR (10 ^ 15) > 0)%R.
    { replace (2 ^ 52) with 4503599627370496 by done.
      replace (10 ^ 15) with 1000000000000000 by done. lra. }
    nra. }
  intros Hs1 Hs2 Hm H1 H2. destruct (Z.le_ge_cases d1 d2).
  - apply Hwlog; [done | done | lia | done | done | done].
  - symmetry. apply Hwlog; [lia | done | lia | done | done | done].
Qed.

(** The width of the rounding interval is below the last digit of a
    fifteen-digit decimal inside it. *)
Lemma ulp_below_digit s d m e :
  0 < s < 10 ^ 15 → 2 ^ 52 ≤ m →
  (Rabs (D2R s d - F2R m e) <= bpow 2 e / 2)%R →
  (bpow 2 e < bpow 10 d)%R.
Proof.
  intros [Hs Hs'] Hm H1. unfold D2R, F2R in *.
  pose proof (bpow_pos 10 d ltac:(lia)) as Pg.
  pose proof (bpow_pos 2 e ltac:(lia)) as Pu.
  set (g := bpow 10 d) in *. set (u := bpow 2 e) in *.
  apply Rabs_le_bounds in H1. apply IZR_le in Hm. apply IZR_lt in Hs'.
  assert (IZR (2 ^ 52) * u <= IZR m * u)%R by (apply Rmult_le_compat_r; lra).
  assert (IZR s * g < IZR (10 ^ 15) * g)%R by (apply Rmult_lt_compat_r; lra).
  replace (2 ^ 52) with 4503599627370496 in * by done.
  replace (10 ^ 15) with 1000000000000000 in * by done.
  lra.
Qed.

(** A decimal has one magnitude, and its digits cannot be fewer than those
    of a decimal that does not end in 0. *)
Lemma decimal_same_magnitude s1 k1 n1 s2 k2 n2 :
  1 ≤ k1 → 1 ≤ k2 →
  10 ^ (k1 - 1) ≤ s1 < 10 ^ k1 → 10 ^ (k2 - 1) ≤ s2 < 10 ^ k2 →
  D2R s1 (n1 - k1) = D2R s2 (n2 - k2) →
  n1 = n2.
Proof.
  intros Hk1 Hk2 Hs1 Hs2 Heq.
  pose proof (D2R_magnitude s1 k1 n1 Hs1 Hk1) as [L1 U1].
  pose proof (D2R_magnitude s2 k2 n2 Hs2 Hk2) as [L2 U2].
  rewrite Heq in *.
  assert (n1 - 1 < n2) by (apply (bpow_lt_inv 10); [lia|lra]).
  assert (n2 - 1 < n1) by (apply (bpow_lt_inv 10); [lia|lra]).
  lia.
Qed.

Lemma D2R_inj s1 s2 d : D2R s1 d = D2R s2 d → s1 = s2.
Proof.
  unfold D2R. intros H. pose proof (bpow_pos 10 d ltac:(lia)).
  apply Rmult_eq_reg_r in H; [|lra]. by apply eq_IZR.
Qed.

Lemma decimal_not_shorter s1 k1 s2 k2 n :
  s2 mod 10 ≠ 0 → D2R s1 (n - k1) = D2R s2 (n - k2) → k2 ≤ k1.
Proof.
  intros Hmod Heq. destruct (Z.le_gt_cases k2 k1) as [|Hlt]; [done|]. exfalso.
  rewrite (D2R_shift s1 (n - k1) (k2 - k1)) in Heq by lia.
  replace (n - k1 - (k2 - k1)) with (n - k2) in Heq by lia.
  apply D2R_inj in Heq. apply Hmod. rewrite <- Heq.
  replace (k2 - k1) with (1 + (k2 - k1 - 1)) by lia.
  rewrite Z.pow_add_r, Z.pow_1_r by lia.
  rewrite Z.mul_assoc, (Z.mul_comm s1), <- Z.mul_assoc, Z.mul_comm.
  apply Z.mod_mul. lia.
Qed.

(** *** The decimal exponent *)

Lemma pow2_le_pow10 n : 0 ≤ n → 2 ^ n ≤ 10 ^ n.
Proof. intros Hn. apply Z.pow_le_mono_l. lia. Qed.

Lemma lt_pow10_log2 a : 0 < a → a < 10 ^ (Z.log2 a + 1).
Proof.
  intros Ha. pose proof (Z.log2_spec a Ha) as [_ U]. pose proof (Z.log2_nonneg a).
  pose proof (pow2_le_pow10 (Z.log2 a + 1) ltac:(lia)).
  replace (Z.succ (Z.log2 a)) with (Z.log2 a + 1) in U by lia. lia.
Qed.

Lemma mag_up_spec fuel a b n :
  0 < b → 1 ≤ n →
  b * 10 ^ (n - 1) ≤ a → a < b * 10 ^ (n + Z.of_nat fuel) →
  b * 10 ^ (mag_up fuel a b n - 1) ≤ a < b * 10 ^ mag_up fuel a b n
  ∧ 1 ≤ mag_up fuel a b n.
Proof.
  intros Hb. revert n. induction fuel as [|fuel IH]; intros n Hn Hlo Hhi; simpl.
  - replace (n + Z.of_nat 0) with n in Hhi by lia. lia.
  - destruct (Z.ltb_spec a (b * 10 ^ n)) as [Hlt|Hge]; [lia|].
    apply IH; [lia | by replace (n + 1 - 1) with n by lia |].
    by replace (n + 1 + Z.of_nat fuel) with (n + Z.of_nat (S fuel)) by lia.
Qed.

Lemma mag_down_spec fuel a b n :
  n ≤ 0 →
  a * 10 ^ (- n) < b → b ≤ a * 10 ^ (1 - n + Z.of_nat fuel) →
  b ≤ a * 10 ^ (1 - mag_down fuel a b n)
  ∧ a * 10 ^ (- mag_down fuel a b n) < b
  ∧ mag_down fuel a b n ≤ 0.
Proof.
  revert n. induction fuel as [|fuel IH]; intros n Hn Hhi Hlo; simpl.
  - replace (1 - n + Z.of_nat 0) with (1 - n) in Hlo by lia. lia.
  - destruct (Z.ltb_spec (a * 10 ^ (1 - n)) b) as [Hlt|Hge]; [|lia].
    apply IH; [lia | by replace (- (n - 1)) with (1 - n) by lia |].
    by replace (1 - (n - 1) + Z.of_nat fuel) with (1 - n + Z.of_nat (S fuel)) by lia.
Qed.

(** [mag10] brackets a positive fraction between two powers of ten. *)
Lemma mag10_spec a b :
  0 < a → 0 < b →
  (bpow 10 (mag10 a b - 1) <= qval a b < bpow 10 (mag10 a b))%R.
Proof.
  intros Ha Hb. unfold mag10.
  pose proof (IZR_pos b Hb) as HbR.
  destruct (Z.leb_spec b a) as [Hle|Hgt].
  - pose proof (Z.log2_nonneg a) as Hl.
    destruct (mag_up_spec (Z.to_nat (Z.log2 a) + 1) a b 1 Hb ltac:(lia)) as ([L U] & H1).
    + simpl. lia.
    + pose proof (lt_pow10_log2 a Ha).
      replace (1 + Z.of_nat (Z.to_nat (Z.log2 a) + 1)) with (1 + (Z.log2 a + 1)) by lia.
      rewrite Z.pow_add_r by lia.
      assert (0 < 10 ^ (Z.log2 a + 1)) by (apply Z.pow_pos_nonneg; lia). nia.
    + set (r := mag_up _ a b 1) in *. rewrite !bpow_IZR by lia. split.
      * apply qval_ge; [done|]. rewrite <- mult_IZR. apply IZR_le. lia.
      * apply qval_lt; [done|]. rewrite <- mult_IZR. apply IZR_lt. lia.
  - pose proof (Z.log2_nonneg b) as Hl.
    destruct (mag_down_spec (Z.to_nat (Z.log2 b) + 1) a b 0 ltac:(lia)) as (L & U & H1).
    + simpl. lia.
    + pose proof (lt_pow10_log2 b Hb).
      replace (1 - 0 + Z.of_nat (Z.to_nat (Z.log2 b) + 1)) with (1 + (Z.log2 b + 1)) by lia.
      rewrite Z.pow_add_r by lia.
      assert (0 < 10 ^ (Z.log2 b + 1)) by (apply Z.pow_pos_nonneg; lia). nia.
    + set (r := mag_down _ a b 0) in *.
      assert (0 < 10 ^ (1 - r)) as P1 by (apply Z.pow_pos_nonneg; lia).
      assert (0 < 10 ^ (- r)) as P2 by (apply Z.pow_pos_nonneg; lia).
      assert (bpow 10 (r - 1) = 1 / IZR (10 ^ (1 - r)))%R as ->.
      { replace (r - 1) with (- (1 - r)) by lia.
        rewrite bpow_opp, bpow_IZR by lia. lra. }
      assert (bpow 10 r = 1 / IZR (10 ^ (- r)))%R as ->.
      { replace r with (- - r) at 1 by lia.
        rewrite bpow_opp, bpow_IZR by lia. lra. }
      apply IZR_pos in P1, P2. unfold qval. split.
      * apply Rdiv_le_cross; [done..|]. rewrite <- !mult_IZR. apply IZR_le. lia.
      * apply Rdiv_lt_cross; [done..|]. rewrite <- !mult_IZR. apply IZR_lt. lia.
Qed.

(** *** The shortest decimal of a Number *)

Lemma qval_1 s : qval s 1 = IZR s.
Proof. unfold qval. lra. Qed.

Lemma scale10_decimal s d c c' :
  scale10 s 1 (- d) = (c, c') → 0 < c' ∧ qval c c' = D2R s d.
Proof.
  intros Hs. apply scale10_val in Hs as [Hc Hv]; [|lia]. split; [done|].
  rewrite Hv, qval_1. unfold D2R. do 2 f_equal. lia.
Qed.

Lemma scale10_pos s d c c' : 0 < s → scale10 s 1 (- d) = (c, c') → 0 < c.
Proof.
  intros Hs. unfold scale10. destruct (Z.leb_spec 0 (- d)); intros [= <- <-]; [done|].
  apply Z.mul_pos_pos; [done|]. apply Z.pow_pos_nonneg; lia.
Qed.

Lemma to_double_finite a b m e :
  0 < a → 0 < b → to_double a b = Finite false m e → m ≠ 0 →
  rounded a b = (m, e).
Proof.
  intros Ha Hb. rewrite to_double_rounded by done.
  destruct (rounded a b) as [m' e'].
  destruct (Z.eqb_spec m' 0); [by intros [= <- <-]|].
  destruct (971 <? e'); [done|]. by intros [= <- <-].
Qed.

Lemma candidate_Some m e k n s :
  1 ≤ k → m ≠ 0 → candidate m e k n = Some s →
  10 ^ (k - 1) ≤ s < 10 ^ k
  ∧ (Rabs (D2R s (n - k) - F2R m e) <= bpow 2 e / 2)%R.
Proof.
  intros Hk Hm. unfold candidate.
  destruct (frac_of m e) as [a b]. destruct (scale10 a b (n - k)) as [a' b'].
  set (s' := round_half_even a' b').
  destruct (Z.leb_spec (10 ^ (k - 1)) s') as [Hlo|]; [|done].
  destruct (Z.ltb_spec s' (10 ^ k)) as [Hhi|]; [|done]. simpl.
  destruct (scale10 s' 1 (k - n)) as [c c'] eqn:Hs.
  replace (k - n) with (- (n - k)) in Hs by lia.
  assert (0 < s') as Hpos.
  { assert (0 < 10 ^ (k - 1)) by (apply Z.pow_pos_nonneg; lia). lia. }
  pose proof (scale10_pos _ _ _ _ Hpos Hs) as Hc.
  apply scale10_decimal in Hs as [Hc' Hval].
  destruct (to_double c c') as [| |[] m' e'] eqn:Hd; try done.
  destruct (Z.eqb_spec m' m) as [->|]; [|done].
  destruct (Z.eqb_spec e' e) as [->|]; [|done]. simpl. intros [= <-].
  split; [done|]. apply to_double_finite in Hd; [|done..].
  rewrite <- Hval. by apply rounded_error.
Qed.

Lemma candidate_intro m e k n s c c' :
  (Rabs (F2R m e * bpow 10 (- (n - k)) - IZR s) < 1 / 2)%R →
  10 ^ (k - 1) ≤ s < 10 ^ k →
  scale10 s 1 (k - n) = (c, c') →
  to_double c c' = Finite false m e →
  candidate m e k n = Some s.
Proof.
  intros Hnear [Hlo Hhi] Hs Hd. unfold candidate.
  destruct (frac_of m e) as [a b] eqn:Hf. apply frac_of_val in Hf as [Hb Hx].
  destruct (scale10 a b (n - k)) as [a' b'] eqn:Hs'.
  apply scale10_val in Hs' as [Hb' Hv]; [|done].
  rewrite (round_half_even_unique a' b' s); [|done|].
  - apply Z.leb_le in Hlo. apply Z.ltb_lt in Hhi. rewrite Hlo, Hhi. simpl.
    rewrite Hs, Hd. by rewrite !Z.eqb_refl.
  - rewrite Hv, Hx. done.
Qed.

Lemma shortest_from_found fuel m e n0 k s n :
  (candidate m e k n0 = Some s ∧ n = n0)
  ∨ (candidate m e k n0 = None ∧ candidate m e k (n0 + 1) = Some s ∧ n = n0 + 1) →
  shortest_from (S fuel) m e n0 k = (s, n, k).
Proof.
  simpl. intros [[-> ->]|(-> & -> & ->)]; done.
Qed.

Lemma shortest_from_skip fuel j m e n0 k :
  (∀ k', k ≤ k' < k + Z.of_nat j →
     candidate m e k' n0 = None ∧ candidate m e k' (n0 + 1) = None) →
  shortest_from (j + fuel) m e n0 k = shortest_from fuel m e n0 (k + Z.of_nat j).
Proof.
  revert k. induction j as [|j IH]; intros k Hnone.
  - simpl. f_equal. lia.
  - simpl. destruct (Hnone k ltac:(lia)) as [-> ->].
    rewrite IH; [f_equal; lia|]. intros k' Hk'. apply Hnone. lia.
Qed.

Lemma frac_of_pos m e a b : 0 < m → frac_of m e = (a, b) → 0 < a.
Proof.
  intros Hm. unfold frac_of. destruct (Z.leb_spec 0 e); intros [= <- <-]; [|done].
  apply Z.mul_pos_pos; [done|]. apply Z.pow_pos_nonneg; lia.
Qed.

(** A decimal of at most fifteen digits, of ordinary magnitude, is the
    shortest decimal of its own Number value. *)
Theorem shortest_of_decimal A B s0 k0 nY :
  0 < A → 0 < B →
  qval A B = D2R s0 (nY - k0) →
  1 ≤ k0 ≤ 15 → 10 ^ (k0 - 1) ≤ s0 < 10 ^ k0 → s0 mod 10 ≠ 0 →
  -300 ≤ nY ≤ 300 →
  ∃ m e, to_double A B = Finite false m e ∧ m ≠ 0 ∧ shortest m e = (s0, nY, k0).
Proof.
  intros HA HB Hy Hk0 Hs0 Hmod HnY.
  pose proof (D2R_magnitude s0 k0 nY Hs0 ltac:(lia)) as [Ly Uy]. rewrite <- Hy in Ly, Uy.
  assert (0 < s0 < 10 ^ 15) as Hs15.
  { assert (0 < 10 ^ (k0 - 1)) by (apply Z.pow_pos_nonneg; lia).
    assert (10 ^ k0 ≤ 10 ^ 15) by (apply Z.pow_le_mono_r; lia). lia. }
  (* the number is normal *)
  assert (bpow 2 (-1022) <= qval A B <= bpow 2 1000)%R as Hrange.
  { assert (bpow 2 (-1022) <= bpow 10 (-301))%R.
    { rewrite !(bpow_opp _ 1022), !(bpow_opp _ 301), !bpow_IZR by lia.
      apply Rinv_le_contravar; [apply IZR_pos; by vm_compute|].
      apply IZR_le. by vm_compute. }
    assert (bpow 10 300 <= bpow 2 1000)%R.
    { rewrite !bpow_IZR by lia. apply IZR_le. by vm_compute. }
    pose proof (bpow_le 10 (-301) (nY - 1) ltac:(lia) ltac:(lia)).
    pose proof (bpow_le 10 nY 300 ltac:(lia) ltac:(lia)). lra. }
  destruct (rounded A B) as [m e] eqn:Hr.
  pose proof (rounded_normal A B m e HA HB Hrange Hr) as [Hm He].
  pose proof (rounded_error A B m e HB Hr) as Herr.
  assert (to_double A B = Finite false m e) as Hd.
  { rewrite to_double_rounded, Hr by done.
    destruct (Z.eqb_spec m 0); [lia|]. destruct (Z.ltb_spec 971 e); [lia|done]. }
  exists m, e. split_and!; [done | lia |].
  rewrite Hy in Herr.
  pose proof (ulp_below_digit s0 (nY - k0) m e Hs15 ltac:(lia) Herr) as Hulp.
  set (g := bpow 10 (nY - k0)) in *. set (u := bpow 2 e) in *.
  pose proof (bpow_pos 10 (nY - k0) ltac:(lia)) as Pg. fold g in Pg.
  apply Rabs_le_bounds in Herr as Hxy.
  (* no shorter decimal reads back as the number *)
  assert (∀ k n s, 1 ≤ k ≤ 15 → candidate m e k n = Some s →
            n = nY ∧ k0 ≤ k ∧ (k = k0 → s = s0)) as Hcand.
  { intros k n s Hk Hc. apply candidate_Some in Hc as [Hs Herr']; [|lia..].
    assert (0 < s < 10 ^ 15) as Hs'.
    { assert (0 < 10 ^ (k - 1)) by (apply Z.pow_pos_nonneg; lia).
      assert (10 ^ k ≤ 10 ^ 15) by (apply Z.pow_le_mono_r; lia). lia. }
    pose proof (decimal_unique s (n - k) s0 (nY - k0) m e Hs' Hs15 ltac:(lia) Herr' Herr)
      as Heq.
    pose proof (decimal_same_magnitude s k n s0 k0 nY ltac:(lia) ltac:(lia) Hs Hs0 Heq)
      as ->.
    split_and!; [done | by eapply decimal_not_shorter |].
    intros ->. by apply D2R_inj in Heq. }
  (* the decimal itself does *)
  assert (candidate m e k0 nY = Some s0) as Hfound.
  { destruct (scale10 s0 1 (k0 - nY)) as [c c'] eqn:Hs.
    apply (candidate_intro m e k0 nY s0 c c'); [|done..|].
    - assert (F2R m e * bpow 10 (- (nY - k0)) - IZR s0
              = (F2R m e - D2R s0 (nY - k0)) * bpow 10 (- (nY - k0)))%R as ->.
      { unfold D2R. rewrite Rmult_minus_distr_r, Rmult_assoc, <- bpow_add by lia.
        replace (nY - k0 + - (nY - k0)) with 0 by lia. rewrite bpow_0. lra. }
      rewrite bpow_opp by lia. fold g.
      apply Rabs_def1.
      + apply Rmult_lt_reg_r with g; [done|].
        rewrite Rmult_assoc, Rinv_l by lra. lra.
      + apply Rmult_lt_reg_r with g; [done|].
        rewrite Rmult_assoc, Rinv_l by lra. lra.
    - replace (k0 - nY) with (- (nY - k0)) in Hs by lia.
      pose proof (scale10_pos _ _ _ _ (proj1 Hs15) Hs) as Hc.
      apply scale10_decimal in Hs as [Hc' Hv].
      rewrite <- Hd. apply to_double_ext; [done..|]. by rewrite Hv, Hy. }
  (* where the search looks *)
  unfold shortest. destruct (frac_of m e) as [a b] eqn:Hf.
  pose proof (frac_of_pos m e a b ltac:(lia) Hf) as Ha.
  apply frac_of_val in Hf as [Hb Hx].
  pose proof (mag10_spec a b Ha Hb) as [Ln Un]. rewrite Hx in Ln, Un.
  set (n0 := mag10 a b) in *.
  assert (nY = n0 ∨ nY = n0 + 1) as Hn0.
  { unfold F2R in Hxy. change (bpow 2 e) with u in Ln, Un, Hxy. assert (g <= bpow 10 (nY - 1))%R by (apply bpow_le; lia).
    assert (nY - 2 < n0).
    { apply (bpow_lt_inv 10); [lia|].
      assert (bpow 10 (nY - 1) = 10 * bpow 10 (nY - 2))%R.
      { replace (nY - 1) with (1 + (nY - 2)) by lia. rewrite bpow_add by lia.
        by rewrite (bpow_IZR 10 1) by lia. }
      pose proof (bpow_pos 10 (nY - 2) ltac:(lia)). lra. }
    assert (n0 - 1 < nY); [|lia].
    apply (bpow_lt_inv 10); [lia|].
    assert (D2R s0 (nY - k0) <= bpow 10 nY - g)%R; [|lra].
    unfold D2R. fold g.
    assert (bpow 10 nY = IZR (10 ^ k0) * g)%R as ->.
    { unfold g. rewrite <- bpow_IZR, <- bpow_add by lia. f_equal. lia. }
    assert (IZR s0 <= IZR (10 ^ k0) - 1)%R.
    { rewrite <- minus_IZR. apply IZR_le. lia. }
    nra. }
  replace 17%nat with ((Z.to_nat (k0 - 1)) + S (Z.to_nat (17 - k0)))%nat by lia.
  rewrite shortest_from_skip.
  - replace (1 + Z.of_nat (Z.to_nat (k0 - 1))) with k0 by lia.
    apply shortest_from_found. destruct Hn0 as [<-|Hn1]; [by left|].
    right. rewrite <- Hn1. split_and!; [|done..].
    destruct (candidate m e k0 n0) as [s|] eqn:Hc; [|done].
    apply Hcand in Hc as (-> & _); [lia | lia].
  - intros k Hk.
    split.
    + destruct (candidate m e k n0) as [s|] eqn:Hc; [|done].
      apply Hcand in Hc as (_ & Hle & _); lia.
    + destruct (candidate m e k (n0 + 1)) as [s|] eqn:Hc; [|done].
      apply Hcand in Hc as (_ & Hle & _); lia.
Qed.

(** ** Digit strings *)

Lemma digit_value_bounds d : is_digit d = true → 0 ≤ digit_value d ≤ 9.
Proof.
  unfold is_digit, digit_value. intros [H1 H2]%andb_true_iff.
  apply N.leb_le in H1, H2. lia.
Qed.

Lemma digit_value_zero d : digit_value d = 0 ↔ d = 48%N.
Proof. unfold digit_value. lia. Qed.

Lemma digit_of_value d : is_digit d = true → Z.to_N (48 + digit_value d) = d.
Proof. intros H. pose proof (digit_value_bounds d H). unfold digit_value in *. lia. Qed.

Lemma digits_value_acc acc ds :
  digits_value acc ds = acc * 10 ^ Z.of_nat (length ds) + digits_value 0 ds.
Proof.
  revert acc. induction ds as [|d ds IH]; intros acc; simpl digits_value.
  - simpl. lia.
  - rewrite IH, (IH (10 * 0 + digit_value d)).
    replace (Z.of_nat (length (d :: ds))) with (1 + Z.of_nat (length ds))
      by (simpl; lia).
    rewrite Z.pow_add_r by lia. lia.
Qed.

Lemma digits_value_fold acc a b :
  digits_value acc (a ++ b) = digits_value (digits_value acc a) b.
Proof. revert acc. induction a as [|d a IH]; intros acc; simpl; [done | apply IH]. Qed.

Lemma digits_value_app a b :
  digits_value 0 (a ++ b)
  = digits_value 0 a * 10 ^ Z.of_nat (length b) + digits_value 0 b.
Proof. rewrite digits_value_fold. apply digits_value_acc. Qed.

Lemma digits_value_snoc ds d :
  digits_value 0 (ds ++ [d]) = 10 * digits_value 0 ds + digit_value d.
Proof. rewrite digits_value_app. simpl. lia. Qed.

Lemma digits_value_bounds ds :
  forallb is_digit ds = true → 0 ≤ digits_value 0 ds < 10 ^ Z.of_nat (length ds).
Proof.
  induction ds as [|d ds IH] using rev_ind; [simpl; lia|].
  rewrite forallb_app. intros [Hds [Hd _]%andb_true_iff]%andb_true_iff.
  rewrite digits_value_snoc, length_app. simpl length.
  pose proof (digit_value_bounds d Hd). specialize (IH Hds).
  replace (Z.of_nat (length ds + 1)) with (Z.of_nat (length ds) + 1) by lia.
  rewrite Z.pow_add_r by lia. lia.
Qed.

Lemma digits_value_zeros t : digits_value 0 (replicate t 48%N) = 0.
Proof. induction t as [|t IH]; [done|]. simpl. exact IH. Qed.

Lemma forallb_replicate_zero t : forallb is_digit (replicate t 48%N) = true.
Proof. induction t as [|t IH]; [done|]. simpl. exact IH. Qed.

(** *** Leading zeros *)

Lemma strip_leading_zeros_spec ds :
  ds = replicate (leading_zeros ds) 48%N ++ strip_leading_zeros ds
  ∧ (length (strip_leading_zeros ds) ≤ length ds)%nat.
Proof.
  unfold leading_zeros. induction ds as [|d ds [IH1 IH2]]; [done|]. simpl.
  destruct (N.eqb_spec d 48) as [->|Hd].
  - replace (S (length ds) - length (strip_leading_zeros ds))%nat
      with (S (length ds - length (strip_leading_zeros ds))) by lia.
    simpl. split; [by rewrite <- IH1 | lia].
  - simpl. replace (length ds - length ds)%nat with 0%nat by lia. done.
Qed.

Lemma strip_leading_zeros_head ds d r :
  strip_leading_zeros ds = d :: r → d ≠ 48%N.
Proof.
  induction ds as [|x ds IH]; [done|]. simpl.
  destruct (N.eqb_spec x 48); [done|]. by intros [= -> _].
Qed.

Lemma strip_leading_zeros_value ds :
  digits_value 0 (strip_leading_zeros ds) = digits_value 0 ds.
Proof.
  destruct (strip_leading_zeros_spec ds) as [Heq _]. rewrite Heq at 2.
  rewrite digits_value_app, digits_value_zeros. lia.
Qed.

Lemma strip_leading_zeros_digits ds :
  forallb is_digit ds = true → forallb is_digit (strip_leading_zeros ds) = true.
Proof.
  intros H. destruct (strip_leading_zeros_spec ds) as [Heq _]. rewrite Heq in H.
  rewrite forallb_app in H. by apply andb_true_iff in H as [_ H].
Qed.

Lemma strip_leading_zeros_app a b :
  strip_leading_zeros (a ++ b)
  = if is_empty (strip_leading_zeros a) then strip_leading_zeros b
    else strip_leading_zeros a ++ b.
Proof.
  induction a as [|d a IH]; simpl; [by destruct (strip_leading_zeros b)|].
  by destruct (d =? 48)%N.
Qed.

Lemma strip_leading_zeros_id ds d r : ds = d :: r → d ≠ 48%N → strip_leading_zeros ds = ds.
Proof. intros -> Hd. simpl. by destruct (N.eqb_spec d 48). Qed.

(** *** Trailing zeros *)

Lemma strip_trailing_zeros_spec ds :
  ds = strip_trailing_zeros ds
       ++ replicate (length ds - length (strip_trailing_zeros ds)) 48%N
  ∧ (length (strip_trailing_zeros ds) ≤ length ds)%nat.
Proof.
  induction ds as [|d ds [IH1 IH2]]; [done|]. cbn [strip_trailing_zeros].
  destruct (strip_trailing_zeros ds) as [|x r] eqn:Hr.
  - cbn [is_empty andb length app] in *. rewrite Nat.sub_0_r in IH1.
    destruct (N.eqb_spec d 48) as [->|Hd]; cbn [length app].
    + rewrite Nat.sub_0_r. cbn [replicate]. split; [by rewrite <- IH1 | lia].
    + replace (S (length ds) - 1)%nat with (length ds) by lia.
      split; [by rewrite <- IH1 | lia].
  - cbn [is_empty andb length app] in *.
    change (S (length ds) - S (S (length r)))%nat with (length ds - S (length r))%nat.
    split; [by rewrite <- IH1 | lia].
Qed.

Lemma strip_trailing_zeros_last ds :
  last (strip_trailing_zeros ds) ≠ Some 48%N.
Proof.
  induction ds as [|d ds IH]; [done|]. simpl.
  destruct (strip_trailing_zeros ds) as [|x r] eqn:Hr; simpl.
  - destruct (N.eqb_spec d 48) as [->|Hd]; simpl; [done|]. by intros [= ->].
  - exact IH.
Qed.

Lemma strip_trailing_zeros_digits ds :
  forallb is_digit ds = true → forallb is_digit (strip_trailing_zeros ds) = true.
Proof.
  intros H. destruct (strip_trailing_zeros_spec ds) as [Heq _]. rewrite Heq in H.
  rewrite forallb_app in H. by apply andb_true_iff in H as [H _].
Qed.

Lemma strip_trailing_zeros_id ds :
  last ds ≠ Some 48%N → strip_trailing_zeros ds = ds.
Proof.
  induction ds as [|d ds IH]; [done|]. simpl. intros Hlast.
  destruct ds as [|x r].
  - simpl. destruct (N.eqb_spec d 48) as [->|]; [by destruct Hlast|done].
  - rewrite IH by done. done.
Qed.

Lemma strip_trailing_zeros_head d r :
  d ≠ 48%N → ∃ r', strip_trailing_zeros (d :: r) = d :: r'.
Proof.
  intros Hd. simpl. destruct (N.eqb_spec d 48); [done|].
  rewrite andb_false_r. eauto.
Qed.

(** *** Values of digit strings *)

Lemma digits_value_lower d r :
  forallb is_digit (d :: r) = true → d ≠ 48%N →
  10 ^ Z.of_nat (length r) ≤ digits_value 0 (d :: r).
Proof.
  simpl forallb. intros [Hd Hr]%andb_true_iff Hne.
  change (d :: r) with ([d] ++ r). rewrite digits_value_app.
  pose proof (digits_value_bounds r Hr). pose proof (digit_value_bounds d Hd).
  assert (digit_value d ≠ 0) by (by rewrite digit_value_zero).
  assert (0 < 10 ^ Z.of_nat (length r)) by (apply Z.pow_pos_nonneg; lia).
  simpl digits_value. nia.
Qed.

Lemma digits_value_mod10 ds :
  forallb is_digit ds = true → ds ≠ [] → last ds ≠ Some 48%N →
  digits_value 0 ds mod 10 ≠ 0.
Proof.
  destruct ds as [|d ds _] using rev_ind; [done|].
  rewrite forallb_app. intros [_ [Hd _]%andb_true_iff]%andb_true_iff _.
  rewrite last_snoc, digits_value_snoc. intros Hne.
  pose proof (digit_value_bounds d Hd).
  assert (digit_value d ≠ 0) by (rewrite digit_value_zero; congruence).
  assert ((10 * digits_value 0 ds + digit_value d) mod 10 = digit_value d) as ->; [|done].
  rewrite Z.add_comm, Z.mul_comm, Z.mod_add, Z.mod_small by lia. lia.
Qed.

Lemma dec_digits_value ds :
  forallb is_digit ds = true →
  dec_digits (length ds) (digits_value 0 ds) = ds.
Proof.
  induction ds as [|d ds IH] using rev_ind; [done|].
  rewrite forallb_app. intros [Hds [Hd _]%andb_true_iff]%andb_true_iff.
  rewrite length_app, Nat.add_comm. cbn [length Nat.add dec_digits].
  rewrite digits_value_snoc. pose proof (digit_value_bounds d Hd).
  set (v := digits_value 0 ds) in *.
  assert ((10 * v + digit_value d) / 10 = v) as ->.
  { rewrite Z.add_comm, Z.mul_comm, Z.div_add, Z.div_small by lia. lia. }
  assert ((10 * v + digit_value d) mod 10 = digit_value d) as ->.
  { rewrite Z.add_comm, Z.mul_comm, Z.mod_add, Z.mod_small by lia. lia. }
  by rewrite IH, digit_of_value.
Qed.

(** ** Numbers and their renderings *)

Lemma span_digits ds rest :
  forallb is_digit ds = true → stops is_digit rest = true →
  span is_digit (ds ++ rest) = (ds, rest).
Proof.
  intros Hds Hrest. induction ds as [|d ds IH].
  - destruct rest as [|x rest]; [reflexivity|]. cbn in *.
    by destruct (is_digit x).
  - cbn in *. apply andb_true_iff in Hds as [-> Hds]. by rewrite IH.
Qed.

Lemma span_digits_all ds :
  forallb is_digit ds = true → span is_digit ds = (ds, []).
Proof. intros Hds. rewrite <- (app_nil_r ds) at 1. by apply span_digits. Qed.

(** [parseFloat] reads digits with an optional decimal part as the exact
    rational they write, rounded. *)
Lemma parseFloat_number ip fd :
  ip ≠ [] → forallb is_digit ip = true → forallb is_digit fd = true →
  parseFloat (ip ++ fraction fd)
  = to_double (digits_value 0 (ip ++ fd)) (1 * 10 ^ Z.of_nat (length fd)).
Proof.
  intros Hne Hip Hfd. destruct ip as [|d ip]; [done|].
  pose proof Hip as [Hd _]%andb_true_iff.
  assert (parseFloat ((d :: ip) ++ fraction fd)
          = parse_unsigned ((d :: ip) ++ fraction fd)) as ->.
  { unfold parseFloat. cbn [app trim_start]. rewrite (digit_not_space d Hd).
    unfold is_digit in Hd. apply andb_true_iff in Hd as [H1 H2]. apply N.leb_le in H1, H2.
    destruct d as [|p]; [lia|]. do 6 (destruct p as [p|p|]; try done); lia. }
  unfold parse_unsigned.
  assert (starts_with (js "Infinity") ((d :: ip) ++ fraction fd) = false) as ->.
  { change (starts_with (js "Infinity") ((d :: ip) ++ fraction fd))
      with ((73 =? d)%N && starts_with (js "nfinity") (ip ++ fraction fd)).
    destruct (N.eqb_spec 73 d) as [<-|]; [discriminate Hd | done]. }
  rewrite span_digits by (done || apply stops_digit_fraction).
  unfold fraction. destruct fd as [|y fd]; cbn [is_empty].
  - cbn [is_empty andb]. rewrite app_nil_r. reflexivity.
  - change (js "." ++ y :: fd) with (46%N :: y :: fd). cbv iota.
    rewrite span_digits_all by done. cbn [is_empty andb parse_exponent].
    rewrite Z.sub_0_r. unfold scale10.
    destruct (Z.leb_spec 0 (Z.of_nat (length (y :: fd)))); [done|lia].
Qed.

Lemma D2R_pow10 s t f : 0 ≤ t → D2R (s * 10 ^ t) (- f) = D2R s (t - f).
Proof.
  intros Ht. rewrite (D2R_shift s (t - f) t) by done. f_equal. lia.
Qed.

(** The number written by the digits [ds] at one decimal exponent is
    rendered from the digits without their trailing zeros. *)
Lemma toString_decimal A B ds d0 r f :
  0 < B →
  ds = d0 :: r → d0 ≠ 48%N → forallb is_digit ds = true → (length ds ≤ 15)%nat →
  qval A B = D2R (digits_value 0 ds) (- f) →
  -300 ≤ Z.of_nat (length ds) - f ≤ 300 →
  toString (to_double A B)
  = format_number (digits_value 0 (strip_trailing_zeros ds))
                  (Z.of_nat (length ds) - f)
                  (Z.of_nat (length (strip_trailing_zeros ds))).
Proof.
  intros HB Hds Hd0 Hdig Hlen Hval Hmag.
  destruct (strip_trailing_zeros_spec ds) as [Hsplit Hle].
  set (ds' := strip_trailing_zeros ds) in *.
  set (t := (length ds - length ds')%nat) in *.
  destruct (strip_trailing_zeros_head d0 r Hd0) as [r' Hds'].
  rewrite <- Hds in Hds'. fold ds' in Hds'.
  pose proof (strip_trailing_zeros_digits ds Hdig) as Hdig'. fold ds' in Hdig'.
  pose proof (strip_trailing_zeros_last ds) as Hlast. fold ds' in Hlast.
  set (s0 := digits_value 0 ds').
  assert (digits_value 0 ds = s0 * 10 ^ Z.of_nat t) as Hs0.
  { rewrite Hsplit at 1. rewrite digits_value_app, digits_value_zeros, length_replicate.
    unfold s0. lia. }
  assert (10 ^ (Z.of_nat (length ds') - 1) ≤ s0 < 10 ^ Z.of_nat (length ds')) as Hbounds.
  { split; [|by apply digits_value_bounds]. unfold s0. rewrite Hds'.
    replace (Z.of_nat (length (d0 :: r')) - 1) with (Z.of_nat (length r'))
      by (simpl; lia).
    apply digits_value_lower; [by rewrite <- Hds' | done]. }
  assert (s0 mod 10 ≠ 0) as Hmod.
  { apply digits_value_mod10; [done | by rewrite Hds' | done]. }
  assert (0 < s0) as Hpos.
  { assert (0 < 10 ^ (Z.of_nat (length ds') - 1)); [|lia].
    apply Z.pow_pos_nonneg; [lia|]. rewrite Hds'. simpl. lia. }
  assert (0 < A) as HA.
  { apply (lt_IZR 0). apply qval_eq in Hval; [|done]. rewrite Hval.
    apply Rmult_lt_0_compat; [|by apply IZR_pos]. unfold D2R.
    apply Rmult_lt_0_compat; [|apply bpow_pos; lia].
    apply IZR_pos. rewrite Hs0. apply Z.mul_pos_pos; [done|].
    apply Z.pow_pos_nonneg; lia. }
  rewrite Hs0, D2R_pow10 in Hval by lia.
  assert (length ds' ≥ 1)%nat as Hk1 by (rewrite Hds'; simpl; lia).
  destruct (shortest_of_decimal A B s0 (Z.of_nat (length ds'))
              (Z.of_nat (length ds) - f)) as (m & e & Hd & Hm & Hshort);
    [done | done | | lia | done | done | lia |].
  { rewrite Hval. f_equal. lia. }
  rewrite Hd. unfold toString. destruct (Z.eqb_spec m 0); [done|].
  by rewrite Hshort.
Qed.

Lemma number_value ip fd :
  qval (digits_value 0 (ip ++ fd)) (1 * 10 ^ Z.of_nat (length fd))
  = D2R (digits_value 0 (significant ip fd))
        (- Z.of_nat (length (strip_trailing_zeros fd))).
Proof.
  unfold significant. rewrite strip_leading_zeros_value.
  destruct (strip_trailing_zeros_spec fd) as [Hsplit Hle].
  set (F := strip_trailing_zeros fd) in *.
  set (tz := (length fd - length F)%nat) in *.
  assert (digits_value 0 (ip ++ fd) = digits_value 0 (ip ++ F) * 10 ^ Z.of_nat tz) as ->.
  { rewrite Hsplit at 1. rewrite app_assoc, digits_value_app, digits_value_zeros.
    rewrite length_replicate. lia. }
  assert (1 * 10 ^ Z.of_nat (length fd)
          = 10 ^ Z.of_nat (length F) * 10 ^ Z.of_nat tz) as ->.
  { rewrite <- Z.pow_add_r by lia. rewrite Z.mul_1_l. f_equal. lia. }
  assert (0 < 10 ^ Z.of_nat (length F)) as P1 by (apply Z.pow_pos_nonneg; lia).
  assert (0 < 10 ^ Z.of_nat tz) as P2 by (apply Z.pow_pos_nonneg; lia).
  rewrite qval_mult_r by done. unfold D2R, qval.
  rewrite bpow_opp, bpow_IZR by lia. done.
Qed.

Lemma last_replicate_zero n : last (replicate (S n) 48%N) = Some 48%N.
Proof. induction n as [|n IH]; [done|]. exact IH. Qed.

(** Digits with an optional decimal part, read by [parseFloat] and written
    back by [toString], come out in canonical form when the number has at
    most fifteen significant digits and is zero or at least 0.000001. *)
Theorem number_rendering ip fd :
  ip ≠ [] → forallb is_digit ip = true → forallb is_digit fd = true →
  (length (significant ip fd) ≤ 15)%nat →
  strip_leading_zeros ip ≠ [] ∨ (leading_zeros (strip_trailing_zeros fd) ≤ 5)%nat →
  toString (parseFloat (ip ++ fraction fd)) = canonical ip fd.
Proof.
  intros Hne Hip Hfd Hsig Hsmall. rewrite parseFloat_number by done.
  pose proof (number_value ip fd) as Hval.
  pose proof (strip_trailing_zeros_digits fd Hfd) as HF.
  pose proof (strip_trailing_zeros_last fd) as HlastF.
  pose proof (strip_leading_zeros_digits ip Hip) as HI.
  assert (0 < 1 * 10 ^ Z.of_nat (length fd)) as HB.
  { rewrite Z.mul_1_l. apply Z.pow_pos_nonneg; lia. }
  unfold canonical. unfold significant in *.
  set (F := strip_trailing_zeros fd) in *. set (I := strip_leading_zeros ip) in *.
  rewrite strip_leading_zeros_app in Hval, Hsig. fold I in Hval, Hsig.
  destruct I as [|i0 I'] eqn:HeqI; cbn [is_empty] in *.
  - (* the integer part is zero *)
    destruct Hsmall as [|Hsmall]; [done|].
    destruct (strip_leading_zeros_spec F) as [HFsplit _].
    destruct (strip_leading_zeros F) as [|d0 r] eqn:Hds.
    + (* and so is the fraction *)
      assert (F = []) as ->.
      { rewrite app_nil_r in HFsplit. destruct (leading_zeros F) as [|n].
        - done.
        - rewrite HFsplit in HlastF. by rewrite last_replicate_zero in HlastF. }
      cbn [is_empty]. rewrite app_nil_r.
      replace (digits_value 0 (ip ++ fd)) with 0; [reflexivity|].
      apply qval_eq in Hval; [|done]. unfold D2R in Hval. simpl in Hval.
      rewrite Rmult_0_l, Rmult_0_l in Hval. by apply eq_IZR in Hval.
    + pose proof (strip_leading_zeros_head F d0 r Hds) as Hd0.
      pose proof (strip_leading_zeros_digits F HF) as Hdig. rewrite Hds in Hdig.
      assert (last (d0 :: r) ≠ Some 48%N) as Hlast.
      { rewrite HFsplit in HlastF. by rewrite last_app_cons in HlastF. }
      assert (length F = (leading_zeros F + length (d0 :: r))%nat) as HlenF.
      { rewrite HFsplit at 1. by rewrite length_app, length_replicate. }
      rewrite (toString_decimal _ _ (d0 :: r) d0 r (Z.of_nat (length F)));
        [|done..|lia].
      rewrite strip_trailing_zeros_id by done.
      unfold format_number. rewrite Nat2Z.id, dec_digits_value by done.
      set (n := Z.of_nat (length (d0 :: r)) - Z.of_nat (length F)).
      assert (n = - Z.of_nat (leading_zeros F)) as Hn by lia.
      assert (0 < Z.of_nat (length (d0 :: r))) by (simpl; lia).
      destruct (Z.leb_spec (Z.of_nat (length (d0 :: r))) n); [lia|].
      destruct (Z.ltb_spec 0 n); [lia|].
      destruct (Z.ltb_spec (-6) n); [|lia]. destruct (Z.leb_spec n 0); [|lia].
      cbn [andb].
      assert (is_empty F = false) as -> by (destruct F; [discriminate Hds | done]).
      unfold zeros. rewrite Hn, Z.opp_involutive, Nat2Z.id.
      rewrite <- HFsplit. reflexivity.
  - (* the integer part is not zero *)
    pose proof (strip_leading_zeros_head ip i0 I' HeqI) as Hi0.
    assert (forallb is_digit ((i0 :: I') ++ F) = true) as Hdig.
    { rewrite forallb_app. by rewrite HI, HF. }
    rewrite length_app in Hsig.
    rewrite (toString_decimal _ _ ((i0 :: I') ++ F) i0 (I' ++ F) (Z.of_nat (length F)));
      [| done | done | done | done | by rewrite length_app | exact Hval
       | rewrite length_app; lia].
    rewrite length_app.
    replace (Z.of_nat (length (i0 :: I') + length F) - Z.of_nat (length F))
      with (Z.of_nat (length (i0 :: I'))) by lia.
    assert (0 < Z.of_nat (length (i0 :: I'))) by (simpl; lia).
    unfold format_number. rewrite Nat2Z.id.
    rewrite dec_digits_value by (by apply strip_trailing_zeros_digits).
    destruct F as [|f0 F'] eqn:HeqF; cbn [is_empty].
    + (* an integer *)
      rewrite !app_nil_r in *.
      destruct (strip_trailing_zeros_spec (i0 :: I')) as [Hsplit Hle].
      destruct (Z.leb_spec (Z.of_nat (length (strip_trailing_zeros (i0 :: I'))))
                  (Z.of_nat (length (i0 :: I')))); [|lia].
      destruct (Z.leb_spec (Z.of_nat (length (i0 :: I'))) 21); [|simpl in *; lia].
      cbn [andb]. unfold zeros. rewrite <- Nat2Z.inj_sub, Nat2Z.id by done.
      by rewrite <- Hsplit.
    + (* a number with a fraction *)
      rewrite strip_trailing_zeros_id
        by (by rewrite last_app_cons).
      rewrite length_app.
      destruct (Z.leb_spec (Z.of_nat (length (i0 :: I') + length (f0 :: F')))
                  (Z.of_nat (length (i0 :: I')))); [simpl in *; lia|].
      destruct (Z.ltb_spec 0 (Z.of_nat (length (i0 :: I')))); [|lia].
      destruct (Z.leb_spec (Z.of_nat (length (i0 :: I'))) 21); [|simpl in *; lia].
      cbn [andb]. rewrite Nat2Z.id, take_app_length, drop_app_length. done.
Qed.

(** ** Chapter numbers *)

Lemma bonus_form_B s :
  bonus_form s → existsb (λ x, canon x =? 66)%N s = true.
Proof.
  intros (kw & ws & b & rest & -> & _ & _ & _ & Hb).
  apply ci_eq_head in Hb as (y & t & -> & Hy).
  rewrite !existsb_app. cbn [existsb]. rewrite Hy. cbn.
  by rewrite !orb_true_r.
Qed.

Lemma existsb_class_false (p q : N → bool) l :
  (∀ x, p x = true → q x = false) → forallb p l = true → existsb q l = false.
Proof.
  intros Hpq. induction l as [|x l IH]; [done|]. cbn.
  intros [Hx Hl]%andb_true_iff. by rewrite (Hpq x Hx), IH.
Qed.

Lemma existsb_canon (f : N → bool) l :
  existsb (λ x, f (canon x)) l = existsb f (canon <$> l).
Proof. induction l as [|x l IH]; [done|]. cbn. by rewrite IH. Qed.

Lemma space_not_B x : is_space x = true → (canon x =? 66)%N = false.
Proof.
  intros Hx. apply N.eqb_neq. intros Hc.
  rewrite letter_not_space in Hx; [done|]. rewrite Hc. lia.
Qed.

Lemma digit_not_B x : is_digit x = true → (canon x =? 66)%N = false.
Proof.
  unfold is_digit. intros [H1 H2]%andb_true_iff. apply N.leb_le in H1, H2.
  unfold canon. replace (97 <=? x)%N with false by (symmetry; apply N.leb_gt; lia).
  cbn [andb]. apply N.eqb_neq. lia.
Qed.

(** A chapter number is not a bonus chapter. *)
Lemma chapter_not_bonus kw ws ip fd :
  ci_eq kw (js "Ch.") ∨ ci_eq kw (js "Chapter") →
  forallb is_space ws = true →
  forallb is_digit ip = true → forallb is_digit fd = true →
  ¬ bonus_form (kw ++ ws ++ ip ++ fraction fd).
Proof.
  intros Hkw Hws Hip Hfd Hbonus%bonus_form_B.
  rewrite !existsb_app in Hbonus.
  rewrite (existsb_class_false is_space _ ws space_not_B Hws) in Hbonus.
  rewrite (existsb_class_false is_digit _ ip digit_not_B Hip) in Hbonus.
  assert (existsb (λ x, canon x =? 66)%N (fraction fd) = false) as Hf.
  { unfold fraction. destruct fd as [|y fd]; [done|]. cbn [is_empty].
    change (js "." ++ y :: fd) with (46%N :: y :: fd).
    change (existsb ?f (46%N :: ?l)) with (existsb f l).
    exact (existsb_class_false is_digit _ (y :: fd) digit_not_B Hfd). }
  rewrite Hf in Hbonus.
  rewrite (existsb_canon (λ y, y =? 66)%N) in Hbonus.
  unfold ci_eq in Hkw. by destruct Hkw as [Hkw|Hkw]; rewrite Hkw in Hbonus.
Qed.

(** C1, as the code has it.  For a display name made of an optional
    volume prefix, "Ch." or "Chapter" in any case, optional white space and
    a number with an optional decimal part, [parseChapterNumber] returns
    the canonical decimal rendering of the number, provided the number has
    at most fifteen significant digits and is zero or at least 0.000001. *)
Theorem parseChapterNumber_canonical vol kw ws ip fd :
  vol = [] ∨ volume_prefix vol →
  ci_eq kw (js "Ch.") ∨ ci_eq kw (js "Chapter") →
  forallb is_space ws = true →
  ip ≠ [] → forallb is_digit ip = true → forallb is_digit fd = true →
  (length (significant ip fd) ≤ 15)%nat →
  strip_leading_zeros ip ≠ [] ∨ (leading_zeros (strip_trailing_zeros fd) ≤ 5)%nat →
  parseChapterNumber (VStr (vol ++ kw ++ ws ++ ip ++ fraction fd))
  = Ok (canonical ip fd).
Proof.
  intros Hvol Hkw Hws Hne Hip Hfd Hsig Hsmall.
  set (c := kw ++ ws ++ ip ++ fraction fd).
  assert (∃ x t, c = x :: t ∧ canon x = 67%N) as (x & t & Hc & Hx).
  { destruct Hkw as [Hkw|Hkw]; apply ci_eq_head in Hkw as (x & t & -> & Hx);
      by exists x, (t ++ ws ++ ip ++ fraction fd). }
  rewrite parseChapterNumber_string.
  assert (is_empty (vol ++ c) = false) as ->.
  { rewrite Hc. by destruct vol. }
  assert (replace re_volume (vol ++ c) [] = c) as Hclean.
  { apply replace_volume_opt; [done|]. exists x, t. rewrite Hx.
    split_and!; [done | lia | lia | done]. }
  cbv zeta. rewrite Hclean.
  destruct (exec re_bonus c) as [b|] eqn:Hb.
  { apply exec_bonus_inv in Hb. by apply chapter_not_bonus in Hb. }
  destruct (exec_chapter kw ws ip fd Hkw Hws Hne Hip Hfd) as [e He].
  fold c in He. rewrite He. cbv iota beta.
  assert (is_empty (ip ++ fraction fd) = false) as -> by (by destruct ip).
  cbn [negb]. by rewrite number_rendering.
Qed.

Lemma parseChapterNumber_canonical_witness :
  volume_prefix (js "Vol.02 ")
  ∧ parseChapterNumber (VStr (js "Vol.02 " ++ js "Chapter" ++ js " " ++ js "003" ++ fraction []))
    = Ok (js "3").
Proof.
  assert (volume_prefix (js "Vol.02 ")) as Hvol.
  { exists (js "Vol."), [], (js "02"), (js " "). by split_and!. }
  split; [exact Hvol|].
  apply (parseChapterNumber_canonical (js "Vol.02 ") (js "Chapter") (js " ") (js "003") []).
  - right. exact Hvol.
  - right. reflexivity.
  - reflexivity.
  - discriminate.
  - reflexivity.
  - reflexivity.
  - vm_compute. lia.
  - left. discriminate.
Defined.

(** C1 fails as stated: the sixteen digits of 9007199254740993 do not
    survive the passage through a binary64 number. *)
Lemma parseChapterNumber_inexact :
  parseChapterNumber (VStr (js "Chapter 9007199254740993")) = Ok (js "9007199254740992")
  ∧ canonical (js "9007199254740993") [] = js "9007199254740993"
  ∧ js "9007199254740992" ≠ js "9007199254740993".
Proof. split_and!; [by vm_compute | by vm_compute | discriminate]. Qed.

(** C6.  A display name that is "Chapter", white space and "Bonus" in any
    case, with or without a volume prefix before it, gives the literal
    "Chapter Bonus".  A display name in which no pattern is recognised
    (once its volume prefix, if it has one, is set aside, it neither has
    the bonus form nor contains a chapter number) is returned as it is. *)
Theorem parseChapterNumber_special :
  parseChapterNumber (VStr (js "Chapter Bonus")) = Ok (js "Chapter Bonus")
  ∧ parseChapterNumber (VStr (js "Omake")) = Ok (js "Omake")
  ∧ (∀ vol c, vol = [] ∨ volume_prefix vol → bonus_form c →
       parseChapterNumber (VStr (vol ++ c)) = Ok (js "Chapter Bonus"))
  ∧ (∀ d, (∀ vol rest, volume_prefix vol → d ≠ vol ++ rest) →
       ¬ bonus_form d → ¬ has_chapter_number d →
       parseChapterNumber (VStr d) = Ok d)
  ∧ (∀ vol c, volume_prefix vol → stops is_space c = true →
       ¬ bonus_form c → ¬ has_chapter_number c →
       parseChapterNumber (VStr (vol ++ c)) = Ok (vol ++ c)).
Proof.
  assert (∀ d c, replace re_volume d [] = c → ¬ bonus_form c → ¬ has_chapter_number c →
            parseChapterNumber (VStr d) = Ok d) as Hfallback.
  { intros d c Hc Hbonus Hchapter. rewrite parseChapterNumber_string.
    destruct d as [|x d]; [done|]. cbv [is_empty]. cbv zeta. rewrite Hc.
    destruct (exec re_bonus c) as [b|] eqn:Hb.
    { by apply exec_bonus_inv in Hb. }
    destruct (exec re_chapter c) as [n|] eqn:Hn; [|done].
    by apply exec_chapter_inv in Hn. }
  split_and!.
  - by vm_compute.
  - by vm_compute.
  - intros vol c Hvol Hc. rewrite parseChapterNumber_string.
    assert (replace re_volume (vol ++ c) [] = c) as Hclean.
    { apply replace_volume_opt; [done|].
      apply bonus_form_head in Hc as (x & t & -> & Hx).
      exists x, t. rewrite Hx. split_and!; [done | lia | lia | done]. }
    destruct (vol ++ c) as [|y l] eqn:Hd.
    { apply app_eq_nil in Hd as [_ ->].
      by apply bonus_form_head in Hc as (x & t & [=] & _). }
    cbv [is_empty]. cbv zeta. rewrite Hclean.
    by destruct (exec_bonus c Hc) as [b ->].
  - intros d Hvol. apply Hfallback. by apply replace_no_volume.
  - intros vol c Hvol Hc. apply Hfallback. by apply replace_volume.
Qed.

Lemma parseChapterNumber_special_witness :
  (∀ vol rest, volume_prefix vol → js "Omake 2" ≠ vol ++ rest)
  ∧ ¬ bonus_form (js "Omake 2")
  ∧ ¬ has_chapter_number (js "Omake 2")
  ∧ parseChapterNumber (VStr (js "Omake 2")) = Ok (js "Omake 2").
Proof.
  assert (∀ vol rest, volume_prefix vol → js "Omake 2" ≠ vol ++ rest) as Hvol.
  { intros vol rest (x & t & -> & Hx)%volume_prefix_head [= <- _]. discriminate Hx. }
  assert (¬ bonus_form (js "Omake 2")) as Hbonus.
  { intros (x & t & [= <- _] & Hx)%bonus_form_head. discriminate Hx. }
  assert (¬ has_chapter_number (js "Omake 2")) as Hchapter.
  { intros H%has_chapter_number_C. discriminate H. }
  split_and!; [done..|].
  exact (proj1 (proj2 (proj2 (proj2 parseChapterNumber_special)))
           (js "Omake 2") Hvol Hbonus Hchapter).
Defined.

(** ** The operations on a response *)

Section Operations.

Variable fetch : request → fetch_outcome.
Variable toISOString : value → result jsstring.
Variables (status : Z) (body : value).
Hypothesis fetch_answers : ∀ req, fetch req = Responded status (Some body).
Hypothesis status_ok : 200 ≤ status ≤ 299.

Lemma search_entries opts items :
  nullish opts = false →
  search_items body = VArr items →
  forallb search_item_ok items = true →
  Forall2 (λ data entry, search_entry data = Ok entry)
          (payloads items) (search fetch opts).
Proof.
  intros Hopts Hitems Hok. unfold search, get. rewrite Hopts. simpl.
  rewrite (graphqlRequest_ok fetch status body) by done. simpl.
  rewrite Hitems. simpl.
  destruct (search_loop_total items [] Hok) as [out Hout]. rewrite Hout. simpl.
  by apply search_loop_app in Hout as (entries & -> & Hall).
Qed.

Lemma findChapters_entries mangaId records :
  chapter_list body = VArr records →
  forallb (chapter_record_ok toISOString) records = true →
  length (findChapters fetch toISOString mangaId) = length (payloads records)
  ∧ ∀ i data, payloads records !! i = Some data →
      ∃ entry, findChapters fetch toISOString mangaId !! i = Some entry
        ∧ chapter_entry toISOString data i = Ok entry.
Proof.
  intros Hlist Hok. unfold findChapters.
  rewrite (graphqlRequest_ok fetch status body) by done. simpl.
  rewrite Hlist. simpl.
  destruct (chapters_loop_total toISOString records [] Hok) as [out Hout].
  rewrite Hout. simpl.
  by apply chapters_loop_app in Hout as (entries & -> & Hlen & Hall).
Qed.

Lemma findChapters_entry_of mangaId records i entry :
  chapter_list body = VArr records →
  forallb (chapter_record_ok toISOString) records = true →
  findChapters fetch toISOString mangaId !! i = Some entry →
  ∃ data, payloads records !! i = Some data
    ∧ chapter_entry toISOString data i = Ok entry.
Proof.
  intros Hlist Hok Hi.
  destruct (findChapters_entries mangaId records Hlist Hok) as [Hlen Hall].
  assert (is_Some (payloads records !! i)) as [data Hdata].
  { apply lookup_lt_is_Some. rewrite <- Hlen. by eapply lookup_lt_Some. }
  exists data. split; [done|].
  apply Hall in Hdata as (e & He & Hentry). by rewrite Hi in He; injection He as <-.
Qed.

End Operations.

(** The indices of the entries of [findChapters] count from 0, whatever
    the transport did. *)
Lemma findChapters_index fetch toISOString mangaId i entry :
  findChapters fetch toISOString mangaId !! i = Some entry →
  ChapterDetails.index entry = i.
Proof.
  unfold findChapters.
  destruct (graphqlRequest _ _ _) as [result|]; simpl; [|done].
  destruct (iterate _) as [records|]; simpl; [|done].
  destruct (chapters_loop _ _ _) as [out|] eqn:Hloop; simpl; [|done].
  intros Hi. eapply chapters_loop_index; [|exact Hloop|exact Hi].
  intros j e'. by rewrite lookup_nil.
Qed.

Lemma search_loop_skip before item after results :
  nullish item = false →
  truthy (prop item "data") = false →
  search_loop (before ++ item :: after) results = search_loop (before ++ after) results.
Proof.
  intros Hitem Hdata. revert results.
  induction before as [|x before IH]; intros results; simpl.
  - unfold get. by rewrite Hitem; simpl; rewrite Hdata.
  - destruct (get x "data") as [d|]; simpl; [|done].
    destruct (negb (truthy d)); [done|].
    destruct (search_entry d); simpl; [apply IH | done].
Qed.

Lemma chapters_loop_skip toISOString before record after chapters :
  nullish record = false →
  truthy (prop record "data") = false →
  chapters_loop toISOString (before ++ record :: after) chapters
  = chapters_loop toISOString (before ++ after) chapters.
Proof.
  intros Hrec Hdata. revert chapters.
  induction before as [|x before IH]; intros chapters; simpl.
  - unfold get. by rewrite Hrec; simpl; rewrite Hdata.
  - destruct (get x "data") as [d|]; simpl; [|done].
    destruct (negb (truthy d)); [done|].
    destruct (chapter_entry _ d _); simpl; [apply IH | done].
Qed.

(** ** The contract of the provider *)

(** C7.  [buildUrl] by cases: the empty string gives the empty string; a
    string that starts with [http] is returned as it is; a string that
    starts with [/] is prefixed with the origin [https://mangapark.io];
    any other non-empty string is returned as it is. *)
Theorem buildUrl_cases (path : jsstring) :
  (path = [] → buildUrl (VStr path) = Ok [])
  ∧ (js "http" `prefix_of` path → buildUrl (VStr path) = Ok path)
  ∧ (js "/" `prefix_of` path →
     buildUrl (VStr path) = Ok (js "https://mangapark.io" ++ path))
  ∧ (path ≠ [] → ¬ js "http" `prefix_of` path → ¬ js "/" `prefix_of` path →
     buildUrl (VStr path) = Ok path).
Proof.
  split_and!.
  - by intros ->.
  - apply buildUrl_http.
  - apply buildUrl_rooted.
  - apply buildUrl_other.
Qed.

Lemma buildUrl_cases_witness :
  js "/" `prefix_of` js "/covers/a.png"
  ∧ buildUrl (VStr (js "/covers/a.png")) = Ok (js "https://mangapark.io/covers/a.png").
Proof.
  assert (js "/" `prefix_of` js "/covers/a.png") as H.
  { exists (js "covers/a.png"). reflexivity. }
  split; [exact H|].
  exact (proj1 (proj2 (proj2 (buildUrl_cases (js "/covers/a.png")))) H).
Defined.

(** C5.  When the request fails at the network boundary (no response, a
    status that is not a success, or a body that does not parse), each of
    [search], [findChapters] and [findChapterPages] returns the empty
    sequence; being total functions into lists, none of them raises. *)
Theorem failure_gives_empty fetch toISOString opts mangaId chapterId :
  (∀ req, failed (fetch req) = true) →
  search fetch opts = []
  ∧ findChapters fetch toISOString mangaId = []
  ∧ findChapterPages fetch chapterId = [].
Proof.
  intros Hfail.
  assert (∀ A (f : value → result (list A)) query variables,
            try_catch (graphqlRequest fetch query variables ≫= f) [] = []) as Hreq.
  { intros A f query variables.
    by destruct (graphqlRequest_failed fetch query variables Hfail) as [err ->]. }
  split_and!.
  - unfold search. destruct (get opts "query") as [q|]; [apply Hreq | done].
  - apply Hreq.
  - apply Hreq.
Qed.

Lemma failure_gives_empty_witness :
  search (respond 503 (search_body sample_search_items)) (obj [("query", VStr (js "Foo"))]) = []
  ∧ findChapters (respond 503 (search_body sample_search_items)) sample_date (VStr (js "77")) = []
  ∧ findChapterPages (respond 503 (search_body sample_search_items)) (VStr (js "c1")) = [].
Proof.
  apply (failure_gives_empty (respond 503 (search_body sample_search_items))).
  intros req. reflexivity.
Defined.

(** C8.  For a page response whose URL list is u_0 .. u_(n-1),
    [findChapterPages] returns exactly n pages; the i-th has url u_i,
    index i and the fixed request headers. *)
Theorem findChapterPages_in_order fetch chapterId status body urls :
  (∀ req, fetch req = Responded status (Some body)) →
  200 ≤ status ≤ 299 →
  url_list body = VArr urls →
  length (findChapterPages fetch chapterId) = length urls
  ∧ ∀ i, findChapterPages fetch chapterId !! i
         = (λ u, {| ChapterPage.url := u; ChapterPage.index := i;
                    ChapterPage.headers := DEFAULT_HEADERS |}) <$> urls !! i.
Proof.
  intros Hfetch Hok Hurls. unfold findChapterPages.
  rewrite (graphqlRequest_ok fetch status body) by done. simpl.
  rewrite Hurls. simpl. split; [apply length_imap|].
  intros i. apply list_lookup_imap.
Qed.

Lemma findChapterPages_in_order_witness :
  let urls := [VStr (js "https://s1/a.jpg"); VStr (js "https://s1/b.jpg")] in
  let pages := findChapterPages (respond 200 (pages_body urls)) (VStr (js "c1")) in
  length pages = 2%nat
  ∧ ∀ i, pages !! i
         = (λ u, {| ChapterPage.url := u; ChapterPage.index := i;
                    ChapterPage.headers := DEFAULT_HEADERS |}) <$> urls !! i.
Proof.
  intros urls pages.
  apply (findChapterPages_in_order (respond 200 (pages_body urls)) (VStr (js "c1"))
           200 (pages_body urls) urls).
  - intros req. reflexivity.
  - lia.
  - reflexivity.
Defined.

(** C4.  For a chapter-list response, the entries of [findChapters] are
    in the order of the response and are not sorted again: the sequence of
    their identifiers is the sequence of the identifiers of the server's
    records, and the index of each entry is its position. *)
Theorem findChapters_server_order fetch toISOString mangaId status body records :
  (∀ req, fetch req = Responded status (Some body)) →
  200 ≤ status ≤ 299 →
  chapter_list body = VArr records →
  forallb (chapter_record_ok toISOString) records = true →
  ChapterDetails.id <$> findChapters fetch toISOString mangaId
  = (λ data, prop data "id") <$> payloads records
  ∧ ∀ i entry, findChapters fetch toISOString mangaId !! i = Some entry →
      ChapterDetails.index entry = i.
Proof.
  intros Hfetch Hok Hlist Hrec. split; [|apply findChapters_index].
  destruct (findChapters_entries fetch toISOString status body Hfetch Hok
              mangaId records Hlist Hrec) as [Hlen Hall].
  apply list_eq. intros i. rewrite !list_lookup_fmap.
  destruct (payloads records !! i) as [data|] eqn:Hdata; simpl.
  - apply Hall in Hdata as (entry & -> & Hentry). simpl.
    by apply chapter_entry_fields in Hentry as (-> & _).
  - apply lookup_ge_None in Hdata. rewrite <- Hlen in Hdata.
    apply lookup_ge_None in Hdata. by rewrite Hdata.
Qed.

Lemma findChapters_server_order_witness :
  let chapters := findChapters (respond 200 (chapters_body sample_records))
                               sample_date (VStr (js "77")) in
  ChapterDetails.id <$> chapters = [VStr (js "c1"); VStr (js "c2")]
  ∧ ∀ i entry, chapters !! i = Some entry → ChapterDetails.index entry = i.
Proof.
  intros chapters.
  apply (findChapters_server_order (respond 200 (chapters_body sample_records))
           sample_date (VStr (js "77")) 200 (chapters_body sample_records)
           sample_records).
  - intros req. reflexivity.
  - lia.
  - reflexivity.
  - vm_compute. reflexivity.
Defined.

(** C9.  An item whose [data] is missing is skipped by [search] and by
    [findChapters]: the result is what it would be had the item not been
    in the response.  The indices of the entries [findChapters] returns
    are 0, 1, ..., so they count the entries that were pushed, not the
    records of the response. *)
Theorem absent_data_skipped toISOString opts mangaId status body body' before item after :
  200 ≤ status ≤ 299 →
  nullish item = false →
  truthy (prop item "data") = false →
  (search_items body = VArr (before ++ item :: after) →
   search_items body' = VArr (before ++ after) →
   search (respond status body) opts = search (respond status body') opts)
  ∧ (chapter_list body = VArr (before ++ item :: after) →
     chapter_list body' = VArr (before ++ after) →
     findChapters (respond status body) toISOString mangaId
     = findChapters (respond status body') toISOString mangaId)
  ∧ (∀ fetch,
       ChapterDetails.index <$> findChapters fetch toISOString mangaId
       = seq 0 (length (findChapters fetch toISOString mangaId))).
Proof.
  intros Hok Hitem Hdata. split_and!.
  - intros Hbody Hbody'. unfold search.
    destruct (get opts "query") as [q|]; [|done]. cbv [mbind result_bind].
    rewrite (graphqlRequest_ok (respond status body) status body) by done.
    rewrite (graphqlRequest_ok (respond status body') status body') by done.
    rewrite Hbody, Hbody'. cbv [iterate]. by rewrite search_loop_skip.
  - intros Hbody Hbody'. unfold findChapters. cbv [mbind result_bind].
    rewrite (graphqlRequest_ok (respond status body) status body) by done.
    rewrite (graphqlRequest_ok (respond status body') status body') by done.
    rewrite Hbody, Hbody'. cbv [iterate]. by rewrite chapters_loop_skip.
  - intros fetch. apply list_eq. intros i. rewrite list_lookup_fmap.
    destruct (findChapters fetch toISOString mangaId !! i) as [entry|] eqn:Hi; simpl.
    + rewrite (findChapters_index _ _ _ _ _ Hi). symmetry.
      apply lookup_seq. split; [done|]. by eapply lookup_lt_Some.
    + symmetry. apply lookup_ge_None. rewrite length_seq. by apply lookup_ge_None.
Qed.

Lemma absent_data_skipped_witness :
  let with_gap := [record_untitled; obj []; record_titled] in
  let without := [record_untitled; record_titled] in
  findChapters (respond 200 (chapters_body with_gap)) sample_date (VStr (js "77"))
  = findChapters (respond 200 (chapters_body without)) sample_date (VStr (js "77")).
Proof.
  intros with_gap without.
  apply (absent_data_skipped sample_date VNull (VStr (js "77")) 200
           (chapters_body with_gap) (chapters_body without)
           [record_untitled] (obj []) [record_titled]).
  - lia.
  - reflexivity.
  - reflexivity.
  - reflexivity.
  - reflexivity.
Defined.

(** C10.  [findChapters] treats a time stamp of 0 as a missing one: when
    [dateModify] is 0 (or missing) the entry is dated by [dateCreate], and
    when that is 0 (or missing) too, [updatedAt] is [undefined], not the
    string of the epoch. *)
Theorem zero_timestamp_absent fetch toISOString mangaId status body records i entry data :
  (∀ req, fetch req = Responded status (Some body)) →
  200 ≤ status ≤ 299 →
  chapter_list body = VArr records →
  forallb (chapter_record_ok toISOString) records = true →
  findChapters fetch toISOString mangaId !! i = Some entry →
  payloads records !! i = Some data →
  zero_or_absent (prop data "dateModify") →
  (truthy (prop data "dateCreate") = true →
   ∃ iso, toISOString (prop data "dateCreate") = Ok iso
          ∧ ChapterDetails.updatedAt entry = VStr iso)
  ∧ (zero_or_absent (prop data "dateCreate") →
     ChapterDetails.updatedAt entry = VUndef).
Proof.
  intros Hfetch Hok Hlist Hrec Hi Hdata Hmod.
  destruct (findChapters_entry_of fetch toISOString status body Hfetch Hok
              mangaId records i entry Hlist Hrec Hi) as (data' & Hdata' & Hentry).
  rewrite Hdata in Hdata'. injection Hdata' as <-.
  apply chapter_entry_fields in Hentry as (_ & _ & Hupd).
  assert (∀ v, zero_or_absent v → truthy v = false) as Hfalsy.
  { intros v [-> | [-> | (neg & e & ->)]]; reflexivity. }
  assert (timestamp_of data = prop data "dateCreate") as Hts.
  { unfold timestamp_of, or_else. by rewrite (Hfalsy _ Hmod). }
  rewrite Hts in Hupd. split.
  - intros Hcreate. by rewrite Hcreate in Hupd.
  - intros Hcreate. by rewrite (Hfalsy _ Hcreate) in Hupd.
Qed.

Lemma zero_timestamp_absent_witness :
  findChapters (respond 200 (chapters_body sample_records)) sample_date (VStr (js "77"))
    !! 1%nat = Some entry_titled
  ∧ payloads sample_records !! 1%nat = Some (prop record_titled "data")
  ∧ zero_or_absent (prop (prop record_titled "data") "dateModify")
  ∧ ∃ iso, sample_date (prop (prop record_titled "data") "dateCreate") = Ok iso
           ∧ ChapterDetails.updatedAt entry_titled = VStr iso.
Proof.
  assert (zero_or_absent (prop (prop record_titled "data") "dateModify")) as Hzero.
  { right. right. exists false, 0. reflexivity. }
  split_and!; [reflexivity | reflexivity | exact Hzero |].
  apply (zero_timestamp_absent (respond 200 (chapters_body sample_records))
           sample_date (VStr (js "77")) 200 (chapters_body sample_records)
           sample_records 1%nat entry_titled (prop record_titled "data")).
  - intros req. reflexivity.
  - lia.
  - reflexivity.
  - reflexivity.
  - reflexivity.
  - reflexivity.
  - exact Hzero.
  - reflexivity.
Defined.

(** C3, as the code has it.  The title of an entry of [findChapters] is
    the [title] field of its record, whatever that is: [undefined] when
    the record has no title.  The display name is not used for it. *)
Theorem findChapters_title fetch toISOString mangaId status body records :
  (∀ req, fetch req = Responded status (Some body)) →
  200 ≤ status ≤ 299 →
  chapter_list body = VArr records →
  forallb (chapter_record_ok toISOString) records = true →
  ChapterDetails.title <$> findChapters fetch toISOString mangaId
  = (λ data, prop data "title") <$> payloads records.
Proof.
  intros Hfetch Hok Hlist Hrec.
  destruct (findChapters_entries fetch toISOString status body Hfetch Hok
              mangaId records Hlist Hrec) as [Hlen Hall].
  apply list_eq. intros i. rewrite !list_lookup_fmap.
  destruct (payloads records !! i) as [data|] eqn:Hdata; simpl.
  - apply Hall in Hdata as (entry & -> & Hentry). simpl.
    by apply chapter_entry_fields in Hentry as (_ & -> & _).
  - apply lookup_ge_None in Hdata. rewrite <- Hlen in Hdata.
    apply lookup_ge_None in Hdata. by rewrite Hdata.
Qed.

Lemma findChapters_title_witness :
  ChapterDetails.title
    <$> findChapters (respond 200 (chapters_body sample_records)) sample_date
                     (VStr (js "77"))
  = [VUndef; VStr (js "Second")].
Proof.
  apply (findChapters_title (respond 200 (chapters_body sample_records))
           sample_date (VStr (js "77")) 200 (chapters_body sample_records)
           sample_records).
  - intros req. reflexivity.
  - lia.
  - reflexivity.
  - reflexivity.
Defined.

(** C3 fails as stated: the first record has the display name "Chapter 1"
    and no title; the title of its entry is [undefined], where a fallback
    to the display name would give "Chapter 1". *)
Lemma findChapters_title_no_fallback :
  ChapterDetails.title
    <$> findChapters (respond 200 (chapters_body sample_records)) sample_date
                     (VStr (js "77"))
  = [VUndef; VStr (js "Second")]
  ∧ (λ data, or_else (prop data "title") (prop data "dname")) <$> payloads sample_records
    = [VStr (js "Chapter 1"); VStr (js "Second")].
Proof. split; reflexivity. Qed.

(** C2, as the code has it.  For an item of a search response, the image
    of its entry is resolved from the cover field by [buildUrl]: a missing
    or empty cover gives no image; a cover that starts with [http] is kept
    as it is; a cover that starts with [/] is prefixed with the origin;
    and any other non-empty cover is kept as it is too. *)
Theorem search_cover_image fetch opts status body items i entry data :
  (∀ req, fetch req = Responded status (Some body)) →
  200 ≤ status ≤ 299 →
  nullish opts = false →
  search_items body = VArr items →
  forallb search_item_ok items = true →
  search fetch opts !! i = Some entry →
  payloads items !! i = Some data →
  (truthy (prop data "urlCoverOri") = false → SearchResult.image entry = VUndef)
  ∧ (∀ cover, prop data "urlCoverOri" = VStr cover →
       (js "http" `prefix_of` cover → SearchResult.image entry = VStr cover)
       ∧ (js "/" `prefix_of` cover →
          SearchResult.image entry = VStr (js "https://mangapark.io" ++ cover))
       ∧ (cover ≠ [] → ¬ js "http" `prefix_of` cover → ¬ js "/" `prefix_of` cover →
          SearchResult.image entry = VStr cover)).
Proof.
  intros Hfetch Hok Hopts Hitems Hwf Hi Hdata.
  pose proof (search_entries fetch status body Hfetch Hok opts items Hopts Hitems Hwf)
    as Hall.
  pose proof (Forall2_lookup_lr _ _ _ _ _ _ Hall Hdata Hi) as Hentry.
  unfold search_entry in Hentry. apply bind_Ok in Hentry as (built & Hbuilt & [= <-]).
  cbn [SearchResult.image]. unfold or_else in Hbuilt. split.
  - intros Hfalsy. rewrite Hfalsy in Hbuilt. by injection Hbuilt as <-.
  - intros cover Hcover. rewrite Hcover in Hbuilt.
    pose proof (buildUrl_http cover) as Hhttp.
    pose proof (buildUrl_rooted cover) as Hroot.
    pose proof (buildUrl_other cover) as Hother.
    destruct cover as [|c cover].
    { split_and!; [by intros [k Hk] | by intros [k Hk] | done]. }
    change (truthy (VStr (c :: cover))) with true in Hbuilt. cbv iota in Hbuilt.
    split_and!.
    + intros Hp. rewrite (Hhttp Hp) in Hbuilt. by injection Hbuilt as <-.
    + intros Hp. rewrite (Hroot Hp) in Hbuilt. by injection Hbuilt as <-.
    + intros Hne Hnh Hnr. rewrite (Hother Hne Hnh Hnr) in Hbuilt.
      by injection Hbuilt as <-.
Qed.

Lemma search_cover_image_witness :
  search (respond 200 (search_body sample_search_items)) (obj [("query", VStr (js "Foo"))])
    !! 0%nat = Some entry_foo
  ∧ payloads sample_search_items !! 0%nat
    = Some (obj [("id", VStr (js "123")); ("name", VStr (js "Foo"));
                 ("urlCoverOri", VStr (js "/c.jpg"))])
  ∧ SearchResult.image entry_foo = VStr (js "https://mangapark.io" ++ js "/c.jpg").
Proof.
  split_and!; [reflexivity | reflexivity |].
  refine (proj1 (proj2 (proj2 (search_cover_image
            (respond 200 (search_body sample_search_items))
            (obj [("query", VStr (js "Foo"))]) 200 (search_body sample_search_items)
            sample_search_items 0%nat entry_foo
            (obj [("id", VStr (js "123")); ("name", VStr (js "Foo"));
                  ("urlCoverOri", VStr (js "/c.jpg"))])
            _ _ _ _ _ _ _) (js "/c.jpg") _)) _).
  - intros req. reflexivity.
  - lia.
  - reflexivity.
  - reflexivity.
  - reflexivity.
  - reflexivity.
  - reflexivity.
  - reflexivity.
  - exists (js "c.jpg"). reflexivity.
Defined.

(** C2 fails as stated: the cover "c.jpg" starts neither with a scheme nor
    with [/], and the image of its entry is "c.jpg", not [undefined]. *)
Lemma search_plain_cover_kept :
  search (respond 200 (search_body sample_search_items)) (obj [("query", VStr (js "Foo"))])
    !! 1%nat = Some entry_plain_cover
  ∧ payloads sample_search_items !! 1%nat
    = Some (obj [("id", VStr (js "7")); ("urlCoverOri", VStr (js "c.jpg"))])
  ∧ starts_with (js "http") (js "c.jpg") = false
  ∧ starts_with (js "/") (js "c.jpg") = false
  ∧ SearchResult.image entry_plain_cover = VStr (js "c.jpg")
  ∧ SearchResult.image entry_plain_cover ≠ VUndef.
Proof. split_and!; [reflexivity..|discriminate]. Qed.

(** ** Examples *)

Example parseChapterNumber_examples :
  parseChapterNumber (VStr (js "Vol.02 Chapter 003")) = Ok (js "3")
  ∧ parseChapterNumber (VStr (js "Chapter 1.50")) = Ok (js "1.5")
  ∧ parseChapterNumber (VStr (js "Vol.12 Chapter 3.5")) = Ok (js "3.5")
  ∧ parseChapterNumber (VStr (js "ch.007 extra")) = Ok (js "7")
  ∧ parseChapterNumber (VStr (js "Vol.3 Extra")) = Ok (js "Vol.3 Extra")
  ∧ parseChapterNumber (VStr (js "Chapter 0.0000001")) = Ok (js "1e-7")
  ∧ parseChapterNumber (VStr (js "Ch.1000000000000000000000")) = Ok (js "1e+21")
  ∧ parseChapterNumber (VNum (number_of_Z 5)) = Throw TypeError.
Proof. split_and!; by vm_compute. Qed.

Example buildUrl_examples :
  buildUrl (VStr (js "")) = Ok (js "")
  ∧ buildUrl (VStr (js "https://x/y.png")) = Ok (js "https://x/y.png")
  ∧ buildUrl (VStr (js "/covers/a.png")) = Ok (js "https://mangapark.io/covers/a.png")
  ∧ buildUrl VUndef = Ok (js "").
Proof. split_and!; by vm_compute. Qed.

Example search_end_to_end :
  search (respond 200 (search_body
            [obj [("data", obj [("id", VStr (js "123")); ("name", VStr (js "Foo"));
                                ("urlCoverOri", VStr (js "/c.jpg"))])]]))
         (obj [("query", VStr (js "Foo"))])
  = [{| SearchResult.id := VStr (js "123");
        SearchResult.title := VStr (js "Foo");
        SearchResult.synonyms := VUndef;
        SearchResult.image := VStr (js "https://mangapark.io/c.jpg");
        SearchResult.year := VUndef |}].
Proof. reflexivity. Qed.

(** A record that is [null], or a display name that is a number, makes the
    loop raise, and the whole result is empty. *)
Example findChapters_raises :
  findChapters (respond 200 (chapters_body [record_untitled; VNull])) sample_date
               (VStr (js "77")) = []
  ∧ findChapters (respond 200 (chapters_body
                    [record_untitled;
                     obj [("data", obj [("id", VStr (js "c9"));
                                        ("dname", VNum (number_of_Z 5))])]]))
                 sample_date (VStr (js "77")) = [].
Proof. split; reflexivity. Qed.

(** ** Further properties of the provider *)

Lemma starts_with_cons_false (c x : N) (s : jsstring) :
  x ≠ c → starts_with [c] (x :: s) = false.
Proof. intros Hx. simpl. by rewrite (proj2 (N.eqb_neq c x)). Qed.

Lemma baseUrl_head : ∃ t, baseUrl = 104%N :: t.
Proof. by eexists. Qed.

Lemma buildUrl_Ok_cases path url :
  buildUrl path = Ok url →
  url = []
  ∨ starts_with (js "http") url = true
  ∨ path = VStr url ∧ url ≠ [] ∧ starts_with (js "/") url = false.
Proof.
  unfold buildUrl. destruct (negb (truthy path)); [intros [= <-]; by left|].
  destruct path as [| | | |p| |]; try done.
  destruct (starts_with (js "http") p) eqn:Hhttp; [intros [= <-]; auto|].
  destruct (starts_with (js "/") p) eqn:Hroot; intros [= <-].
  - right. left. reflexivity.
  - destruct p as [|c p]; [by left|]. right. right. done.
Qed.

Lemma starts_with_http_not_rooted url :
  starts_with (js "http") url = true → starts_with (js "/") url = false.
Proof.
  destruct url as [|c url]; [done|].
  change (starts_with (js "http") (c :: url))
    with ((104 =? c)%N && starts_with (js "ttp") url).
  change (starts_with (js "/") (c :: url)) with ((47 =? c)%N && true).
  destruct (N.eqb_spec 104 c) as [<-|]; [reflexivity | discriminate].
Qed.

Lemma starts_with_rooted_not_http url :
  starts_with (js "/") url = true → starts_with (js "http") url = false.
Proof.
  intros Hroot. destruct (starts_with (js "http") url) eqn:Hhttp; [|done].
  apply starts_with_http_not_rooted in Hhttp. congruence.
Qed.

(** X1.  What [buildUrl] returns is resolved: it does not start
    with [/], and [buildUrl] leaves it as it is. *)
Theorem buildUrl_resolved path url :
  buildUrl path = Ok url →
  starts_with (js "/") url = false ∧ buildUrl (VStr url) = Ok url.
Proof.
  intros [->|[Hhttp|(_ & Hne & Hroot)]]%buildUrl_Ok_cases.
  - done.
  - split; [by apply starts_with_http_not_rooted|].
    rewrite buildUrl_string, Hhttp. by destruct url.
  - split; [done|]. rewrite buildUrl_string, Hroot.
    destruct url; [done|]. simpl is_empty.
    by destruct (starts_with (js "http") _).
Qed.

Lemma buildUrl_resolved_witness :
  buildUrl (VStr (js "/title/1")) = Ok (js "https://mangapark.io/title/1")
  ∧ starts_with (js "/") (js "https://mangapark.io/title/1") = false
  ∧ buildUrl (VStr (js "https://mangapark.io/title/1"))
    = Ok (js "https://mangapark.io/title/1").
Proof.
  split; [reflexivity|].
  apply (buildUrl_resolved (VStr (js "/title/1"))). reflexivity.
Defined.

(** *** The text of a number has no keyword *)

Lemma keyword_free_digit x : (48 ≤ x ≤ 57)%N → canon x ≠ 67%N ∧ canon x ≠ 86%N.
Proof.
  intros Hx. unfold canon.
  destruct (N.leb_spec 97 x); simpl; [lia|]. lia.
Qed.

Lemma keyword_free_dec_digits k s : keyword_free (dec_digits k s).
Proof.
  revert s. induction k as [|k IH]; intros s; simpl; [constructor|].
  apply Forall_app. split; [apply IH|]. constructor; [|constructor].
  apply keyword_free_digit.
  pose proof (Z.mod_pos_bound s 10 ltac:(lia)). lia.
Qed.

Lemma keyword_free_zeros n : keyword_free (zeros n).
Proof. apply Forall_replicate. by apply keyword_free_digit. Qed.

Lemma keyword_free_js_closed (s : jsstring) :
  forallb (λ x, negb (canon x =? 67)%N && negb (canon x =? 86)%N) s = true →
  keyword_free s.
Proof.
  intros H. apply Forall_forall. intros x Hx.
  rewrite forallb_forall in H. specialize (H x).
  assert (List.In x s) as Hin by (by apply list_elem_of_In).
  apply H in Hin. apply andb_true_iff in Hin as [H1 H2].
  apply negb_true_iff in H1, H2. by apply N.eqb_neq in H1, H2.
Qed.

Lemma keyword_free_app a b : keyword_free a → keyword_free b → keyword_free (a ++ b).
Proof. intros Ha Hb. by apply Forall_app. Qed.

Lemma keyword_free_format_number s n k : keyword_free (format_number s n k).
Proof.
  unfold format_number.
  pose proof (keyword_free_dec_digits (Z.to_nat k) s) as Hds.
  assert (keyword_free (js ".")) as Hpoint by (by apply keyword_free_js_closed).
  assert (keyword_free (js "0.")) as Hzero by (by apply keyword_free_js_closed).
  assert (keyword_free (js "e")) as He by (by apply keyword_free_js_closed).
  assert (keyword_free (js "+")) as Hplus by (by apply keyword_free_js_closed).
  assert (keyword_free (js "-")) as Hminus by (by apply keyword_free_js_closed).
  assert (∀ z, keyword_free (dec_of_Z z)) as Hdec
    by (intros z; apply keyword_free_dec_digits).
  assert (∀ j, keyword_free (take j (dec_digits (Z.to_nat k) s))) as Htake
    by (intros j; by apply Forall_take).
  assert (∀ j, keyword_free (drop j (dec_digits (Z.to_nat k) s))) as Hdrop
    by (intros j; by apply Forall_drop).
  cbv zeta.
  repeat match goal with
         | |- keyword_free (if ?b then _ else _) => destruct b
         | |- keyword_free (_ ++ _) => apply keyword_free_app
         end; auto using keyword_free_zeros.
Qed.

Lemma keyword_free_toString x : keyword_free (toString x).
Proof.
  destruct x as [|neg|neg m e]; simpl.
  - by apply keyword_free_js_closed.
  - destruct neg; by apply keyword_free_js_closed.
  - destruct (m =? 0); [by apply keyword_free_js_closed|].
    destruct (shortest m e) as [[s n] k].
    apply Forall_app. split; [|apply keyword_free_format_number].
    destruct neg; [by apply keyword_free_js_closed | constructor].
Qed.

Lemma keyword_free_existsb s :
  keyword_free s → existsb (λ x, canon x =? 67)%N s = false.
Proof.
  induction 1 as [|x s [Hx _] _ IH]; [done|]. simpl.
  by rewrite (proj2 (N.eqb_neq _ _) Hx).
Qed.

(** A text without keywords is returned as it is. *)
Lemma parseChapterNumber_keyword_free d :
  keyword_free d → parseChapterNumber (VStr d) = Ok d.
Proof.
  intros Hd. rewrite parseChapterNumber_string.
  destruct d as [|c d]; [done|]. simpl is_empty. cbv iota.
  apply Forall_cons in Hd as Hc. destruct Hc as [[HC HV] _].
  rewrite replace_no_volume; last first.
  { intros vol rest (x & t & -> & Hx)%volume_prefix_head [= <- _]. done. }
  cbv zeta.
  destruct (exec re_bonus (c :: d)) as [x|] eqn:Hbonus.
  { apply exec_bonus_inv, bonus_form_head in Hbonus as (x' & t & [= <- _] & Hx). done. }
  destruct (exec re_chapter (c :: d)) as [x|] eqn:Hch; [|done].
  apply exec_chapter_inv, has_chapter_number_C in Hch.
  by rewrite keyword_free_existsb in Hch.
Qed.

Lemma parseChapterNumber_Ok_cases dname chapter :
  parseChapterNumber dname = Ok chapter →
  chapter = [] ∨ chapter = js "Chapter Bonus"
  ∨ (∃ x, chapter = toString x) ∨ dname = VStr chapter.
Proof.
  unfold parseChapterNumber.
  destruct (negb (truthy dname)); [intros [= <-]; by left|].
  destruct dname as [| | | |d| |]; try done.
  destruct (exec re_bonus _); [intros [= <-]; auto|].
  destruct (exec re_chapter _) as [[? ? [g|]]|];
    [destruct (negb (is_empty g))|..]; intros [= <-]; eauto 6.
Qed.

Lemma parseChapterNumber_Ok_fixed dname chapter :
  parseChapterNumber dname = Ok chapter →
  parseChapterNumber (VStr chapter) = Ok chapter.
Proof.
  intros H.
  destruct (parseChapterNumber_Ok_cases _ _ H) as [->|[->|[[x ->]| ->]]].
  - reflexivity.
  - by vm_compute.
  - apply parseChapterNumber_keyword_free, keyword_free_toString.
  - exact H.
Qed.

(** X2.  [parseChapterNumber] is idempotent: a chapter it has
    returned is returned unchanged when it is given as the display name. *)
Theorem parseChapterNumber_idempotent dname chapter :
  parseChapterNumber dname = Ok chapter →
  parseChapterNumber (VStr chapter) = Ok chapter.
Proof. apply parseChapterNumber_Ok_fixed. Qed.

Lemma parseChapterNumber_idempotent_witness :
  parseChapterNumber (VStr (js "Vol.02 Chapter 003")) = Ok (js "3")
  ∧ parseChapterNumber (VStr (js "3")) = Ok (js "3").
Proof.
  split; [by vm_compute|].
  apply (parseChapterNumber_idempotent (VStr (js "Vol.02 Chapter 003"))). by vm_compute.
Defined.

(** *** The text of a number is not empty *)

Lemma app_nonempty_l {A} (a b : list A) : a ≠ [] → a ++ b ≠ [].
Proof. by destruct a. Qed.

Lemma app_nonempty_r {A} (a b : list A) : b ≠ [] → a ++ b ≠ [].
Proof. destruct a; [done|]. by intros _. Qed.

Lemma dec_digits_nonempty k s : (0 < k)%nat → dec_digits k s ≠ [].
Proof.
  destruct k as [|k]; [lia|]. intros _. cbn [dec_digits]. by apply app_nonempty_r.
Qed.

Lemma shortest_from_digits fuel m e n0 k s n k' :
  shortest_from fuel m e n0 k = (s, n, k') → k ≤ k'.
Proof.
  revert k. induction fuel as [|fuel IH]; intros k; cbn [shortest_from].
  - intros [= _ _ <-]. lia.
  - destruct (candidate m e k n0); [intros [= _ _ <-]; lia|].
    destruct (candidate m e k (n0 + 1)); [intros [= _ _ <-]; lia|].
    intros H%IH. lia.
Qed.

Lemma format_number_nonempty s n k : 1 ≤ k → format_number s n k ≠ [].
Proof.
  intros Hk. unfold format_number.
  assert (dec_digits (Z.to_nat k) s ≠ []) as Hds by (apply dec_digits_nonempty; lia).
  repeat match goal with
         | |- (if ?b then _ else _) ≠ [] => destruct b
         | |- (let _ := _ in _) ≠ [] => cbv zeta
         end.
  - by apply app_nonempty_l.
  - by apply app_nonempty_r.
  - done.
  - by apply app_nonempty_r.
  - by apply app_nonempty_r.
Qed.

Lemma toString_nonempty x : toString x ≠ [].
Proof.
  destruct x as [|neg|neg m e]; cbn [toString].
  - done.
  - by destruct neg.
  - destruct (m =? 0); [done|].
    destruct (shortest m e) as [[s n] k] eqn:Hshortest.
    apply app_nonempty_r, format_number_nonempty.
    unfold shortest in Hshortest. destruct (frac_of m e).
    by apply shortest_from_digits in Hshortest.
Qed.

(** X3.  The chapter [parseChapterNumber] returns is the empty
    string for a display name that is falsy (missing, [null], the empty
    string), and for no other. *)
Theorem parseChapterNumber_empty dname :
  parseChapterNumber dname = Ok [] ↔ truthy dname = false.
Proof.
  unfold parseChapterNumber. destruct (truthy dname) eqn:Htruthy; cbn [negb]; [|done].
  split; [|done]. intros Hempty. exfalso. revert Hempty.
  destruct dname as [| | | |d| |]; try done.
  destruct d as [|c d]; [done|].
  destruct (exec re_bonus _); [done|].
  destruct (exec re_chapter _) as [[? ? [g|]]|]; [|done..].
  destruct (negb (is_empty g)); [|done].
  intros [= Hempty]. by apply toString_nonempty in Hempty.
Qed.

(** *** Malformed responses and the shape of the entries *)

Lemma search_Ok_items fetch opts status body items :
  (∀ req, fetch req = Responded status (Some body)) →
  200 ≤ status ≤ 299 →
  nullish opts = false →
  search_items body = VArr items →
  search fetch opts = try_catch (search_loop items []) [].
Proof.
  intros Hfetch Hstatus Hopts Hitems. unfold search, get. rewrite Hopts.
  cbv [mbind result_bind].
  rewrite (graphqlRequest_ok fetch status body) by done.
  by rewrite Hitems.
Qed.

Lemma findChapters_Ok_records fetch toISOString mangaId status body records :
  (∀ req, fetch req = Responded status (Some body)) →
  200 ≤ status ≤ 299 →
  chapter_list body = VArr records →
  findChapters fetch toISOString mangaId
  = try_catch (chapters_loop toISOString records []) [].
Proof.
  intros Hfetch Hstatus Hrecords. unfold findChapters.
  cbv [mbind result_bind].
  rewrite (graphqlRequest_ok fetch status body) by done.
  by rewrite Hrecords.
Qed.

(** X4.  One malformed entry costs the whole result.  When the
    response of [search] has an item that is [null] or whose cover is
    neither a string nor falsy, [search] returns the empty sequence,
    whatever the other items are; and so does [findChapters] when a
    record is [null], has a path or a display name that is neither a
    string nor falsy, or a time stamp that is not a valid date. *)
Theorem malformed_entry_gives_empty fetch toISOString opts mangaId status body entries :
  (∀ req, fetch req = Responded status (Some body)) →
  200 ≤ status ≤ 299 →
  (search_items body = VArr entries →
   forallb search_item_ok entries = false →
   search fetch opts = [])
  ∧ (chapter_list body = VArr entries →
     forallb (chapter_record_ok toISOString) entries = false →
     findChapters fetch toISOString mangaId = []).
Proof.
  intros Hfetch Hstatus. split; intros Hentries Hbad.
  - destruct (nullish opts) eqn:Hopts.
    { unfold search, get. by rewrite Hopts. }
    rewrite (search_Ok_items fetch opts status body entries) by done.
    destruct (search_loop entries []) as [out|err] eqn:Hloop; [|done].
    apply search_loop_Ok in Hloop. congruence.
  - rewrite (findChapters_Ok_records fetch toISOString mangaId status body entries) by done.
    destruct (chapters_loop toISOString entries []) as [out|err] eqn:Hloop; [|done].
    apply chapters_loop_Ok in Hloop. congruence.
Qed.

Lemma malformed_entry_gives_empty_witness :
  findChapters (respond 200 (chapters_body [record_untitled; VNull])) sample_date
               (VStr (js "77")) = [].
Proof.
  apply (malformed_entry_gives_empty
           (respond 200 (chapters_body [record_untitled; VNull])) sample_date
           VUndef (VStr (js "77")) 200 (chapters_body [record_untitled; VNull])
           [record_untitled; VNull]).
  - reflexivity.
  - lia.
  - reflexivity.
  - reflexivity.
Defined.

Lemma or_else_undefined v : or_else v VUndef = VUndef ∨ truthy (or_else v VUndef) = true.
Proof. unfold or_else. destruct (truthy v) eqn:Hv; auto. Qed.

Lemma search_entry_shape data entry :
  search_entry data = Ok entry →
  SearchResult.id entry = prop data "id"
  ∧ truthy (SearchResult.title entry) = true
  ∧ (SearchResult.synonyms entry = VUndef
     ∨ truthy (SearchResult.synonyms entry) = true)
  ∧ (SearchResult.image entry = VUndef
     ∨ ∃ url, SearchResult.image entry = VStr url ∧ url ≠ []
              ∧ starts_with (js "/") url = false)
  ∧ SearchResult.year entry = VUndef.
Proof.
  unfold search_entry. intros (built & Hbuilt & [= <-])%bind_Ok. simpl.
  split_and!; [done| |apply or_else_undefined| |done].
  - unfold or_else. by destruct (truthy (prop data "name")) eqn:Hname.
  - destruct built as [|c built]; [by left|]. right. exists (c :: built).
    split; [done|]. split; [done|].
    apply buildUrl_Ok_cases in Hbuilt as [?|[Hhttp|(_ & _ & Hroot)]]; [done| |done].
    exact (starts_with_http_not_rooted _ Hhttp).
Qed.

Lemma search_elem fetch opts entry :
  entry ∈ search fetch opts → ∃ data, search_entry data = Ok entry.
Proof.
  unfold search.
  destruct (get opts "query" ≫= _) as [out|err] eqn:Hbody; simpl; [|by intros ?%elem_of_nil].
  apply bind_Ok in Hbody as (query & _ & Hbody).
  apply bind_Ok in Hbody as (result & _ & Hbody).
  apply bind_Ok in Hbody as (items & _ & Hloop).
  apply search_loop_app in Hloop as (entries & -> & Hall). simpl.
  intros [i Hi]%list_elem_of_lookup.
  destruct (Forall2_lookup_r _ _ _ _ _ Hall Hi) as (data & _ & Hdata). eauto.
Qed.

(** X5.  Every entry of [search], for every transport: the title
    is truthy ("Unknown" stands in for a missing name); the synonyms are
    [undefined] or truthy; the image is [undefined] or a non-empty string
    that does not start with [/]; the year is [undefined]. *)
Theorem search_entry_fields fetch opts entry :
  entry ∈ search fetch opts →
  truthy (SearchResult.title entry) = true
  ∧ (SearchResult.synonyms entry = VUndef
     ∨ truthy (SearchResult.synonyms entry) = true)
  ∧ (SearchResult.image entry = VUndef
     ∨ ∃ url, SearchResult.image entry = VStr url ∧ url ≠ []
              ∧ starts_with (js "/") url = false)
  ∧ SearchResult.year entry = VUndef.
Proof.
  intros [data Hdata]%search_elem. by apply search_entry_shape in Hdata as (_ & ?).
Qed.

Lemma search_entry_fields_witness :
  truthy (SearchResult.title entry_plain_cover) = true
  ∧ (SearchResult.synonyms entry_plain_cover = VUndef
     ∨ truthy (SearchResult.synonyms entry_plain_cover) = true)
  ∧ (SearchResult.image entry_plain_cover = VUndef
     ∨ ∃ url, SearchResult.image entry_plain_cover = VStr url ∧ url ≠ []
              ∧ starts_with (js "/") url = false)
  ∧ SearchResult.year entry_plain_cover = VUndef.
Proof.
  apply (search_entry_fields (respond 200 (search_body sample_search_items))
                             (obj [("query", VStr (js "Foo"))])).
  apply list_elem_of_lookup. exists 1%nat. reflexivity.
Defined.

(** X6.  The entries of [search] are in the order of the response:
    their identifiers are the identifiers of the items that have data,
    one entry for each. *)
Theorem search_server_order fetch opts status body items :
  (∀ req, fetch req = Responded status (Some body)) →
  200 ≤ status ≤ 299 →
  nullish opts = false →
  search_items body = VArr items →
  forallb search_item_ok items = true →
  SearchResult.id <$> search fetch opts = (λ data, prop data "id") <$> payloads items.
Proof.
  intros Hfetch Hstatus Hopts Hitems Hok.
  pose proof (search_entries fetch status body Hfetch Hstatus opts items Hopts Hitems Hok)
    as Hall.
  induction Hall as [|data entry datas entries Hentry _ IH]; [done|].
  rewrite !fmap_cons, IH. f_equal.
  by apply search_entry_shape in Hentry as [-> _].
Qed.

Lemma search_server_order_witness :
  SearchResult.id <$> search (respond 200 (search_body sample_search_items))
                             (obj [("query", VStr (js "Foo"))])
  = [VStr (js "123"); VStr (js "7")].
Proof.
  apply (search_server_order (respond 200 (search_body sample_search_items))
           (obj [("query", VStr (js "Foo"))]) 200 (search_body sample_search_items)
           sample_search_items).
  - reflexivity.
  - lia.
  - reflexivity.
  - reflexivity.
  - reflexivity.
Defined.

Lemma chapter_entry_shape toISOString data i entry :
  chapter_entry toISOString data i = Ok entry →
  starts_with (js "/") (ChapterDetails.url entry) = false
  ∧ parseChapterNumber (VStr (ChapterDetails.chapter entry))
    = Ok (ChapterDetails.chapter entry)
  ∧ (ChapterDetails.scanlator entry = VUndef
     ∨ truthy (ChapterDetails.scanlator entry) = true)
  ∧ (ChapterDetails.updatedAt entry = VUndef
     ∨ ∃ iso, ChapterDetails.updatedAt entry = VStr iso)
  ∧ ChapterDetails.language entry = VUndef.
Proof.
  unfold chapter_entry. intros H.
  apply bind_Ok in H as (updatedAt & Hdate & H).
  apply bind_Ok in H as (url & Hurl & H).
  apply bind_Ok in H as (chapter & Hchapter & [= <-]). simpl.
  split_and!; [| |apply or_else_undefined| |done].
  - apply buildUrl_Ok_cases in Hurl as [->|[Hhttp|(_ & _ & Hroot)]]; [done| |done].
    exact (starts_with_http_not_rooted _ Hhttp).
  - by eapply parseChapterNumber_Ok_fixed.
  - destruct (truthy (timestamp_of data)).
    + apply bind_Ok in Hdate as (iso & _ & [= <-]). eauto.
    + injection Hdate as <-. by left.
Qed.

Lemma findChapters_elem fetch toISOString mangaId entry :
  entry ∈ findChapters fetch toISOString mangaId →
  ∃ data i, chapter_entry toISOString data i = Ok entry.
Proof.
  unfold findChapters.
  destruct (graphqlRequest _ _ _ ≫= _) as [out|err] eqn:Hbody; simpl;
    [|by intros ?%elem_of_nil].
  apply bind_Ok in Hbody as (result & _ & Hbody).
  apply bind_Ok in Hbody as (records & _ & Hloop).
  apply chapters_loop_app in Hloop as (entries & -> & Hlen & Hall). simpl.
  intros [i Hi]%list_elem_of_lookup.
  assert (is_Some (payloads records !! i)) as [data Hdata].
  { apply lookup_lt_is_Some. rewrite <- Hlen. by eapply lookup_lt_Some. }
  apply Hall in Hdata as (entry' & Hentry' & Hdata).
  rewrite Hi in Hentry'. injection Hentry' as <-. eauto.
Qed.

(** X7.  Every entry of [findChapters], for every transport:
    the url does not start with [/]; the chapter is normalised, in that
    [parseChapterNumber] leaves it as it is; the scanlator is [undefined]
    or truthy; [updatedAt] is [undefined] or a string; the language is
    [undefined]. *)
Theorem findChapters_entry_fields fetch toISOString mangaId entry :
  entry ∈ findChapters fetch toISOString mangaId →
  starts_with (js "/") (ChapterDetails.url entry) = false
  ∧ parseChapterNumber (VStr (ChapterDetails.chapter entry))
    = Ok (ChapterDetails.chapter entry)
  ∧ (ChapterDetails.scanlator entry = VUndef
     ∨ truthy (ChapterDetails.scanlator entry) = true)
  ∧ (ChapterDetails.updatedAt entry = VUndef
     ∨ ∃ iso, ChapterDetails.updatedAt entry = VStr iso)
  ∧ ChapterDetails.language entry = VUndef.
Proof.
  intros (data & i & Hentry)%findChapters_elem.
  by eapply chapter_entry_shape.
Qed.

Lemma findChapters_entry_fields_witness :
  starts_with (js "/") (ChapterDetails.url entry_titled) = false
  ∧ parseChapterNumber (VStr (ChapterDetails.chapter entry_titled))
    = Ok (ChapterDetails.chapter entry_titled)
  ∧ (ChapterDetails.scanlator entry_titled = VUndef
     ∨ truthy (ChapterDetails.scanlator entry_titled) = true)
  ∧ (ChapterDetails.updatedAt entry_titled = VUndef
     ∨ ∃ iso, ChapterDetails.updatedAt entry_titled = VStr iso)
  ∧ ChapterDetails.language entry_titled = VUndef.
Proof.
  apply (findChapters_entry_fields (respond 200 (chapters_body sample_records))
                                   sample_date (VStr (js "77"))).
  apply list_elem_of_lookup. exists 1%nat. reflexivity.
Defined.

(** ** The first number of a text *)

Section Numerals.

Context {R : Type}.
Implicit Types (k : cont R) (s : jsstring).

Lemma run_Seq r1 r2 i s c k :
  run (Seq r1 r2) i s c k = run r1 i s c (λ i' s' c', run r2 i' s' c' k).
Proof. reflexivity. Qed.

Lemma run_Grp r1 i s c k :
  run (Grp r1) i s c k = run r1 i s c (λ i' s' _, k i' s' (Some (take (i' - i) s))).
Proof. reflexivity. Qed.

Lemma run_Opt r1 i s c k :
  run (Opt r1) i s c k
  = match run r1 i s c k with Some x => Some x | None => k i s c end.
Proof. reflexivity. Qed.

Lemma canon_point x : canon x = canon 46 → x = 46%N.
Proof.
  unfold canon. change ((97 <=? 46) && (46 <=? 122))%N with false. cbv iota.
  destruct (N.leb_spec 97 x), (N.leb_spec x 122); simpl; lia.
Qed.

Lemma run_point_inv i s c k r :
  run (Lit 46) i s c k = Some r → ∃ s', s = 46%N :: s' ∧ k (S i) s' c = Some r.
Proof.
  destruct s as [|x s']; [done|]. cbn [run].
  destruct (N.eqb_spec (canon x) (canon 46)) as [Hx|]; [|done].
  apply canon_point in Hx as ->. eauto.
Qed.

Lemma run_plus_fails p i x s c k : p x = false → run (Plus p) i (x :: s) c k = None.
Proof. cbn [run]. by intros ->. Qed.

(** What the pattern of a number matches, and what it captures. *)
Lemma run_number_inv i s c k r :
  run re_number i s c k = Some r →
  ∃ ip fd rest, s = ip ++ fraction fd ++ rest
    ∧ ip ≠ [] ∧ forallb is_digit ip = true ∧ forallb is_digit fd = true
    ∧ k (i + length (ip ++ fraction fd))%nat rest (Some (ip ++ fraction fd)) = Some r.
Proof.
  unfold re_number. rewrite run_Grp, run_Seq.
  intros (ip & s1 & -> & Hne & Hip & H)%plus_inv. rewrite run_Opt in H.
  assert (∀ j, (i + j - i)%nat = j) as Hsub by (intros; lia).
  destruct (run (Seq (Lit 46) (Plus is_digit)) _ _ _ _) as [r'|] eqn:Hfrac.
  - injection H as ->. rewrite run_Seq in Hfrac.
    apply run_point_inv in Hfrac as (s2 & -> & Hfrac).
    apply plus_inv in Hfrac as (fd & rest & -> & Hfd_ne & Hfd & Hk).
    exists ip, fd, rest.
    assert (fraction fd = 46%N :: fd) as Hfraction by (by destruct fd).
    rewrite Hfraction. split_and!; [done..|].
    replace (S (i + length ip) + length fd)%nat
      with (i + length (ip ++ 46%N :: fd))%nat in Hk
      by (rewrite length_app; simpl; lia).
    rewrite Hsub in Hk.
    replace (ip ++ 46%N :: fd ++ rest) with ((ip ++ 46%N :: fd) ++ rest) in Hk
      by (by rewrite <- app_assoc).
    by rewrite take_app_length in Hk.
  - exists ip, [], s1. simpl. rewrite app_nil_r. split_and!; [done..|].
    by rewrite Hsub, take_app_length in H.
Qed.

(** The pattern matches the numeral at the head of the text, all of
    it. *)
Lemma run_number_here ip fd rest i c k r :
  ip ≠ [] → forallb is_digit ip = true → forallb is_digit fd = true →
  numeral_ends fd rest = true →
  k (i + length (ip ++ fraction fd))%nat rest (Some (ip ++ fraction fd)) = Some r →
  run re_number i (ip ++ fraction fd ++ rest) c k = Some r.
Proof.
  intros Hne Hip Hfd [Hstop Hend]%andb_true_iff Hk.
  unfold re_number. rewrite run_Grp, run_Seq.
  assert (∀ j, (i + j - i)%nat = j) as Hsub by (intros; lia).
  apply plus_greedy; [done..| |].
  { unfold fraction. destruct fd; [exact Hstop | done]. }
  rewrite run_Opt. destruct fd as [|y fd].
  - cbn [fraction is_empty app] in *. rewrite app_nil_r in Hk.
    assert (run (Seq (Lit 46) (Plus is_digit)) (i + length ip) rest c
              (λ i' s' _, k i' s' (Some (take (i' - i) (ip ++ rest)))) = None) as ->.
    { rewrite run_Seq. destruct rest as [|x rest]; [done|]. cbn [run].
      destruct (N.eqb_spec (canon x) (canon 46)) as [Hx|]; [|done].
      apply canon_point in Hx as ->.
      destruct rest as [|d rest]; [done|]. simpl in Hend.
      apply negb_true_iff in Hend. by rewrite Hend. }
    by rewrite Hsub, take_app_length.
  - assert (fraction (y :: fd) = 46%N :: y :: fd) as Hfraction by done.
    rewrite Hfraction in *. cbn [app]. rewrite run_Seq. cbn [run].
    change (canon 46 =? canon 46)%N with true. cbv iota.
    change (if is_digit y then star is_digit (S (S (i + length ip))) (fd ++ rest) c ?K
            else None)
      with (run (Plus is_digit) (S (i + length ip)) ((y :: fd) ++ rest) c K).
    rewrite (plus_greedy is_digit (y :: fd) rest _ _ _ r); [done..|].
    replace (S (i + length ip) + length (y :: fd))%nat
      with (i + length (ip ++ 46%N :: y :: fd))%nat
      by (rewrite length_app; simpl; lia).
    rewrite Hsub.
    change (ip ++ 46%N :: y :: fd ++ rest) with (ip ++ (46%N :: y :: fd) ++ rest).
    by rewrite app_assoc, take_app_length.
Qed.

End Numerals.

Lemma exec_from_number_skip pre s i :
  no_digit pre = true →
  exec_from re_number i (pre ++ s) = exec_from re_number (i + length pre) s.
Proof.
  revert i. induction pre as [|x pre IH]; intros i Hpre; simpl.
  - by rewrite Nat.add_0_r.
  - simpl in Hpre. apply andb_true_iff in Hpre as [Hx Hpre].
    apply negb_true_iff in Hx. rewrite Hx, IH by done.
    by rewrite Nat.add_succ_comm.
Qed.

Lemma exec_number_none s : no_digit s = true → exec re_number s = None.
Proof.
  intros Hs. unfold exec. rewrite <- (app_nil_r s), exec_from_number_skip by done.
  reflexivity.
Qed.

Lemma exec_number_inv s x :
  exec re_number s = Some x → ∃ g, m_group x = Some g ∧ decimal g.
Proof.
  unfold exec. intros (pre & s' & -> & H)%exec_from_inv.
  apply run_number_inv in H as (ip & fd & rest & -> & Hne & Hip & Hfd & [= <-]).
  simpl. exists (ip ++ fraction fd). split; [done|]. by exists ip, fd.
Qed.

Lemma exec_number_first pre ip fd rest :
  no_digit pre = true →
  ip ≠ [] → forallb is_digit ip = true → forallb is_digit fd = true →
  numeral_ends fd rest = true →
  ∃ x, exec re_number (pre ++ ip ++ fraction fd ++ rest) = Some x
       ∧ m_group x = Some (ip ++ fraction fd).
Proof.
  intros Hpre Hne Hip Hfd Hend. unfold exec. rewrite exec_from_number_skip by done.
  eexists. split; [|shelve].
  apply exec_from_here. by apply run_number_here.
  Unshelve. reflexivity.
Qed.

Lemma decimal_zero : decimal (js "0").
Proof. by exists (js "0"), []. Qed.

Lemma decimal_nonempty g : decimal g → is_empty g = false.
Proof. intros (ip & fd & -> & Hne & _). by destruct ip. Qed.

Lemma extractChapterNumber_string s :
  extractChapterNumber (VStr s)
  = Ok (match exec re_number s with
        | Some {| m_group := Some g |} => g
        | _ => js "0"
        end).
Proof.
  unfold extractChapterNumber, opt_match. simpl.
  destruct (exec re_number s) as [x|] eqn:Hexec; [|done].
  apply exec_number_inv in Hexec as (g & Hg & Hdec). destruct x as [? ? group].
  simpl in Hg. subst group. by rewrite (decimal_nonempty g).
Qed.

Lemma extract_gives_decimal displayName chapter :
  extractChapterNumber displayName = Ok chapter → decimal chapter.
Proof.
  destruct displayName as [| | | |s| |]; try done;
    try (intros [= <-]; apply decimal_zero).
  rewrite extractChapterNumber_string. intros [= <-].
  destruct (exec re_number s) as [x|] eqn:Hexec; [|apply decimal_zero].
  apply exec_number_inv in Hexec as (g & Hg & Hdec). destruct x as [? ? group].
  simpl in Hg. by subst group.
Qed.

(** X8.  What [extractChapterNumber] returns is a decimal
    numeral: one digit or more, and possibly a point and one digit or
    more. *)
Theorem extractChapterNumber_decimal displayName chapter :
  extractChapterNumber displayName = Ok chapter → decimal chapter.
Proof. apply extract_gives_decimal. Qed.

Lemma extractChapterNumber_decimal_witness :
  extractChapterNumber (VStr (js "Vol.02 Chapter 003.50x")) = Ok (js "02")
  ∧ decimal (js "02").
Proof.
  split; [reflexivity|].
  apply (extractChapterNumber_decimal (VStr (js "Vol.02 Chapter 003.50x"))). reflexivity.
Defined.

(** X9.  [extractChapterNumber] returns the first numeral of the
    display name as it is written, leading zeros included: for a text
    that has no digit before the numeral, and in which the numeral ends
    before what follows, the result is the numeral. *)
Theorem extractChapterNumber_first_number pre ip fd rest :
  no_digit pre = true →
  ip ≠ [] → forallb is_digit ip = true → forallb is_digit fd = true →
  numeral_ends fd rest = true →
  extractChapterNumber (VStr (pre ++ ip ++ fraction fd ++ rest))
  = Ok (ip ++ fraction fd).
Proof.
  intros Hpre Hne Hip Hfd Hend. rewrite extractChapterNumber_string.
  destruct (exec_number_first pre ip fd rest) as ([? ? group] & -> & Hgroup); [done..|].
  simpl in Hgroup. by subst group.
Qed.

Lemma extractChapterNumber_first_number_witness :
  extractChapterNumber
    (VStr (js "Chapter " ++ js "007" ++ fraction (js "50") ++ js ".5 extra"))
  = Ok (js "007.50").
Proof.
  apply (extractChapterNumber_first_number (js "Chapter ") (js "007") (js "50")
                                           (js ".5 extra")); by vm_compute.
Defined.

(** X10.  [extractChapterNumber] gives "0" for a display name
    that is [undefined] or [null] and for a text without a digit; a
    display name that is neither missing nor a string makes it throw a
    [TypeError]. *)
Theorem extractChapterNumber_default displayName :
  (nullish displayName = true → extractChapterNumber displayName = Ok (js "0"))
  ∧ (∀ s, displayName = VStr s → no_digit s = true →
       extractChapterNumber displayName = Ok (js "0"))
  ∧ (nullish displayName = false → (∀ s, displayName ≠ VStr s) →
     extractChapterNumber displayName = Throw TypeError).
Proof.
  split_and!.
  - by destruct displayName.
  - intros s -> Hs. by rewrite extractChapterNumber_string, exec_number_none.
  - intros Hnull Hstr. destruct displayName as [| | | |s| |]; try done.
    by destruct (Hstr s).
Qed.

Lemma extractChapterNumber_default_witness :
  extractChapterNumber (VStr (js "Bonus")) = Ok (js "0").
Proof.
  apply (extractChapterNumber_default (VStr (js "Bonus"))) with (s := js "Bonus");
    reflexivity.
Defined.

(** ** The order of Numbers and the sort *)


Lemma key_le_trans a b c : key_le a b → key_le b c → key_le a c.
Proof. destruct a, b, c; simpl; try done. lia. Qed.

Lemma key_le_total a b : key_le a b ∨ key_le b a.
Proof. destruct a, b; simpl; auto. lia. Qed.

Lemma aligned_key m e e0 :
  -1074 ≤ e0 ≤ e → aligned false m e e0 * 2 ^ (e0 + 1074) = m * 2 ^ (e + 1074).
Proof.
  intros He. unfold aligned. rewrite <- Z.mul_assoc, <- Z.pow_add_r by lia.
  do 2 f_equal. lia.
Qed.

Lemma aligned_differ m1 e1 m2 e2 :
  -1074 ≤ e1 → -1074 ≤ e2 →
  let e0 := Z.min e1 e2 in
  (aligned false m1 e1 e0 - aligned false m2 e2 e0) * 2 ^ (e0 + 1074)
  = m1 * 2 ^ (e1 + 1074) - m2 * 2 ^ (e2 + 1074).
Proof.
  intros H1 H2 e0. rewrite Z.mul_sub_distr_r, !aligned_key; [done|subst e0; lia..].
Qed.

Lemma number_leb_key x y :
  sortable x → sortable y → number_leb x y = true ↔ key_le (key x) (key y).
Proof.
  destruct x as [|[]|[] m1 e1], y as [|[]|[] m2 e2]; simpl; try done.
  intros [Hm1 He1] [Hm2 He2].
  pose proof (aligned_differ m1 e1 m2 e2 He1 He2) as Hd. cbv zeta in Hd.
  assert (0 < 2 ^ (Z.min e1 e2 + 1074)) by (apply Z.pow_pos_nonneg; lia).
  rewrite Z.leb_le. nia.
Qed.

(** *** The sign of a difference *)

Lemma round_half_even_nonneg a b : 0 ≤ a → 0 < b → 0 ≤ round_half_even a b.
Proof.
  intros Ha Hb. unfold round_half_even.
  pose proof (Z.div_pos a b Ha Hb). repeat case_match; lia.
Qed.

Lemma scale2_nonneg a b e a' b' :
  0 ≤ a → 0 < b → scale2 a b e = (a', b') → 0 ≤ a' ∧ 0 < b'.
Proof.
  intros Ha Hb. unfold scale2. destruct (0 <=? e) eqn:He; intros [= <- <-].
  - apply Z.leb_le in He. split; [done|]. apply Z.mul_pos_pos; [done|].
    by apply Z.pow_pos_nonneg.
  - apply Z.leb_gt in He. split; [|done]. apply Z.mul_nonneg_nonneg; [done|].
    apply Z.pow_nonneg. lia.
Qed.

Lemma rounded_bounds a b m e :
  0 ≤ a → 0 < b → rounded a b = (m, e) → 0 ≤ m ∧ -1074 ≤ e.
Proof.
  intros Ha Hb. unfold rounded.
  assert (-1074 ≤ binade a b) as He.
  { unfold binade. destruct (scale2 a b _). apply Z.le_max_r. }
  destruct (scale2 a b (binade a b)) as [a' b'] eqn:Hscale.
  apply scale2_nonneg in Hscale as [Ha' Hb']; [|done..].
  pose proof (round_half_even_nonneg a' b' Ha' Hb').
  destruct (_ =? 2 ^ 53); intros [= <- <-]; lia.
Qed.

Lemma to_double_sortable a b : 0 ≤ a → 0 < b → sortable (to_double a b).
Proof.
  intros Ha Hb. destruct (decide (a = 0)) as [->|Hne]; [by vm_compute|].
  rewrite to_double_rounded by lia.
  destruct (rounded a b) as [m e] eqn:Hrounded.
  apply rounded_bounds in Hrounded as [Hm He]; [|done..].
  destruct (m =? 0); [simpl; lia|]. by destruct (971 <? e).
Qed.

(** A fraction of at least 2^-1074 does not round to zero. *)
Lemma rounded_positive a b m e :
  0 < a → 0 < b → b ≤ a * 2 ^ 1074 → rounded a b = (m, e) → 0 < m.
Proof.
  intros Ha Hb Hlow Hrounded.
  destruct (decide (0 < m)) as [|Hm]; [done|]. exfalso.
  pose proof (rounded_error a b m e Hb Hrounded) as Herr.
  pose proof (rounded_bounds a b m e ltac:(lia) Hb Hrounded) as [Hm0 _].
  assert (m = 0) as -> by lia.
  assert (e = binade a b) as ->.
  { revert Hrounded. unfold rounded. destruct (scale2 a b _).
    destruct (_ =? 2 ^ 53); intros [= H1 H2]; first [done | lia]. }
  unfold F2R in Herr. rewrite Rmult_0_l, Rminus_0_r in Herr.
  apply Rabs_le_bounds in Herr as [_ Herr].
  destruct (binade_spec a b Ha Hb) as (e' & [Hbin _] & He).
  pose proof (bpow_pos 2 (binade a b) ltac:(lia)) as Hpos.
  assert (bpow 2 (-1074) <= qval a b)%R as Hq.
  { apply qval_ge; [done|]. change (-1074) with (- (1074)).
    rewrite bpow_opp by lia. rewrite bpow_IZR by lia.
    apply Rmult_le_reg_l with (IZR (2 ^ 1074)); [apply IZR_pos; lia|].
    rewrite <- Rmult_assoc, Rinv_r, Rmult_1_l, <- mult_IZR
      by (apply not_0_IZR; lia).
    apply IZR_le. lia. }
  destruct (Z.max_spec e' (-1074)) as [[_ Hmax]|[_ Hmax]]; rewrite He, Hmax in *.
  - lra.
  - pose proof (bpow_le 2 e' (52 + e') ltac:(lia) ltac:(lia)). lra.
Qed.

Lemma to_double_positive a b :
  0 < a → 0 < b → b ≤ a * 2 ^ 1074 →
  match to_double a b with
  | Finite _ m _ => 0 < m
  | Infinity _ => True
  | NaN => False
  end.
Proof.
  intros Ha Hb Hlow. rewrite to_double_rounded by done.
  destruct (rounded a b) as [m e] eqn:Hrounded.
  apply rounded_positive in Hrounded; [|done..].
  destruct (Z.eqb_spec m 0); [lia|]. by destruct (971 <? e).
Qed.

(** The difference of two sortable Numbers is positive exactly when the
    first is the greater. *)
Lemma number_sub_positive x y :
  sortable x → sortable y →
  is_positive (number_sub x y) = true ↔ ¬ key_le (key x) (key y).
Proof.
  destruct x as [|[]|[] m1 e1], y as [|[]|[] m2 e2]; simpl; try done.
  - intros _ _. split; [by intros _ [] | done].
  - intros [Hm1 He1] [Hm2 He2].
    pose proof (aligned_differ m1 e1 m2 e2 He1 He2) as Hd. cbv zeta in Hd.
    set (e0 := Z.min e1 e2) in *.
    set (d := aligned false m1 e1 e0 - aligned false m2 e2 e0) in *.
    assert (0 < 2 ^ (e0 + 1074)) by (apply Z.pow_pos_nonneg; lia).
    destruct (Z.eqb_spec d 0) as [Hd0|Hd0]; [simpl; split; [done|nia]|].
    destruct (scale2 (Z.abs d) 1 (- e0)) as [a b] eqn:Hscale.
    destruct (Z.ltb_spec d 0) as [Hneg|Hpos].
    { split; [by destruct (to_double a b)|nia]. }
    assert (0 < a ∧ 0 < b ∧ b ≤ a * 2 ^ 1074) as (Ha & Hb & Hlow).
    { revert Hscale. unfold scale2. destruct (Z.leb_spec 0 (- e0)); intros [= <- <-].
      - split_and!; [lia|lia|]. rewrite Z.mul_1_l.
        assert (2 ^ (- e0) ≤ 2 ^ 1074) by (apply Z.pow_le_mono_r; lia).
        assert (0 < 2 ^ 1074) by lia. nia.
      - assert (0 < 2 ^ (- - e0)) by (apply Z.pow_pos_nonneg; lia).
        assert (0 < 2 ^ 1074) by lia. split_and!; nia. }
    pose proof (to_double_positive a b Ha Hb Hlow) as Hres.
    destruct (to_double a b) as [|?|? m e]; [done| |].
    + split; [nia | done].
    + split; [nia|]. intros _. by apply Z.ltb_lt.
Qed.

(** *** Insertion sort *)

Section Sorting.

Context {A : Type}.
Variable gt : A → A → bool.

Lemma insert_by_Permutation x l : insert_by gt x l ≡ₚ x :: l.
Proof.
  induction l as [|y l IH]; simpl; [done|].
  destruct (gt x y); [|done]. rewrite IH. apply Permutation_swap.
Qed.

Lemma insertion_Permutation l : foldr (insert_by gt) [] l ≡ₚ l.
Proof.
  induction l as [|x l IH]; simpl; [done|].
  by rewrite insert_by_Permutation, IH.
Qed.

Variable P : A → Prop.
Variable le : A → A → Prop.
Hypothesis le_trans : ∀ a b c, le a b → le b c → le a c.
Hypothesis gt_le : ∀ a b, P a → P b → gt a b = true → le b a.
Hypothesis not_gt_le : ∀ a b, P a → P b → gt a b = false → le a b.

Lemma insert_by_sorted x l :
  P x → Forall P l → StronglySorted le l → StronglySorted le (insert_by gt x l).
Proof.
  intros Hx Hl Hsorted. induction Hsorted as [|y l Hsorted IH Hy]; simpl.
  - repeat constructor.
  - apply Forall_cons in Hl as [HPy HPl].
    destruct (gt x y) eqn:Hgt.
    + constructor; [by apply IH|].
      rewrite insert_by_Permutation. constructor; [by apply gt_le | done].
    + constructor; [by constructor|].
      assert (le x y) as Hxy by (by apply not_gt_le).
      constructor; [done|]. eapply Forall_impl; [exact Hy|]. eauto.
Qed.

Lemma insertion_sorted l :
  Forall P l → StronglySorted le (foldr (insert_by gt) [] l).
Proof.
  induction 1 as [|x l Hx Hl IH]; simpl; [constructor|].
  apply insert_by_sorted; [done| |done].
  by rewrite insertion_Permutation.
Qed.

(** An array that is in order already is left as it is. *)
Hypothesis gt_not_le : ∀ a b, P a → P b → gt a b = true → ¬ le a b.


(** The sort is stable: within a class of elements that the comparison
    does not tell apart, the order is kept. *)
Variable same : A → bool.
Hypothesis gt_apart : ∀ a b, P a → P b → gt a b = true → same a = true → same b = false.



End Sorting.

Lemma StronglySorted_lookup {A} (R : A → A → Prop) l i j a b :
  StronglySorted R l → (i < j)%nat → l !! i = Some a → l !! j = Some b → R a b.
Proof.
  intros Hsorted. revert i j. induction Hsorted as [|x l _ IH Hx]; intros i j Hij.
  - by rewrite lookup_nil.
  - destruct i as [|i], j as [|j]; simpl; try lia.
    + intros [= <-] Hb. rewrite Forall_forall in Hx. apply Hx.
      by eapply list_elem_of_lookup_2.
    + apply IH. lia.
Qed.

(** ** The earlier revision: identifiers *)

Lemma includes_app c a b :
  Earlier.includes c (a ++ b) = Earlier.includes c a || Earlier.includes c b.
Proof. apply existsb_app. Qed.

Lemma includes_cons c x s :
  Earlier.includes c (x :: s) = (c =? x)%N || Earlier.includes c s.
Proof. reflexivity. Qed.

Lemma split_nonempty c s : Earlier.split c s ≠ [].
Proof. destruct s as [|x s]; simpl; [done|]. by repeat case_match. Qed.

Lemma split_without c s : Earlier.includes c s = false → Earlier.split c s = [s].
Proof.
  induction s as [|x s IH]; [done|]. rewrite includes_cons.
  intros [Hx Hs]%orb_false_iff. simpl. rewrite N.eqb_sym, Hx. by rewrite IH.
Qed.

(** The pieces before and after a separator. *)
Lemma split_app c a b :
  Earlier.split c (a ++ c :: b) = Earlier.split c a ++ Earlier.split c b.
Proof.
  induction a as [|x a IH]; simpl.
  - by rewrite N.eqb_refl.
  - destruct (x =? c)%N; rewrite IH; [done|].
    pose proof (split_nonempty c a). by destruct (Earlier.split c a).
Qed.

Lemma split_pieces c d s piece :
  piece ∈ Earlier.split c s →
  Earlier.includes c piece = false
  ∧ (Earlier.includes d s = false → Earlier.includes d piece = false).
Proof.
  revert piece. induction s as [|x s IH]; intros piece; cbn [Earlier.split].
  - intros ->%list_elem_of_singleton. done.
  - destruct (N.eqb_spec x c) as [->|Hx].
    + intros [->|Hin]%elem_of_cons; [done|].
      apply IH in Hin as [? Hd]. split; [done|].
      rewrite includes_cons. intros [_ ?]%orb_false_iff. auto.
    + pose proof (split_nonempty c s).
      destruct (Earlier.split c s) as [|first pieces] eqn:Hsplit; [done|].
      intros [->|Hin]%elem_of_cons.
      * destruct (IH first) as [Hc Hd]; [by left|].
        rewrite !includes_cons. split.
        -- rewrite Hc. by rewrite (proj2 (N.eqb_neq c x)).
        -- intros [-> ?]%orb_false_iff. auto.
      * destruct (IH piece) as [Hc Hd]; [by right|]. split; [done|].
        rewrite includes_cons. intros [_ ?]%orb_false_iff. auto.
Qed.

Lemma segments_app a b :
  Earlier.segments (a ++ 47%N :: b) = Earlier.segments a ++ Earlier.segments b.
Proof. unfold Earlier.segments. rewrite split_app. apply List.filter_app. Qed.

Lemma segments_one s :
  s ≠ [] → Earlier.includes 47 s = false → Earlier.segments s = [s].
Proof.
  intros Hne Hs. unfold Earlier.segments. rewrite split_without by done.
  by destruct s.
Qed.

Lemma segments_slashes n : Earlier.segments (replicate n 47%N) = [].
Proof.
  induction n as [|n IH]; [done|].
  change (replicate (S n) 47%N) with ([] ++ 47%N :: replicate n 47%N).
  by rewrite segments_app, IH.
Qed.

Lemma segments_elem s piece :
  piece ∈ Earlier.segments s → piece ≠ [] ∧ Earlier.includes 47 piece = false
  ∧ ∀ d, Earlier.includes d s = false → Earlier.includes d piece = false.
Proof.
  unfold Earlier.segments. intros Hin. apply list_elem_of_In, filter_In in Hin as [Hin Hlen].
  apply list_elem_of_In in Hin. split; [by destruct piece|].
  split; [exact (proj1 (split_pieces 47 47 s piece Hin))|].
  intros d. exact (proj2 (split_pieces 47 d s piece Hin)).
Qed.

Lemma element_last l :
  Earlier.element l (Z.of_nat (length l) - 1) = from_option VStr VUndef (last l).
Proof.
  unfold Earlier.element. destruct l as [|x l] using rev_ind; [done|].
  rewrite length_app, last_snoc. simpl.
  destruct (Z.ltb_spec (Z.of_nat (length l + 1) - 1) 0); [lia|].
  replace (Z.to_nat (Z.of_nat (length l + 1) - 1)) with (length l) by lia.
  by rewrite list_lookup_middle.
Qed.

(** The last segment of a path that ends with [segment] and slashes. *)
Lemma last_segment pre segment n :
  segment ≠ [] → Earlier.includes 47 segment = false →
  last (Earlier.segments (pre ++ js "/" ++ segment ++ replicate n 47%N)) = Some segment.
Proof.
  intros Hne Hs. change (js "/" ++ segment ++ replicate n 47%N)
    with (47%N :: (segment ++ replicate n 47%N)).
  rewrite segments_app.
  assert (Earlier.segments (segment ++ replicate n 47%N) = [segment]) as ->.
  { destruct n as [|n]; [by rewrite app_nil_r, segments_one|].
    change (replicate (S n) 47%N) with (47%N :: replicate n 47%N).
    by rewrite segments_app, segments_one, segments_slashes. }
  by rewrite last_snoc.
Qed.

Lemma manga_id_bare id :
  Earlier.includes 47 id = false → Earlier.includes 35 id = false →
  Earlier.manga_id id = Ok (VStr id).
Proof. intros H47 H35. unfold Earlier.manga_id. by rewrite H47, H35. Qed.

Lemma manga_id_fragment id frag :
  Earlier.includes 47 id = false → Earlier.includes 35 id = false →
  Earlier.includes 47 frag = false →
  Earlier.manga_id (id ++ js "#" ++ frag) = Ok (VStr id).
Proof.
  intros H47 H35 Hfrag. unfold Earlier.manga_id.
  change (js "#" ++ frag) with (35%N :: frag).
  assert (Earlier.includes 47 (id ++ 35%N :: frag) = false) as ->.
  { by rewrite includes_app, includes_cons, H47, Hfrag. }
  assert (Earlier.includes 35 (id ++ 35%N :: frag) = true) as ->.
  { by rewrite includes_app, includes_cons, N.eqb_refl, orb_true_r. }
  by rewrite split_app, split_without.
Qed.

Lemma manga_id_path pre tail id :
  id ≠ [] → Earlier.includes 47 id = false → Earlier.includes 47 tail = false →
  Earlier.manga_id (pre ++ js "/" ++ id ++ tail) = Earlier.manga_id (id ++ tail).
Proof.
  intros Hne Hid Htail. unfold Earlier.manga_id at 1.
  change (js "/" ++ id ++ tail) with (47%N :: (id ++ tail)).
  rewrite includes_app, includes_cons, N.eqb_refl, orb_true_r.
  rewrite element_last, segments_app, (segments_one (id ++ tail)), last_snoc; last first.
  { by rewrite includes_app, Hid, Htail. }
  { by destruct id. }
  cbn [from_option]. unfold Earlier.manga_id.
  assert (Earlier.includes 47 (id ++ tail) = false) as ->; [|done].
  by rewrite includes_app, Hid, Htail.
Qed.

(** X11.  The identifier that the earlier [findChapters] asks the server
    for is a string without [/] and without [#]. *)
Theorem manga_id_clean mangaId id :
  Earlier.manga_id mangaId = Ok id →
  ∃ s, id = VStr s ∧ Earlier.includes 47 s = false ∧ Earlier.includes 35 s = false.
Proof.
  unfold Earlier.manga_id.
  assert (∀ s, Earlier.includes 47 s = false →
            (if Earlier.includes 35 s then Ok (Earlier.element (Earlier.split 35 s) 0)
             else Ok (VStr s)) = Ok id →
            ∃ s', id = VStr s' ∧ Earlier.includes 47 s' = false
                  ∧ Earlier.includes 35 s' = false) as Hfragment.
  { intros s Hs. destruct (Earlier.includes 35 s) eqn:Hhash; intros [= <-]; [|eauto].
    unfold Earlier.element. simpl.
    pose proof (split_nonempty 35 s).
    destruct (Earlier.split 35 s) as [|first pieces] eqn:Hsplit; [done|]. simpl.
    destruct (split_pieces 35 47 s first) as [? Hd]; [rewrite Hsplit; by left|].
    eauto. }
  destruct (Earlier.includes 47 mangaId) eqn:Hslash; [|by apply Hfragment].
  rewrite element_last.
  destruct (last (Earlier.segments mangaId)) as [s|] eqn:Hlast; simpl; [|done].
  apply Hfragment.
  apply last_Some in Hlast as [l' Hl'].
  destruct (segments_elem mangaId s) as (_ & ? & _); [|done].
  rewrite Hl'. apply elem_of_app. right. by left.
Qed.

Lemma manga_id_clean_witness :
  Earlier.manga_id (js "https://mangapark.io/title/123#abc") = Ok (VStr (js "123"))
  ∧ ∃ s, VStr (js "123") = VStr s
         ∧ Earlier.includes 47 s = false ∧ Earlier.includes 35 s = false.
Proof.
  split; [reflexivity|].
  apply (manga_id_clean (js "https://mangapark.io/title/123#abc")). reflexivity.
Defined.

(** X12.  The earlier [findChapters] takes a path or a URL for
    the identifier at its end: with or without what comes before the last
    [/], and with or without a fragment after [#], the result is the
    same. *)
Theorem earlier_findChapters_of_path fetch toISOString pre id frag :
  id ≠ [] → Earlier.includes 47 id = false → Earlier.includes 35 id = false →
  Earlier.includes 47 frag = false →
  Earlier.findChapters fetch toISOString (pre ++ js "/" ++ id)
  = Earlier.findChapters fetch toISOString id
  ∧ Earlier.findChapters fetch toISOString (pre ++ js "/" ++ id ++ js "#" ++ frag)
    = Earlier.findChapters fetch toISOString id
  ∧ Earlier.findChapters fetch toISOString (id ++ js "#" ++ frag)
    = Earlier.findChapters fetch toISOString id.
Proof.
  intros Hne H47 H35 Hfrag. unfold Earlier.findChapters.
  rewrite <- (app_nil_r id) at 1.
  by rewrite !manga_id_path, app_nil_r, manga_id_fragment, manga_id_bare.
Qed.

Lemma earlier_findChapters_of_path_witness :
  Earlier.findChapters (earlier_respond 200 (chapters_body earlier_records)) sample_date
                       (js "https://mangapark.io/title" ++ js "/" ++ js "123")
  = Earlier.findChapters (earlier_respond 200 (chapters_body earlier_records)) sample_date
                         (js "123").
Proof.
  apply (earlier_findChapters_of_path
           (earlier_respond 200 (chapters_body earlier_records)) sample_date
           (js "https://mangapark.io/title") (js "123") []); by vm_compute.
Defined.

(** X13.  An identifier that has a [/] and nothing but [/]
    makes the earlier [findChapters] return the empty sequence, whatever
    the transport would answer. *)
Theorem earlier_findChapters_no_segment fetch toISOString n :
  Earlier.findChapters fetch toISOString (replicate (S n) 47%N) = [].
Proof.
  unfold Earlier.findChapters, Earlier.manga_id.
  change (Earlier.includes 47 (replicate (S n) 47%N)) with true. cbv iota zeta.
  by rewrite element_last, segments_slashes.
Qed.

(** ** The earlier revision: entries *)

Lemma starts_with_http_app a b :
  starts_with (js "http") (a ++ 35%N :: b) = starts_with (js "http") a.
Proof. by destruct a as [|c1 [|c2 [|c3 [|c4 a]]]]. Qed.

Lemma replace_letter c s :
  is_letter c = true → replace re_letter (c :: s) [] = s.
Proof.
  intros Hc. unfold replace, re_letter. rewrite exec_anchored. cbn [run].
  rewrite Hc. cbn [m_start m_end take drop app]. reflexivity.
Qed.

Lemma chapter_number_extract dname :
  Earlier.chapter_number dname = extractChapterNumber dname.
Proof.
  unfold Earlier.chapter_number, extractChapterNumber.
  destruct (opt_match re_number dname) as [[[? ? [g|]]|]|]; simpl; try done.
  by destruct (negb (is_empty g)).
Qed.

Lemma chapter_number_decimal dname chapter :
  Earlier.chapter_number dname = Ok chapter → decimal chapter.
Proof. rewrite chapter_number_extract. apply extract_gives_decimal. Qed.

Section EarlierBoundary.

Variable fetch : Earlier.request → fetch_outcome.
Variable toISOString : value → result jsstring.
Variable pathname : jsstring → result jsstring.

Lemma earlier_graphqlRequest_failed query variables :
  (∀ req, failed (fetch req) = true) →
  ∃ err, Earlier.graphqlRequest fetch query variables = Throw err.
Proof.
  intros Hf. unfold Earlier.graphqlRequest.
  match goal with
  | |- context [fetch ?r] => specialize (Hf r); destruct (fetch r) as [|status body]
  end; [eauto|].
  simpl in Hf. destruct (negb _); [eauto|].
  destruct body; [discriminate | eauto].
Qed.

Lemma earlier_graphqlRequest_ok status body query variables :
  (∀ req, fetch req = Responded status (Some body)) →
  200 ≤ status ≤ 299 →
  Earlier.graphqlRequest fetch query variables = Ok body.
Proof.
  intros Hf [Hlo Hhi]. unfold Earlier.graphqlRequest. rewrite Hf.
  apply Z.leb_le in Hlo, Hhi. by rewrite Hlo, Hhi.
Qed.

(** The identifier of a chapter is read back by [findChapterPages]. *)
Lemma page_id_of_chapter_id urlPath id :
  starts_with (js "http") urlPath = false →
  Earlier.includes 35 urlPath = false → Earlier.includes 35 id = false →
  Earlier.page_id pathname (urlPath ++ js "#i" ++ id) = Ok (VStr id).
Proof.
  intros Hhttp Hpath Hid. unfold Earlier.page_id.
  change (js "#i" ++ id) with (35%N :: 105%N :: id).
  rewrite starts_with_http_app, Hhttp. cbv [mbind result_bind].
  assert (Earlier.includes 35 (urlPath ++ 35%N :: 105%N :: id) = true) as ->.
  { by rewrite includes_app, includes_cons, N.eqb_refl, orb_true_r. }
  rewrite split_app, (split_without 35 urlPath) by done.
  rewrite (split_without 35 (105%N :: id)) by done.
  change (Earlier.element ([urlPath] ++ [105%N :: id]) 1) with (VStr (105%N :: id)).
  cbv iota. by rewrite replace_letter.
Qed.

Lemma earlier_chapter_entry_shape data i entry :
  Earlier.chapter_entry toISOString data i = Ok entry →
  or_else (prop data "urlPath") (VStr []) = VStr (chapter_path data)
  ∧ to_string (prop data "id") = Ok (chapter_id_text data)
  ∧ ChapterDetails.id entry
    = VStr (chapter_path data ++ js "#i" ++ chapter_id_text data)
  ∧ ChapterDetails.url entry
    = (if starts_with (js "http") (chapter_path data) then chapter_path data
       else baseUrl ++ chapter_path data)
  ∧ Earlier.chapter_number (prop data "dname") = Ok (ChapterDetails.chapter entry)
  ∧ truthy (ChapterDetails.title entry) = true
  ∧ ChapterDetails.index entry = i.
Proof.
  unfold Earlier.chapter_entry, chapter_path, chapter_id_text.
  intros (chapterNum & Hnum & H)%bind_Ok.
  apply bind_Ok in H as (updatedAt & _ & H).
  destruct (or_else (prop data "urlPath") (VStr [])) as [| | | |urlPath| |]; try done.
  apply bind_Ok in H as (id & -> & [= <-]). simpl.
  split_and!; try done.
  unfold or_else at 1.
  destruct (truthy (or_else _ _)) eqn:Htitle; [done|].
  apply chapter_number_decimal in Hnum.
  apply decimal_nonempty in Hnum. by destruct chapterNum.
Qed.

Lemma earlier_chapters_loop_app chapterList chapters out :
  Earlier.chapters_loop toISOString chapterList chapters = Ok out →
  ∃ entries, out = chapters ++ entries
    ∧ Forall2 (λ data entry, ∃ i, Earlier.chapter_entry toISOString data i = Ok entry)
              (payloads chapterList) entries.
Proof.
  revert chapters out.
  induction chapterList as [|record rest IH]; intros chapters out; simpl.
  - intros [= <-]. exists []. by rewrite app_nil_r.
  - unfold get, payloads, payload. simpl. destruct (nullish record); [done|]. simpl.
    destruct (truthy (prop record "data")) eqn:Ht; simpl.
    + intros H. apply bind_Ok in H as (entry & Hentry & H).
      apply IH in H as (entries & -> & Hall).
      exists (entry :: entries). split; [by rewrite <- app_assoc|].
      constructor; eauto.
    + apply IH.
Qed.


End EarlierBoundary.

(** ** The earlier revision: the chapters in order *)

Lemma decimal_sortable g : decimal g → sortable (parseFloat g).
Proof.
  intros (ip & fd & -> & Hne & Hip & Hfd). rewrite parseFloat_number by done.
  apply to_double_sortable.
  - apply digits_value_bounds. by rewrite forallb_app, Hip, Hfd.
  - rewrite Z.mul_1_l. apply Z.pow_pos_nonneg; lia.
Qed.

Lemma chapter_gt_spec a b :
  numbered a → numbered b → chapter_gt a b = true ↔ ¬ chapter_le a b.
Proof.
  intros Ha Hb. apply number_sub_positive; by apply decimal_sortable.
Qed.

Lemma key_le_or a b : key_le a b ∨ ¬ key_le a b.
Proof. destruct a, b; simpl; [lia|tauto..]. Qed.

Lemma array_sort_Permutation {A} (comparefn : A → A → number) l :
  array_sort comparefn l ≡ₚ l.
Proof. apply insertion_Permutation. Qed.

Lemma array_sort_by_chapter pushed :
  Forall numbered pushed →
  StronglySorted chapter_le (array_sort Earlier.by_chapter pushed).
Proof.
  intros Hall. unfold array_sort.
  apply (insertion_sorted chapter_gt numbered chapter_le); [| | |done].
  - intros a b c. apply key_le_trans.
  - intros a b Ha Hb Hgt. apply chapter_gt_spec in Hgt; [|done..].
    by destruct (key_le_total (key (parseFloat (ChapterDetails.chapter a)))
                              (key (parseFloat (ChapterDetails.chapter b)))).
  - intros a b Ha Hb Hgt.
    destruct (key_le_or (key (parseFloat (ChapterDetails.chapter a)))
                        (key (parseFloat (ChapterDetails.chapter b))))
      as [|Hnot]; [done|].
    apply chapter_gt_spec in Hnot; [congruence | done..].
Qed.


Lemma lookup_set_index l i entry :
  imap Earlier.set_index l !! i = Some entry →
  ∃ pushed, l !! i = Some pushed ∧ entry = Earlier.set_index i pushed.
Proof.
  rewrite list_lookup_imap. destruct (l !! i) as [pushed|]; [|done].
  intros [= <-]. eauto.
Qed.


Lemma index_set_index l :
  ChapterDetails.index <$> imap Earlier.set_index l = seq 0 (length l).
Proof.
  apply list_eq. intros i. rewrite list_lookup_fmap, list_lookup_imap.
  destruct (l !! i) as [e|] eqn:He; simpl.
  - symmetry. apply lookup_seq. split; [done|]. by eapply lookup_lt_Some.
  - symmetry. apply lookup_seq_ge. by apply lookup_ge_None.
Qed.

Section EarlierChapters.

Variable fetch : Earlier.request → fetch_outcome.
Variable toISOString : value → result jsstring.

(** What [findChapters] returns when it returns anything. *)
Lemma earlier_findChapters_cases mangaId :
  Earlier.findChapters fetch toISOString mangaId = []
  ∨ ∃ id body records pushed,
      Earlier.manga_id mangaId = Ok id
      ∧ Earlier.graphqlRequest fetch Earlier.CHAPTERS_QUERY (VObj {[ js "id" := id ]})
        = Ok body
      ∧ iterate (chapter_list body) = Ok records
      ∧ Earlier.chapters_loop toISOString records [] = Ok pushed
      ∧ Earlier.findChapters fetch toISOString mangaId
        = imap Earlier.set_index (array_sort Earlier.by_chapter pushed).
Proof.
  unfold Earlier.findChapters.
  destruct (Earlier.manga_id mangaId) as [id|]; [|by left]. cbn [mbind result_bind].
  destruct (Earlier.graphqlRequest _ _ _) as [body|] eqn:Hbody; [|by left].
  cbn [mbind result_bind].
  destruct (iterate (chapter_list body)) as [records|] eqn:Hrecords; [|by left].
  cbn [mbind result_bind].
  destruct (Earlier.chapters_loop toISOString records []) as [pushed|] eqn:Hloop;
    [|by left].
  right. by exists id, body, records, pushed.
Qed.

Lemma earlier_pushed_numbered records pushed :
  Earlier.chapters_loop toISOString records [] = Ok pushed → Forall numbered pushed.
Proof.
  intros (entries & -> & Hall)%earlier_chapters_loop_app. simpl.
  induction Hall as [|data entry ? ? [i Hentry] _ IH]; constructor; [|done].
  apply earlier_chapter_entry_shape in Hentry as (_ & _ & _ & _ & Hnum & _).
  by apply chapter_number_decimal in Hnum.
Qed.


End EarlierChapters.

(** X14.  The earlier [findChapters] returns the chapters in
    ascending order of their numbers: of two entries, the one that comes
    first has the chapter whose Number is the smaller, or the same. *)
Theorem earlier_findChapters_sorted fetch toISOString mangaId i j a b :
  (i < j)%nat →
  Earlier.findChapters fetch toISOString mangaId !! i = Some a →
  Earlier.findChapters fetch toISOString mangaId !! j = Some b →
  number_leb (parseFloat (ChapterDetails.chapter a))
             (parseFloat (ChapterDetails.chapter b)) = true.
Proof.
  intros Hij.
  destruct (earlier_findChapters_cases fetch toISOString mangaId)
    as [->|(id & body & records & pushed & _ & _ & _ & Hloop & ->)]; [done|].
  intros (a0 & Ha & ->)%lookup_set_index (b0 & Hb & ->)%lookup_set_index. simpl.
  apply earlier_pushed_numbered in Hloop.
  assert (Forall numbered (array_sort Earlier.by_chapter pushed)) as Hall.
  { by rewrite array_sort_Permutation. }
  rewrite Forall_forall in Hall.
  apply number_leb_key.
  - apply decimal_sortable, Hall. by eapply list_elem_of_lookup_2.
  - apply decimal_sortable, Hall. by eapply list_elem_of_lookup_2.
  - apply array_sort_by_chapter in Hloop.
    exact (StronglySorted_lookup _ _ i j a0 b0 Hloop Hij Ha Hb).
Qed.

Lemma earlier_findChapters_sorted_witness :
  Earlier.findChapters (earlier_respond 200 (chapters_body earlier_records))
                       sample_date (js "1")
  = [earlier_entry "b" "Ch.2.5" "2.5" 0; earlier_entry "a" "Chapter 10" "10" 1]
  ∧ number_leb (parseFloat (js "2.5")) (parseFloat (js "10")) = true.
Proof.
  assert (Earlier.findChapters (earlier_respond 200 (chapters_body earlier_records))
                               sample_date (js "1")
          = [earlier_entry "b" "Ch.2.5" "2.5" 0; earlier_entry "a" "Chapter 10" "10" 1])
    as Hchapters by (vm_compute; reflexivity).
  split; [exact Hchapters|].
  apply (earlier_findChapters_sorted
           (earlier_respond 200 (chapters_body earlier_records)) sample_date (js "1")
           0 1 (earlier_entry "b" "Ch.2.5" "2.5" 0) (earlier_entry "a" "Chapter 10" "10" 1));
    [lia | by rewrite Hchapters..].
Defined.

(** X15.  After the sort the earlier [findChapters] numbers the
    entries again: the index of each entry is its position in the result,
    for every transport. *)
Theorem earlier_findChapters_reindexed fetch toISOString mangaId :
  ChapterDetails.index <$> Earlier.findChapters fetch toISOString mangaId
  = seq 0 (length (Earlier.findChapters fetch toISOString mangaId)).
Proof.
  destruct (earlier_findChapters_cases fetch toISOString mangaId)
    as [->|(id & body & records & pushed & _ & _ & _ & _ & ->)]; [done|].
  by rewrite index_set_index, length_imap.
Qed.







(** *** Stability *)






(** ** The earlier revision: the operations *)

Lemma earlier_findChapters_elem fetch toISOString mangaId entry :
  entry ∈ Earlier.findChapters fetch toISOString mangaId →
  ∃ body records data i pushed,
    iterate (chapter_list body) = Ok records
    ∧ data ∈ payloads records
    ∧ Earlier.chapter_entry toISOString data i = Ok pushed
    ∧ ∃ j, entry = Earlier.set_index j pushed.
Proof.
  destruct (earlier_findChapters_cases fetch toISOString mangaId)
    as [->|(id & body & records & pushed & _ & _ & Hrecords & Hloop & ->)];
    [by intros ?%elem_of_nil|].
  intros [j (e & He & ->)%lookup_set_index]%list_elem_of_lookup.
  apply earlier_chapters_loop_app in Hloop as (entries & -> & Hall). simpl in He.
  assert (e ∈ array_sort Earlier.by_chapter entries) as Hin
    by (by eapply list_elem_of_lookup_2).
  rewrite array_sort_Permutation in Hin.
  apply list_elem_of_lookup in Hin as [k Hk].
  destruct (Forall2_lookup_r _ _ _ _ _ Hall Hk) as (data & Hdata & i & Hentry).
  exists body, records, data, i, e. split_and!; [done| |done|by exists j].
  by eapply list_elem_of_lookup_2.
Qed.

(** X19.  Every entry of the earlier [findChapters], for every
    transport: the chapter is a decimal numeral; the title is truthy (the
    display name, or "Chapter" and the number, stands in for a missing
    title); the url starts with [http]. *)
Theorem earlier_findChapters_fields fetch toISOString mangaId entry :
  entry ∈ Earlier.findChapters fetch toISOString mangaId →
  decimal (ChapterDetails.chapter entry)
  ∧ truthy (ChapterDetails.title entry) = true
  ∧ starts_with (js "http") (ChapterDetails.url entry) = true.
Proof.
  intros (body & records & data & i & pushed & _ & _ & Hentry & j & ->)
    %earlier_findChapters_elem. simpl.
  apply earlier_chapter_entry_shape in Hentry as (_ & _ & _ & Hurl & Hnum & Htitle & _).
  split_and!; [by eapply chapter_number_decimal | done |].
  rewrite Hurl. by destruct (starts_with (js "http") (chapter_path data)) eqn:Hhttp.
Qed.

Lemma earlier_findChapters_fields_witness :
  decimal (js "2.5")
  ∧ truthy (VStr (js "Ch.2.5")) = true
  ∧ starts_with (js "http") (js "https://mangapark.io/title/1/b") = true.
Proof.
  apply (earlier_findChapters_fields
           (earlier_respond 200 (chapters_body earlier_records)) sample_date (js "1")
           (earlier_entry "b" "Ch.2.5" "2.5" 0)).
  apply list_elem_of_lookup. exists 0%nat. by vm_compute.
Defined.



(** X21.  Given the identifier of a chapter as the earlier
    [findChapters] builds it, the earlier [findChapterPages] asks for the
    pages of that chapter: when the server answers the request for the
    identifier [id], and no other, the pages are those of its answer, in
    order, each with its index and the headers of the page requests. *)
Theorem earlier_pages_of_chapter_id pathname urlPath id body urls :
  starts_with (js "http") urlPath = false →
  Earlier.includes 35 urlPath = false → Earlier.includes 35 id = false →
  url_list body = VArr urls →
  Earlier.findChapterPages (pages_server id body) pathname (urlPath ++ js "#i" ++ id)
  = earlier_pages urls.
Proof.
  intros Hhttp Hpath Hid Hurls. unfold Earlier.findChapterPages.
  rewrite page_id_of_chapter_id by done. cbn [mbind result_bind].
  unfold Earlier.graphqlRequest, pages_server. cbn [Earlier.req_query Earlier.req_variables].
  rewrite lookup_singleton, decide_True by done.
  rewrite bool_decide_eq_true_2 by done.
  cbn. by rewrite Hurls.
Qed.

Lemma earlier_pages_of_chapter_id_witness :
  Earlier.findChapterPages
    (pages_server (js "335566") (pages_body [VStr (js "https://s1/a.jpg")]))
    no_pathname (js "/title/1/c" ++ js "#i" ++ js "335566")
  = earlier_pages [VStr (js "https://s1/a.jpg")].
Proof.
  apply (earlier_pages_of_chapter_id no_pathname (js "/title/1/c") (js "335566")
           (pages_body [VStr (js "https://s1/a.jpg")]) [VStr (js "https://s1/a.jpg")]);
    reflexivity.
Defined.

(** X22.  When the request fails at the network boundary, each
    operation of the earlier revision returns the empty sequence. *)
Theorem earlier_failed_request_empty fetch toISOString pathname opts mangaId chapterId :
  (∀ req, failed (fetch req) = true) →
  Earlier.search fetch opts = []
  ∧ Earlier.findChapters fetch toISOString mangaId = []
  ∧ Earlier.findChapterPages fetch pathname chapterId = [].
Proof.
  intros Hfailed.
  assert (∀ query variables,
            ∃ err, Earlier.graphqlRequest fetch query variables = Throw err) as Hreq
    by (intros; by apply earlier_graphqlRequest_failed).
  split_and!.
  - unfold Earlier.search. destruct (get opts "query") as [query|]; [|done].
    cbn [mbind result_bind].
    match goal with
    | |- context [Earlier.graphqlRequest fetch ?q ?v] => by destruct (Hreq q v) as [err ->]
    end.
  - unfold Earlier.findChapters. destruct (Earlier.manga_id mangaId) as [id|]; [|done].
    cbn [mbind result_bind].
    match goal with
    | |- context [Earlier.graphqlRequest fetch ?q ?v] => by destruct (Hreq q v) as [err ->]
    end.
  - unfold Earlier.findChapterPages.
    destruct (Earlier.page_id pathname chapterId) as [id|]; [|done].
    cbn [mbind result_bind].
    match goal with
    | |- context [Earlier.graphqlRequest fetch ?q ?v] => by destruct (Hreq q v) as [err ->]
    end.
Qed.

Lemma earlier_failed_request_empty_witness :
  Earlier.search (earlier_respond 503 (search_body sample_search_items))
                 (obj [("query", VStr (js "Foo"))]) = []
  ∧ Earlier.findChapters (earlier_respond 503 (search_body sample_search_items))
                         sample_date (js "77") = []
  ∧ Earlier.findChapterPages (earlier_respond 503 (search_body sample_search_items))
                             no_pathname (js "c1") = [].
Proof.
  apply (earlier_failed_request_empty
           (earlier_respond 503 (search_body sample_search_items)) sample_date no_pathname).
  reflexivity.
Defined.

(** *** [search] *)

Lemma earlier_search_loop_app items results out :
  Earlier.search_loop items results = Ok out →
  ∃ entries, out = results ++ entries
    ∧ Forall2 (λ data entry, Earlier.search_entry data = Ok entry) (payloads items) entries.
Proof.
  revert results out.
  induction items as [|item rest IH]; intros results out; simpl.
  - intros [= <-]. exists []. by rewrite app_nil_r.
  - unfold get, payloads, payload. simpl. destruct (nullish item); [done|]. simpl.
    destruct (truthy (prop item "data")) eqn:Ht; simpl.
    + intros H. apply bind_Ok in H as (entry & Hentry & H).
      apply IH in H as (entries & -> & Hall).
      exists (entry :: entries). split; [by rewrite <- app_assoc | by constructor].
    + apply IH.
Qed.

Lemma earlier_search_lookup fetch opts status body items i entry data :
  (∀ req, fetch req = Responded status (Some body)) →
  200 ≤ status ≤ 299 →
  search_items body = VArr items →
  Earlier.search fetch opts !! i = Some entry →
  payloads items !! i = Some data →
  Earlier.search_entry data = Ok entry.
Proof.
  intros Hfetch Hstatus Hitems. unfold Earlier.search.
  destruct (get opts "query") as [query|]; [|done]. cbn [mbind result_bind].
  rewrite (earlier_graphqlRequest_ok fetch status body) by done.
  cbn [mbind result_bind]. rewrite Hitems. cbn [iterate mbind result_bind].
  destruct (Earlier.search_loop items []) as [out|] eqn:Hloop; [|done].
  apply earlier_search_loop_app in Hloop as (entries & -> & Hall). simpl.
  intros Hentry Hdata.
  destruct (Forall2_lookup_l _ _ _ _ _ Hall Hdata) as (entry' & Hentry' & Hok).
  by rewrite Hentry in Hentry'; injection Hentry' as <-.
Qed.

(** X23.  In the earlier revision the image of an entry of [search]
    is the cover when the cover starts with [http], the cover after the
    origin when it starts with [/], and [undefined] for any other cover
    and for a missing one. *)
Theorem earlier_search_image fetch opts status body items i entry data :
  (∀ req, fetch req = Responded status (Some body)) →
  200 ≤ status ≤ 299 →
  search_items body = VArr items →
  Earlier.search fetch opts !! i = Some entry →
  payloads items !! i = Some data →
  (truthy (prop data "urlCoverOri") = false → Earlier.SearchResult.image entry = VUndef)
  ∧ (∀ cover, prop data "urlCoverOri" = VStr cover →
       (js "http" `prefix_of` cover → Earlier.SearchResult.image entry = VStr cover)
       ∧ (js "/" `prefix_of` cover →
          Earlier.SearchResult.image entry = VStr (js "https://mangapark.io" ++ cover))
       ∧ (¬ js "http" `prefix_of` cover → ¬ js "/" `prefix_of` cover →
          Earlier.SearchResult.image entry = VUndef)).
Proof.
  intros Hfetch Hstatus Hitems Hentry Hdata.
  pose proof (earlier_search_lookup fetch opts status body items i entry data
                Hfetch Hstatus Hitems Hentry Hdata) as Hok.
  unfold Earlier.search_entry in Hok.
  apply bind_Ok in Hok as (mangaId & _ & Hok).
  apply bind_Ok in Hok as (image & Himage & [= <-]). cbn [Earlier.SearchResult.image].
  unfold Earlier.cover_image, or_else in Himage. split.
  - intros Hfalsy. rewrite Hfalsy in Himage. by injection Himage as <-.
  - intros cover Hcover. rewrite Hcover in Himage.
    assert (image = if starts_with (js "http") cover then VStr cover
                    else if starts_with (js "/") cover then VStr (baseUrl ++ cover)
                    else VUndef) as ->.
    { destruct cover as [|c cover]; [by injection Himage as <-|]. simpl truthy in Himage.
      cbv iota in Himage. by repeat case_match; injection Himage as <-. }
    split_and!.
    + intros Hhttp%starts_with_prefix. by rewrite Hhttp.
    + intros Hroot%starts_with_prefix.
      rewrite (starts_with_rooted_not_http cover Hroot). by rewrite Hroot.
    + intros Hhttp Hroot.
      destruct (starts_with (js "http") cover) eqn:E1;
        [by apply starts_with_prefix in E1|].
      destruct (starts_with (js "/") cover) eqn:E2;
        [by apply starts_with_prefix in E2 | done].
Qed.

Lemma earlier_search_image_witness :
  Earlier.search (earlier_respond 200 (search_body earlier_items))
                 (obj [("query", VStr (js "Foo"))]) !! 0%nat = Some earlier_result
  ∧ ¬ js "http" `prefix_of` js "c.jpg" ∧ ¬ js "/" `prefix_of` js "c.jpg"
  ∧ Earlier.SearchResult.image earlier_result = VUndef.
Proof.
  assert (¬ js "http" `prefix_of` js "c.jpg") as Hhttp.
  { intros H%starts_with_prefix. discriminate. }
  assert (¬ js "/" `prefix_of` js "c.jpg") as Hroot.
  { intros H%starts_with_prefix. discriminate. }
  split_and!; [reflexivity | exact Hhttp | exact Hroot |].
  apply (earlier_search_image
           (earlier_respond 200 (search_body earlier_items))
           (obj [("query", VStr (js "Foo"))]) 200 (search_body earlier_items)
           earlier_items 0 earlier_result
           (obj [("id", VStr (js "77")); ("name", VStr (js "Foo"));
                 ("urlPath", VStr (js "/title/123/"));
                 ("urlCoverOri", VStr (js "c.jpg"))]))
    with (cover := js "c.jpg"); try reflexivity; [lia | exact Hhttp | exact Hroot].
Defined.

Lemma search_id_segment data pre segment n :
  prop data "urlPath" = VStr (pre ++ js "/" ++ segment ++ replicate n 47%N) →
  segment ≠ [] → Earlier.includes 47 segment = false →
  Earlier.search_id data = Ok (VStr segment).
Proof.
  intros Hpath Hne Hsegment. unfold Earlier.search_id. rewrite Hpath.
  assert (truthy (VStr (pre ++ js "/" ++ segment ++ replicate n 47%N)) = true) as ->
    by (by destruct pre).
  cbv zeta. rewrite element_last, last_segment by done.
  destruct (Earlier.segments _) as [|first rest] eqn:Hsegments; [|done].
  pose proof (last_segment pre segment n Hne Hsegment) as Hlast.
  by rewrite Hsegments in Hlast.
Qed.

(** X24.  In the earlier revision the identifier of an entry of
    [search] is the last segment of the path of the item: for a path that
    ends with a [/], a segment and any number of [/], the identifier is
    that segment; for an item without a path it is the identifier of the
    server. *)
Theorem earlier_search_id fetch opts status body items i entry data :
  (∀ req, fetch req = Responded status (Some body)) →
  200 ≤ status ≤ 299 →
  search_items body = VArr items →
  Earlier.search fetch opts !! i = Some entry →
  payloads items !! i = Some data →
  (∀ pre segment n,
     prop data "urlPath" = VStr (pre ++ js "/" ++ segment ++ replicate n 47%N) →
     segment ≠ [] → Earlier.includes 47 segment = false →
     Earlier.SearchResult.id entry = VStr segment)
  ∧ (truthy (prop data "urlPath") = false →
     Earlier.SearchResult.id entry = prop data "id").
Proof.
  intros Hfetch Hstatus Hitems Hentry Hdata.
  pose proof (earlier_search_lookup fetch opts status body items i entry data
                Hfetch Hstatus Hitems Hentry Hdata) as Hok.
  unfold Earlier.search_entry in Hok.
  apply bind_Ok in Hok as (mangaId & Hid & Hok).
  apply bind_Ok in Hok as (image & _ & [= <-]). cbn [Earlier.SearchResult.id].
  split.
  - intros pre segment n Hpath Hne Hsegment.
    rewrite (search_id_segment data pre segment n) in Hid by done. by injection Hid.
  - intros Hfalsy. unfold Earlier.search_id in Hid. rewrite Hfalsy in Hid.
    by injection Hid.
Qed.

Lemma earlier_search_id_witness :
  Earlier.search (earlier_respond 200 (search_body earlier_items))
                 (obj [("query", VStr (js "Foo"))]) !! 0%nat = Some earlier_result
  ∧ Earlier.SearchResult.id earlier_result = VStr (js "123").
Proof.
  split; [reflexivity|].
  apply (earlier_search_id
           (earlier_respond 200 (search_body earlier_items))
           (obj [("query", VStr (js "Foo"))]) 200 (search_body earlier_items)
           earlier_items 0 earlier_result
           (obj [("id", VStr (js "77")); ("name", VStr (js "Foo"));
                 ("urlPath", VStr (js "/title/123/"));
                 ("urlCoverOri", VStr (js "c.jpg"))]))
    with (pre := js "/title") (segment := js "123") (n := 1%nat);
    try reflexivity; [lia | done].
Defined.

(** *** The identifier of a chapter given as a path *)

Lemma includes_slashes n : Earlier.includes 35 (replicate n 47%N) = false.
Proof. by induction n. Qed.

Lemma page_id_path pathname chapterId path :
  (if starts_with (js "http") chapterId then pathname chapterId else Ok chapterId)
  = Ok path →
  Earlier.includes 35 path = false →
  Earlier.page_id pathname chapterId
  = Ok (from_option VStr VUndef (last (Earlier.segments path))).
Proof.
  intros Hpath Hhash. unfold Earlier.page_id. rewrite Hpath. cbn [mbind result_bind].
  rewrite Hhash. cbv zeta. by rewrite element_last.
Qed.

(** X25.  Given a path, the earlier [findChapterPages] asks for the
    pages of its last segment; given a URL, for the last segment of the
    path of the URL; and given an identifier without [/], for that
    identifier. *)
Theorem earlier_page_id_of_path pathname pre segment n :
  segment ≠ [] → Earlier.includes 47 segment = false →
  Earlier.includes 35 pre = false → Earlier.includes 35 segment = false →
  let path := pre ++ js "/" ++ segment ++ replicate n 47%N in
  (starts_with (js "http") path = false →
   Earlier.page_id pathname path = Ok (VStr segment))
  ∧ (starts_with (js "http") segment = false →
     Earlier.page_id pathname segment = Ok (VStr segment))
  ∧ (∀ url, starts_with (js "http") url = true → pathname url = Ok path →
       Earlier.page_id pathname url = Ok (VStr segment)).
Proof.
  intros Hne Hslash Hpre Hsegment path.
  assert (Earlier.includes 35 path = false) as Hpath.
  { unfold path. change (js "/" ++ segment ++ replicate n 47%N)
      with (47%N :: (segment ++ replicate n 47%N)).
    by rewrite includes_app, includes_cons, includes_app, Hpre, Hsegment, includes_slashes. }
  assert (last (Earlier.segments path) = Some segment) as Hlast
    by (by apply last_segment).
  split_and!.
  - intros Hhttp. rewrite (page_id_path pathname path path); [by rewrite Hlast| |done].
    by rewrite Hhttp.
  - intros Hhttp. rewrite (page_id_path pathname segment segment); [| |done].
    + by rewrite segments_one.
    + by rewrite Hhttp.
  - intros url Hhttp Hurl. rewrite (page_id_path pathname url path); [by rewrite Hlast| |done].
    by rewrite Hhttp.
Qed.

Lemma earlier_page_id_of_path_witness :
  Earlier.page_id no_pathname (js "/title/1" ++ js "/" ++ js "335566" ++ replicate 1 47%N)
  = Ok (VStr (js "335566")).
Proof.
  destruct (earlier_page_id_of_path no_pathname (js "/title/1") (js "335566") 1)
    as [Hpath _]; [by vm_compute..|].
  apply Hpath. by vm_compute.
Defined.

(** ** The revision without [parseChapterNumber] *)

Section OldProvider.

Variable fetch : request → fetch_outcome.
Variable toISOString : value → result jsstring.

Lemma old_chapters_loop_app chapterList chapters out :
  Old.chapters_loop toISOString chapterList chapters = Ok out →
  ∃ entries, out = chapters ++ entries
    ∧ length entries = length (payloads chapterList)
    ∧ ∀ i data, payloads chapterList !! i = Some data →
        ∃ entry, entries !! i = Some entry
          ∧ Old.chapter_entry toISOString data (length chapters + i) = Ok entry.
Proof.
  revert chapters out.
  induction chapterList as [|record rest IH]; intros chapters out; simpl.
  - intros [= <-]. exists []. rewrite app_nil_r. split_and!; [done..|]. by intros i d [=].
  - unfold get, payloads, payload. simpl. destruct (nullish record); [done|]. simpl.
    destruct (truthy (prop record "data")) eqn:Ht; simpl.
    + intros H. apply bind_Ok in H as (entry & Hentry & H).
      apply IH in H as (entries & -> & Hlen & Hall).
      exists (entry :: entries). split_and!.
      * by rewrite <- app_assoc.
      * simpl. by rewrite Hlen.
      * intros [|i] d; simpl.
        -- intros [= <-]. exists entry. by rewrite Nat.add_0_r.
        -- intros Hd. apply Hall in Hd as (e & He & Hd). exists e. split; [done|].
           rewrite length_app in Hd. simpl in Hd.
           by replace (length chapters + S i)%nat
             with (length chapters + 1 + i)%nat by lia.
    + apply IH.
Qed.

(** The two loops run in step. *)
Lemma chapters_loop_normalises chapterList olds news out :
  Forall2 normalises olds news →
  chapters_loop toISOString chapterList news = Ok out →
  ∃ out', Old.chapters_loop toISOString chapterList olds = Ok out'
          ∧ Forall2 normalises out' out.
Proof.
  revert olds news out.
  induction chapterList as [|record rest IH]; intros olds news out Hall; simpl.
  - intros [= <-]. eauto.
  - unfold get. destruct (nullish record); [done|]. simpl.
    destruct (truthy (prop record "data")); simpl; [|by apply IH].
    intros (entry & Hentry & Hloop)%bind_Ok.
    unfold chapter_entry in Hentry.
    apply bind_Ok in Hentry as (updatedAt & Hdate & Hentry).
    apply bind_Ok in Hentry as (url & Hurl & Hentry).
    apply bind_Ok in Hentry as (chapter & Hchapter & [= <-]).
    unfold Old.chapter_entry. rewrite Hdate, Hurl. cbn [mbind result_bind].
    eapply IH; [|exact Hloop].
    apply Forall2_app; [done|]. constructor; [|constructor].
    rewrite (Forall2_length _ _ _ Hall). by split_and!.
Qed.

Lemma old_findChapters_lookup mangaId status body records i entry data :
  (∀ req, fetch req = Responded status (Some body)) →
  200 ≤ status ≤ 299 →
  chapter_list body = VArr records →
  Old.findChapters fetch toISOString mangaId !! i = Some entry →
  payloads records !! i = Some data →
  Old.chapter_entry toISOString data i = Ok entry.
Proof.
  intros Hfetch Hstatus Hrecords. unfold Old.findChapters.
  rewrite (graphqlRequest_ok fetch status body) by done.
  cbn [mbind result_bind]. rewrite Hrecords. cbn [iterate mbind result_bind].
  destruct (Old.chapters_loop toISOString records []) as [out|] eqn:Hloop; [|done].
  apply old_chapters_loop_app in Hloop as (entries & -> & _ & Hall). simpl.
  intros Hentry Hdata. apply Hall in Hdata as (entry' & Hentry' & Hok).
  by rewrite Hentry in Hentry'; injection Hentry' as <-.
Qed.

End OldProvider.

(** X26.  [findChapters] is the [findChapters] of the revision
    without [parseChapterNumber] with the chapters normalised: whenever it
    returns entries, the older one returns as many, each with the display
    name as its chapter, of which [parseChapterNumber] gives the chapter
    of the newer entry; all other fields are the same. *)
Theorem findChapters_normalises_old fetch toISOString mangaId :
  findChapters fetch toISOString mangaId ≠ [] →
  Forall2 normalises (Old.findChapters fetch toISOString mangaId)
                     (findChapters fetch toISOString mangaId).
Proof.
  unfold findChapters, Old.findChapters.
  destruct (graphqlRequest fetch CHAPTERS_QUERY _) as [body|]; [|done].
  cbn [mbind result_bind].
  destruct (iterate (chapter_list body)) as [records|]; [|done].
  cbn [mbind result_bind].
  destruct (chapters_loop toISOString records []) as [out|] eqn:Hloop; [|done].
  intros _.
  destruct (chapters_loop_normalises toISOString records [] [] out) as (out' & -> & Hall);
    [constructor | done | done].
Qed.

Lemma findChapters_normalises_old_witness :
  Forall2 normalises
    (Old.findChapters (respond 200 (chapters_body sample_records)) sample_date
                      (VStr (js "77")))
    (findChapters (respond 200 (chapters_body sample_records)) sample_date
                  (VStr (js "77"))).
Proof.
  apply (findChapters_normalises_old (respond 200 (chapters_body sample_records))
                                     sample_date (VStr (js "77"))).
  by vm_compute.
Defined.

(** X27.  In the revision without [parseChapterNumber] the chapter
    of an entry is the display name of its record as the server gave it,
    whatever it is: a display name that is not a string is passed on, and
    does not make the operation raise. *)
Theorem old_findChapters_chapter fetch toISOString mangaId status body records i entry data :
  (∀ req, fetch req = Responded status (Some body)) →
  200 ≤ status ≤ 299 →
  chapter_list body = VArr records →
  Old.findChapters fetch toISOString mangaId !! i = Some entry →
  payloads records !! i = Some data →
  Old.ChapterDetails.chapter entry = prop data "dname"
  ∧ Old.ChapterDetails.index entry = i.
Proof.
  intros Hfetch Hstatus Hrecords Hentry Hdata.
  pose proof (old_findChapters_lookup fetch toISOString mangaId status body records
                i entry data Hfetch Hstatus Hrecords Hentry Hdata) as Hok.
  unfold Old.chapter_entry in Hok.
  apply bind_Ok in Hok as (updatedAt & _ & Hok).
  by apply bind_Ok in Hok as (url & _ & [= <-]).
Qed.

Lemma old_findChapters_chapter_witness :
  Old.findChapters (respond 200 (chapters_body [record_numbered])) sample_date
                   (VStr (js "77")) !! 0%nat = Some old_entry_numbered
  ∧ findChapters (respond 200 (chapters_body [record_numbered])) sample_date
                 (VStr (js "77")) = []
  ∧ Old.ChapterDetails.chapter old_entry_numbered = VNum (number_of_Z 5)
  ∧ Old.ChapterDetails.index old_entry_numbered = 0%nat.
Proof.
  split; [reflexivity|]. split; [reflexivity|].
  apply (old_findChapters_chapter
           (respond 200 (chapters_body [record_numbered])) sample_date (VStr (js "77"))
           200 (chapters_body [record_numbered]) [record_numbered] 0 old_entry_numbered
           (obj [("id", VStr (js "c9")); ("dname", VNum (number_of_Z 5))]));
    try reflexivity. lia.
Defined.

(** ** What the operations ask for *)

Lemma graphqlRequest_strict query accepts body variables :
  accepts variables = true →
  graphqlRequest (strict_server query accepts body) query variables = Ok body.
Proof.
  intros Haccepts. unfold graphqlRequest, strict_server.
  cbn [req_url req_method req_headers req_query req_variables].
  rewrite Haccepts, !bool_decide_eq_true_2 by done. by destruct query.
Qed.

(** X28.  Each operation sends one POST to the endpoint
    [https://mangapark.io/apo/] with the two fixed headers, its own query
    and its variables: [search] asks for page 1 of size 24 with the query
    as the word, and with [null] for it when the query is empty or
    missing; [findChapters] and [findChapterPages] ask for the identifier
    they are given.  A server that answers no other request serves them as
    one that answers every request. *)
Theorem operations_request toISOString opts id body :
  (stringy (prop opts "query") = true →
   search (strict_server SEARCH_QUERY (selects (query_word opts)) body) opts
   = search (respond 200 body) opts)
  ∧ findChapters (strict_server CHAPTERS_QUERY (identifies id) body) toISOString (VStr id)
    = findChapters (respond 200 body) toISOString (VStr id)
  ∧ findChapterPages (strict_server PAGES_QUERY (identifies id) body) (VStr id)
    = findChapterPages (respond 200 body) (VStr id).
Proof.
  split_and!.
  - intros Hquery. unfold search. destruct (get opts "query") as [query|] eqn:Hget; [|done].
    cbn [mbind result_bind].
    assert (query = prop opts "query") as ->.
    { unfold get in Hget. destruct (nullish opts); [done|]. by injection Hget. }
    rewrite graphqlRequest_strict; last first.
    { unfold selects, query_word, or_else.
      rewrite lookup_singleton, decide_True by done.
      set (fields w := [(js "page", VNum (number_of_Z 1));
                        (js "size", VNum (number_of_Z 24)); (js "word", w)]).
      assert (∀ w, (list_to_map (fields w) : gmap jsstring value) !! js "page"
                   = Some (VNum (number_of_Z 1))) as Hpage by (intros; by vm_compute).
      assert (∀ w, (list_to_map (fields w) : gmap jsstring value) !! js "size"
                   = Some (VNum (number_of_Z 24))) as Hsize by (intros; by vm_compute).
      assert (∀ w, (list_to_map (fields w) : gmap jsstring value) !! js "word"
                   = Some w) as Hword by (intros; by vm_compute).
      match goal with
      | |- context [list_to_map [_; _; (_, ?w)]] =>
        change (list_to_map [(js "page", VNum (number_of_Z 1));
                             (js "size", VNum (number_of_Z 24)); (js "word", w)])
          with (list_to_map (fields w) : gmap jsstring value)
      end.
      rewrite Hpage, Hsize, Hword.
      change (is_number 1 (Some (VNum (number_of_Z 1)))) with true.
      change (is_number 24 (Some (VNum (number_of_Z 24)))) with true.
      cbn [andb].
      destruct (prop opts "query") as [| |[]|x|[|c s]| |]; try done.
      - simpl in Hquery. apply negb_true_iff in Hquery. simpl. by rewrite Hquery.
      - simpl. by apply bool_decide_eq_true_2. }
    by rewrite (graphqlRequest_ok (respond 200 body) 200 body).
  - unfold findChapters. rewrite graphqlRequest_strict; last first.
    { unfold identifies, is_word.
      rewrite lookup_singleton, decide_True by done. by apply bool_decide_eq_true_2. }
    by rewrite (graphqlRequest_ok (respond 200 body) 200 body).
  - unfold findChapterPages. rewrite graphqlRequest_strict; last first.
    { unfold identifies, is_word.
      rewrite lookup_singleton, decide_True by done. by apply bool_decide_eq_true_2. }
    by rewrite (graphqlRequest_ok (respond 200 body) 200 body).
Qed.

Lemma operations_request_witness :
  search (strict_server SEARCH_QUERY (selects (Some (js "Foo")))
                        (search_body sample_search_items))
         (obj [("query", VStr (js "Foo"))])
  = search (respond 200 (search_body sample_search_items))
           (obj [("query", VStr (js "Foo"))]).
Proof.
  apply (operations_request sample_date (obj [("query", VStr (js "Foo"))]) []
                            (search_body sample_search_items)).
  reflexivity.
Defined.

Lemma findChapters_lookup fetch toISOString mangaId status body records i entry data :
  (∀ req, fetch req = Responded status (Some body)) →
  200 ≤ status ≤ 299 →
  chapter_list body = VArr records →
  findChapters fetch toISOString mangaId !! i = Some entry →
  payloads records !! i = Some data →
  chapter_entry toISOString data i = Ok entry.
Proof.
  intros Hfetch Hstatus Hrecords.
  rewrite (findChapters_Ok_records fetch toISOString mangaId status body records) by done.
  destruct (chapters_loop toISOString records []) as [out|] eqn:Hloop; [|done].
  apply chapters_loop_app in Hloop as (entries & -> & _ & Hall). simpl.
  intros Hentry Hdata. apply Hall in Hdata as (entry' & Hentry' & Hok).
  by rewrite Hentry in Hentry'; injection Hentry' as <-.
Qed.

(** X29.  The scanlator of an entry of [findChapters] is the name
    of the uploader ([userNode?.data?.name]) when the record has one; the
    source title when it has no such name; [undefined] when it has
    neither. *)
Theorem findChapters_scanlator fetch toISOString mangaId status body records i entry data :
  (∀ req, fetch req = Responded status (Some body)) →
  200 ≤ status ≤ 299 →
  chapter_list body = VArr records →
  findChapters fetch toISOString mangaId !! i = Some entry →
  payloads records !! i = Some data →
  let name := opt (opt (prop data "userNode") "data") "name" in
  (truthy name = true → ChapterDetails.scanlator entry = name)
  ∧ (truthy name = false → truthy (prop data "srcTitle") = true →
     ChapterDetails.scanlator entry = prop data "srcTitle")
  ∧ (truthy name = false → truthy (prop data "srcTitle") = false →
     ChapterDetails.scanlator entry = VUndef).
Proof.
  intros Hfetch Hstatus Hrecords Hentry Hdata name.
  pose proof (findChapters_lookup fetch toISOString mangaId status body records i entry
                data Hfetch Hstatus Hrecords Hentry Hdata) as Hok.
  unfold chapter_entry in Hok.
  apply bind_Ok in Hok as (updatedAt & _ & Hok).
  apply bind_Ok in Hok as (url & _ & Hok).
  apply bind_Ok in Hok as (chapter & _ & [= <-]). cbn [ChapterDetails.scanlator].
  fold name. unfold or_else. split_and!.
  - intros Hname. rewrite Hname. cbv iota. by rewrite Hname.
  - intros Hname Hsrc. rewrite Hname. cbv iota. by rewrite Hsrc.
  - intros Hname Hsrc. rewrite Hname. cbv iota. by rewrite Hsrc.
Qed.

Lemma findChapters_scanlator_witness :
  findChapters (respond 200 (chapters_body [record_scanlated])) sample_date
               (VStr (js "77")) !! 0%nat = Some entry_scanlated
  ∧ ChapterDetails.scanlator entry_scanlated = VStr (js "Group").
Proof.
  split; [reflexivity|].
  apply (findChapters_scanlator
           (respond 200 (chapters_body [record_scanlated])) sample_date (VStr (js "77"))
           200 (chapters_body [record_scanlated]) [record_scanlated] 0 entry_scanlated
           (obj [("id", VStr (js "c3")); ("srcTitle", VStr (js "Group"));
                 ("userNode", obj [("data", VNull)])]));
    try reflexivity. lia.
Defined.
